(** * FHETimeCapsule: the capsule store contract and the chunk codec

    A shallow embedding of
    - [packages/hardhat/contracts/FHETimeCapsule.sol]: the capsule store, its
      lifecycle guards and the propagation of decryption permissions;
    - the message chunk codec of the [useFHETimeCapsule] hook:
      [encodeMessageToChunks], [decodeMessageFromResults] and their helpers;
    followed by the properties stated for them.  Definitions come first, then
    the supporting lemmas, then one theorem per stated property. *)

From Stdlib Require Import NArith ZArith List String Ascii Strings.Byte Lia.
From stdpp Require Import base option list gmap sets strings.
Import ListNotations.

Local Open Scope N_scope.

#[local] Set Warnings "-clear-no-such-hyp".

(** * Part I: the capsule store *)

(** ** Solidity execution model *)

Module Solidity.

(** [uint256] values are naturals below [2^256]; Solidity 0.8 arithmetic is
    checked, an overflow or underflow aborts the call with [Panic(0x11)] and
    an out-of-range array index with [Panic(0x32)].  A revert raised inside a
    library that the contract calls bubbles up and aborts the call as well;
    it carries the error of the library, none of the reasons of the
    contract. *)
Definition MAX_UINT256 : N := 2 ^ 256 - 1.

Inductive Error : Type :=
| Revert (reason : string)
| Panic (code : N)
| ExternalRevert.

Inductive result (A : Type) : Type :=
| Ok (a : A)
| Err (e : Error).
Arguments Ok {A} a.
Arguments Err {A} e.

Definition PANIC_ARITHMETIC : N := 17.
Definition PANIC_INDEX : N := 50.

Definition checked_add (a b : N) : result N :=
  if a + b <=? MAX_UINT256 then Ok (a + b) else Err (Panic PANIC_ARITHMETIC).

Definition checked_sub (a b : N) : result N :=
  if b <=? a then Ok (a - b) else Err (Panic PANIC_ARITHMETIC).

End Solidity.
Export Solidity.

(** ** The FHE library, as far as the contract uses it *)

Definition address : Type := N.
Definition handle : Type := N.
Definition bytes : Type := list byte.

(** The contract imports [FHE] from [@fhevm/solidity]; that library is not part
    of the repository.  Its entry points are taken as parameters: trivial
    encryption of an address or a boolean, and the admission of an externally
    produced ciphertext handle together with its input proof.  The library
    checks the input proof and reverts when it rejects it: [inputVerified]
    tells whether the proof is accepted for the handle and the caller, and
    [fromExternal] is the handle an accepted input is admitted as. *)
Class FHEVM : Type := {
  asEaddress : address -> handle;
  asEbool : bool -> handle;
  inputVerified : handle -> address -> bytes -> bool;
  fromExternal : handle -> bytes -> handle;
  (** [address(this)], the account the contract is deployed at *)
  this : address
}.

(** ** Contract storage *)

Record TimeCapsule : Type := mkTimeCapsule {
  encryptedMessage : list handle;
  encryptedUnlockTime : handle;
  encryptedIsActive : handle;
  encryptedIsUnlocked : handle;
  encryptedCreator : handle;
  creator : address;
  unlockTime : N;
  isActive : bool;
  isUnlocked : bool
}.

(** The value every slot of the [timeCapsules] mapping holds before it is
    written. *)
Definition emptyCapsule : TimeCapsule :=
  mkTimeCapsule [] 0 0 0 0 0 0 false false.

#[global] Instance TimeCapsule_inhabited : Inhabited TimeCapsule :=
  populate emptyCapsule.

Definition set_encryptedMessage (v : list handle) (c : TimeCapsule) :=
  mkTimeCapsule v (encryptedUnlockTime c) (encryptedIsActive c)
    (encryptedIsUnlocked c) (encryptedCreator c) (creator c) (unlockTime c)
    (isActive c) (isUnlocked c).
Definition set_encryptedUnlockTime (v : handle) (c : TimeCapsule) :=
  mkTimeCapsule (encryptedMessage c) v (encryptedIsActive c)
    (encryptedIsUnlocked c) (encryptedCreator c) (creator c) (unlockTime c)
    (isActive c) (isUnlocked c).
Definition set_encryptedIsActive (v : handle) (c : TimeCapsule) :=
  mkTimeCapsule (encryptedMessage c) (encryptedUnlockTime c) v
    (encryptedIsUnlocked c) (encryptedCreator c) (creator c) (unlockTime c)
    (isActive c) (isUnlocked c).
Definition set_encryptedIsUnlocked (v : handle) (c : TimeCapsule) :=
  mkTimeCapsule (encryptedMessage c) (encryptedUnlockTime c)
    (encryptedIsActive c) v (encryptedCreator c) (creator c) (unlockTime c)
    (isActive c) (isUnlocked c).
Definition set_encryptedCreator (v : handle) (c : TimeCapsule) :=
  mkTimeCapsule (encryptedMessage c) (encryptedUnlockTime c)
    (encryptedIsActive c) (encryptedIsUnlocked c) v (creator c) (unlockTime c)
    (isActive c) (isUnlocked c).
Definition set_creator (v : address) (c : TimeCapsule) :=
  mkTimeCapsule (encryptedMessage c) (encryptedUnlockTime c)
    (encryptedIsActive c) (encryptedIsUnlocked c) (encryptedCreator c) v
    (unlockTime c) (isActive c) (isUnlocked c).
Definition set_unlockTime (v : N) (c : TimeCapsule) :=
  mkTimeCapsule (encryptedMessage c) (encryptedUnlockTime c)
    (encryptedIsActive c) (encryptedIsUnlocked c) (encryptedCreator c)
    (creator c) v (isActive c) (isUnlocked c).
Definition set_isActive (v : bool) (c : TimeCapsule) :=
  mkTimeCapsule (encryptedMessage c) (encryptedUnlockTime c)
    (encryptedIsActive c) (encryptedIsUnlocked c) (encryptedCreator c)
    (creator c) (unlockTime c) v (isUnlocked c).
Definition set_isUnlocked (v : bool) (c : TimeCapsule) :=
  mkTimeCapsule (encryptedMessage c) (encryptedUnlockTime c)
    (encryptedIsActive c) (encryptedIsUnlocked c) (encryptedCreator c)
    (creator c) (unlockTime c) (isActive c) v.

Inductive Event : Type :=
| CapsuleCreated (capsuleId : N) (creator : address) (unlockTime : N)
| CapsuleUnlocked (capsuleId : N) (creator : address)
| CapsuleCancelled (capsuleId : N) (creator : address)
| CapsuleEncryptionGranted (capsuleId : N) (recipient : address)
    (creatorHandle unlockTimeHandle isActiveHandle isUnlockedHandle : handle)
    (messageHandles : list handle).

(** The state a call runs against: the three storage variables of the
    contract, the permission ledger that [FHE.allow] writes to, and the log of
    emitted events (oldest first). *)
Record State : Type := mkState {
  timeCapsules : gmap N TimeCapsule;
  userCapsules : gmap address (list N);
  nextCapsuleId : N;
  acl : gset (handle * address);
  events : list Event
}.

(** Storage right after deployment: [nextCapsuleId = 1], empty mappings. *)
Definition deployed : State := mkState ∅ ∅ 1 ∅ [].

(** [timeCapsules[capsuleId]]: an unwritten slot reads as [emptyCapsule]. *)
Definition capsuleAt (s : State) (capsuleId : N) : TimeCapsule :=
  timeCapsules s !!! capsuleId.

(** [userCapsules[user]]: an unwritten slot reads as the empty array. *)
Definition userCapsulesAt (s : State) (user : address) : list N :=
  default [] (userCapsules s !! user).

(** [msg.sender] and [block.timestamp] of a call. *)
Record Msg : Type := mkMsg {
  sender : address;
  timestamp : N
}.

(** ** Calls as state transformers that may revert *)

Definition M (A : Type) : Type := State -> result (A * State).

#[global] Instance M_ret : MRet M := fun A a s => Ok (a, s).
#[global] Instance M_bind : MBind M := fun A B f m s =>
  match m s with
  | Ok (a, s') => f a s'
  | Err e => Err e
  end.

Definition require (cond : bool) (reason : string) : M unit :=
  fun s => if cond then Ok (tt, s) else Err (Revert reason).

Definition lift {A} (r : result A) : M A :=
  fun s => match r with Ok a => Ok (a, s) | Err e => Err e end.

Definition read {A} (f : State -> A) : M A := fun s => Ok (f s, s).

Definition write (f : State -> State) : M unit := fun s => Ok (tt, f s).

(** [for (uint256 i = 0; i < n; i++) body(i)] *)
Fixpoint for_loop (i : N) (count : nat) (body : N -> M unit) : M unit :=
  match count with
  | O => mret tt
  | S count' => body i ;; for_loop (i + 1) count' body
  end.

(** Reading [a[i]] from a calldata array. *)
Definition index {A} (a : list A) (i : N) : M A :=
  match a !! N.to_nat i with
  | Some x => mret x
  | None => lift (Err (Panic PANIC_INDEX))
  end.

Definition updateCapsule (capsuleId : N) (f : TimeCapsule -> TimeCapsule) : M unit :=
  write (fun s =>
    mkState (<[capsuleId := f (capsuleAt s capsuleId)]> (timeCapsules s))
      (userCapsules s) (nextCapsuleId s) (acl s) (events s)).

Definition emit (e : Event) : M unit :=
  write (fun s =>
    mkState (timeCapsules s) (userCapsules s) (nextCapsuleId s) (acl s)
      (events s ++ [e])).

(** Modelled from the spec: the permission ledger behind [FHE.allow] (the
    library is not part of the repository).  Section 4.3: a grant adds the
    recipient to the set of parties allowed to decrypt a handle; grants are
    additive and granting twice changes nothing. *)
Definition FHE_allow (h : handle) (account : address) : M unit :=
  write (fun s =>
    mkState (timeCapsules s) (userCapsules s) (nextCapsuleId s)
      ({[ (h, account) ]} ∪ acl s) (events s)).

Definition FHE_allowThis `{FHEVM} (h : handle) : M unit := FHE_allow h this.

(** [FHE.fromExternal(inputHandle, inputProof)], called on behalf of
    [msg.sender]: a rejected input proof aborts the call. *)
Definition FHE_fromExternal `{FHEVM} (msg : Msg) (inputHandle : handle)
    (inputProof : bytes) : M handle :=
  if inputVerified inputHandle (sender msg) inputProof
  then mret (fromExternal inputHandle inputProof)
  else lift (Err ExternalRevert).

(** ** The contract *)

Section Contract.
Context `{fhe : FHEVM}.

(** [capsuleId = nextCapsuleId++] *)
Definition postIncrementNextCapsuleId : M N :=
  old ← read nextCapsuleId;
  new ← lift (checked_add old 1);
  write (fun s =>
    mkState (timeCapsules s) (userCapsules s) new (acl s) (events s)) ;;
  mret old.

(** [userCapsules[user].push(capsuleId)] *)
Definition pushUserCapsule (user : address) (capsuleId : N) : M unit :=
  write (fun s =>
    mkState (timeCapsules s)
      (<[user := userCapsulesAt s user ++ [capsuleId]]> (userCapsules s))
      (nextCapsuleId s) (acl s) (events s)).

Definition createTimeCapsule (msg : Msg)
    (encryptedMessageChunks : list handle) (messageProofs : list bytes)
    (encryptedUnlockTimeHandle : handle) (unlockTimeProof : bytes)
    (unlockTime : N) : M N :=
  require (0 <? N.of_nat (length encryptedMessageChunks))
    "Encrypted message required" ;;
  require (N.of_nat (length encryptedMessageChunks)
           =? N.of_nat (length messageProofs))
    "Message proof mismatch" ;;
  require (timestamp msg <? unlockTime) "Unlock time must be in the future" ;;
  capsuleId ← postIncrementNextCapsuleId;
  updateCapsule capsuleId (set_creator (sender msg)) ;;
  updateCapsule capsuleId (set_encryptedCreator (asEaddress (sender msg))) ;;
  capsule ← read (fun s => capsuleAt s capsuleId);
  FHE_allowThis (encryptedCreator capsule) ;;
  updateCapsule capsuleId (set_unlockTime unlockTime) ;;
  admitted ← FHE_fromExternal msg encryptedUnlockTimeHandle unlockTimeProof;
  updateCapsule capsuleId (set_encryptedUnlockTime admitted) ;;
  capsule ← read (fun s => capsuleAt s capsuleId);
  FHE_allowThis (encryptedUnlockTime capsule) ;;
  updateCapsule capsuleId (set_isActive true) ;;
  updateCapsule capsuleId (set_isUnlocked false) ;;
  updateCapsule capsuleId (set_encryptedIsActive (asEbool true)) ;;
  updateCapsule capsuleId (set_encryptedIsUnlocked (asEbool false)) ;;
  capsule ← read (fun s => capsuleAt s capsuleId);
  FHE_allowThis (encryptedIsActive capsule) ;;
  FHE_allowThis (encryptedIsUnlocked capsule) ;;
  for_loop 0 (length encryptedMessageChunks) (fun i =>
    external ← index encryptedMessageChunks i;
    proof ← index messageProofs i;
    chunk ← FHE_fromExternal msg external proof;
    FHE_allowThis chunk ;;
    updateCapsule capsuleId
      (fun c => set_encryptedMessage (encryptedMessage c ++ [chunk]) c)) ;;
  pushUserCapsule (sender msg) capsuleId ;;
  emit (CapsuleCreated capsuleId (sender msg) unlockTime) ;;
  mret capsuleId.

Definition cancelTimeCapsule (msg : Msg) (capsuleId : N) : M unit :=
  capsule ← read (fun s => capsuleAt s capsuleId);
  require (creator capsule =? sender msg) "Only creator can cancel" ;;
  require (isActive capsule) "Capsule is not active" ;;
  require (negb (isUnlocked capsule)) "Capsule is already unlocked" ;;
  updateCapsule capsuleId (set_isActive false) ;;
  updateCapsule capsuleId (set_encryptedIsActive (asEbool false)) ;;
  emit (CapsuleCancelled capsuleId (sender msg)).

Definition _allowCapsuleTo (capsuleId : N) (recipient : address) : M unit :=
  capsule ← read (fun s => capsuleAt s capsuleId);
  FHE_allow (encryptedCreator capsule) recipient ;;
  FHE_allow (encryptedUnlockTime capsule) recipient ;;
  FHE_allow (encryptedIsActive capsule) recipient ;;
  FHE_allow (encryptedIsUnlocked capsule) recipient ;;
  mapM (fun h => FHE_allow h recipient) (encryptedMessage capsule) ;;
  emit (CapsuleEncryptionGranted capsuleId recipient
          (encryptedCreator capsule) (encryptedUnlockTime capsule)
          (encryptedIsActive capsule) (encryptedIsUnlocked capsule)
          (encryptedMessage capsule)).

Definition _openCapsule (capsuleId : N) (requestor : address) : M unit :=
  updateCapsule capsuleId (set_isActive false) ;;
  updateCapsule capsuleId (set_isUnlocked true) ;;
  updateCapsule capsuleId (set_encryptedIsActive (asEbool false)) ;;
  updateCapsule capsuleId (set_encryptedIsUnlocked (asEbool true)) ;;
  capsule ← read (fun s => capsuleAt s capsuleId);
  _allowCapsuleTo capsuleId (creator capsule) ;;
  (if negb (requestor =? creator capsule)
   then _allowCapsuleTo capsuleId requestor
   else mret tt) ;;
  emit (CapsuleUnlocked capsuleId (creator capsule)).

Definition openTimeCapsule (msg : Msg) (capsuleId : N) : M unit :=
  capsule ← read (fun s => capsuleAt s capsuleId);
  require (isActive capsule) "Capsule is not active" ;;
  require (negb (isUnlocked capsule)) "Capsule is already unlocked" ;;
  require (unlockTime capsule <=? timestamp msg) "Unlock time has not arrived" ;;
  _openCapsule capsuleId (sender msg).

Definition grantDecryptionAccess (msg : Msg) (capsuleId : N)
    (recipient : address) : M unit :=
  require (negb (recipient =? 0)) "Invalid recipient" ;;
  capsule ← read (fun s => capsuleAt s capsuleId);
  require (isUnlocked capsule) "Capsule not unlocked" ;;
  require (creator capsule =? sender msg) "Only creator can share" ;;
  _allowCapsuleTo capsuleId recipient.

Definition cancelledCapsule (c : TimeCapsule) : TimeCapsule :=
  set_encryptedIsActive (asEbool false) (set_isActive false c).

Definition openedCapsule (c : TimeCapsule) : TimeCapsule :=
  set_encryptedIsUnlocked (asEbool true)
    (set_encryptedIsActive (asEbool false)
       (set_isUnlocked true (set_isActive false c))).

Definition createdCapsule (msg : Msg) (chunks : list handle)
    (proofs : list bytes) (unlockHandle : handle) (unlockProof : bytes)
    (unlockTime : N) (c : TimeCapsule) : TimeCapsule :=
  mkTimeCapsule (encryptedMessage c ++ zip_with fromExternal chunks proofs)
    (fromExternal unlockHandle unlockProof) (asEbool true) (asEbool false)
    (asEaddress (sender msg)) (sender msg) unlockTime true false.

(** Whether the library accepts every input of a creation: the unlock time
    and each chunk, with their proofs. *)
Definition inputsVerified (msg : Msg) (chunks : list handle)
    (proofs : list bytes) (unlockHandle : handle) (unlockProof : bytes)
  : bool :=
  inputVerified unlockHandle (sender msg) unlockProof
  && forallb (fun '(external, proof) => inputVerified external (sender msg) proof)
       (zip chunks proofs).

Definition creationGrants (msg : Msg) (chunks : list handle)
    (proofs : list bytes) (unlockHandle : handle) (unlockProof : bytes)
  : gset (handle * address) :=
  list_to_set
    (map (fun h => (h, this))
       (asEaddress (sender msg) :: fromExternal unlockHandle unlockProof
          :: asEbool true :: asEbool false
          :: zip_with fromExternal chunks proofs)).

End Contract.

(** ** Transactions and traces *)

Inductive Call : Type :=
| CreateTimeCapsule (encryptedMessageChunks : list handle)
    (messageProofs : list bytes) (encryptedUnlockTimeHandle : handle)
    (unlockTimeProof : bytes) (unlockTime : N)
| CancelTimeCapsule (capsuleId : N)
| OpenTimeCapsule (capsuleId : N)
| GrantDecryptionAccess (capsuleId : N) (recipient : address).

Record Tx : Type := mkTx {
  tx_msg : Msg;
  tx_call : Call
}.

(** The external entry points; a creation returns the new capsule id. *)
Definition dispatch `{FHEVM} (tx : Tx) : M (option N) :=
  match tx_call tx with
  | CreateTimeCapsule chunks proofs unlockHandle unlockProof unlockTime =>
      capsuleId ← createTimeCapsule (tx_msg tx) chunks proofs unlockHandle
                    unlockProof unlockTime;
      mret (Some capsuleId)
  | CancelTimeCapsule capsuleId =>
      cancelTimeCapsule (tx_msg tx) capsuleId ;; mret None
  | OpenTimeCapsule capsuleId =>
      openTimeCapsule (tx_msg tx) capsuleId ;; mret None
  | GrantDecryptionAccess capsuleId recipient =>
      grantDecryptionAccess (tx_msg tx) capsuleId recipient ;; mret None
  end.

(** A reverted call leaves no trace in the state: every write, permission and
    event of the call is rolled back. *)
Definition transact `{FHEVM} (tx : Tx) (s : State) : State :=
  match dispatch tx s with
  | Ok (_, s') => s'
  | Err _ => s
  end.

(** The capsule id a transaction assigned, if it was a successful creation. *)
Definition assignedBy `{FHEVM} (tx : Tx) (s : State) : option N :=
  match dispatch tx s with
  | Ok (r, _) => r
  | Err _ => None
  end.

Fixpoint run `{FHEVM} (trace : list Tx) (s : State) : State :=
  match trace with
  | [] => s
  | tx :: trace' => run trace' (transact tx s)
  end.

(** The ids assigned along a trace, oldest first. *)
Fixpoint assigned `{FHEVM} (trace : list Tx) (s : State) : list N :=
  match trace with
  | [] => []
  | tx :: trace' =>
      match assignedBy tx s with
      | Some capsuleId => capsuleId :: assigned trace' (transact tx s)
      | None => assigned trace' (transact tx s)
      end
  end.

(** ** View functions *)

Definition getTimeCapsule (s : State) (capsuleId : N)
  : address * N * bool * bool * N :=
  let capsule := capsuleAt s capsuleId in
  (creator capsule, unlockTime capsule, isActive capsule, isUnlocked capsule,
   N.of_nat (length (encryptedMessage capsule))).

Definition getTotalCapsules (s : State) : result N :=
  checked_sub (nextCapsuleId s) 1.

(** The handles [_allowCapsuleTo] shares: the four encrypted mirrors and every
    message chunk. *)
Definition fieldHandles (c : TimeCapsule) : list handle :=
  encryptedCreator c :: encryptedUnlockTime c :: encryptedIsActive c
    :: encryptedIsUnlocked c :: encryptedMessage c.

Definition grantsTo (recipient : address) (c : TimeCapsule)
  : gset (handle * address) :=
  list_to_set (map (fun h => (h, recipient)) (fieldHandles c)).

Definition grantedEvent (capsuleId : N) (recipient : address)
    (c : TimeCapsule) : Event :=
  CapsuleEncryptionGranted capsuleId recipient (encryptedCreator c)
    (encryptedUnlockTime c) (encryptedIsActive c) (encryptedIsUnlocked c)
    (encryptedMessage c).

(** ** Error taxonomy *)

Inductive ErrorKind : Type :=
| ValidationError
| InvalidTransition.

(** Modelled from the spec: the contract only carries revert reasons; sections
    7 and 8 sort them into kinds.  Bad creation arguments and a null grant
    recipient are validation errors, every other violated guard of cancel, open
    and grant is an invalid transition.  An arithmetic panic belongs to
    neither, and neither does a revert raised inside the FHE library. *)
Definition errorKind (e : Error) : option ErrorKind :=
  match e with
  | Revert reason =>
      if bool_decide (reason ∈ ["Encrypted message required";
                                "Message proof mismatch";
                                "Unlock time must be in the future";
                                "Invalid recipient"]%string)
      then Some ValidationError
      else if bool_decide (reason ∈ ["Only creator can cancel";
                                     "Capsule is not active";
                                     "Capsule is already unlocked";
                                     "Unlock time has not arrived";
                                     "Capsule not unlocked";
                                     "Only creator can share"]%string)
      then Some InvalidTransition
      else None
  | Panic _ => None
  | ExternalRevert => None
  end.

(** ** What a transaction may change *)

(** The content of a capsule that no lifecycle call may touch. *)
Definition same_content (c c' : TimeCapsule) : Prop :=
  creator c' = creator c
  /\ unlockTime c' = unlockTime c
  /\ encryptedMessage c' = encryptedMessage c
  /\ encryptedCreator c' = encryptedCreator c
  /\ encryptedUnlockTime c' = encryptedUnlockTime c.

Definition is_lifecycle (call : Call) : bool :=
  match call with
  | CreateTimeCapsule _ _ _ _ _ => false
  | _ => true
  end.

Section Effects.
Context `{fhe : FHEVM}.

(** How one capsule slot can change in one transaction; [written] tells
    whether the slot had been written before. *)
Inductive capsule_step (written : Prop) : TimeCapsule -> TimeCapsule -> Prop :=
| step_untouched c : capsule_step written c c
| step_created msg chunks proofs unlockHandle unlockProof ut :
    ~ written ->
    capsule_step written emptyCapsule
      (createdCapsule msg chunks proofs unlockHandle unlockProof ut emptyCapsule)
| step_cancelled c :
    isActive c = true -> isUnlocked c = false ->
    capsule_step written c (cancelledCapsule c)
| step_opened c :
    isActive c = true -> isUnlocked c = false ->
    capsule_step written c (openedCapsule c).

(** Storage invariant: the id counter stays within [1, MAX_UINT256], slots not
    yet handed out are unwritten, and no capsule is active and unlocked. *)
Record wf (s : State) : Prop := mkWf {
  wf_next_pos : 1 <= nextCapsuleId s;
  wf_next_max : nextCapsuleId s <= MAX_UINT256;
  wf_unassigned : forall capsuleId,
    capsuleId = 0 \/ nextCapsuleId s <= capsuleId ->
    timeCapsules s !! capsuleId = None;
  wf_flags : forall capsuleId,
    isActive (capsuleAt s capsuleId) && isUnlocked (capsuleAt s capsuleId)
    = false
}.

(** The effect of one transaction on the id counter, on the set of written
    slots and on every capsule. *)
Record tx_effect (tx : Tx) (s : State) : Prop := mkEffect {
  eff_next :
    match assignedBy tx s with
    | Some capsuleId =>
        capsuleId = nextCapsuleId s
        /\ nextCapsuleId (transact tx s) = nextCapsuleId s + 1
        /\ nextCapsuleId s + 1 <= MAX_UINT256
    | None => nextCapsuleId (transact tx s) = nextCapsuleId s
    end;
  eff_slots : forall capsuleId,
    timeCapsules (transact tx s) !! capsuleId = None <->
    timeCapsules s !! capsuleId = None
    /\ assignedBy tx s <> Some capsuleId;
  eff_capsule : forall capsuleId,
    capsule_step (timeCapsules s !! capsuleId <> None)
      (capsuleAt s capsuleId) (capsuleAt (transact tx s) capsuleId)
}.

End Effects.

(** ** A concrete FHE environment and the scenario of the test suite *)

(** Handles are only compared for identity; this instance passes external
    handles through unchanged and keeps the handles of encrypted booleans and
    of encrypted addresses apart from each other.  It rejects an input that
    comes with an empty proof. *)
Definition mockFHEVM : FHEVM := {|
  asEaddress a := 1000 + a;
  asEbool b := if b then 2 else 1;
  inputVerified _ _ proof := negb (bool_decide (proof = []));
  fromExternal h _ := h;
  this := 77
|}.

Definition alice : address := 10.
Definition bob : address := 11.
Definition charlie : address := 12.

(** A proof the mock accepts. *)
Definition validProof : bytes := [x01].

(** [createdCapsuleFixture]: chunks [101, 202, 303], unlock one hour after the
    block in which the capsule is created. *)
Definition txCreate (now : N) : Tx :=
  mkTx (mkMsg alice now)
    (CreateTimeCapsule [101; 202; 303] [validProof; validProof; validProof] 500
       validProof
       (now + 3600)).

Definition txOpen (who : address) (now : N) : Tx :=
  mkTx (mkMsg who now) (OpenTimeCapsule 1).

Definition txCancel (who : address) (now : N) : Tx :=
  mkTx (mkMsg who now) (CancelTimeCapsule 1).

Definition txGrant (who recipient : address) (now : N) : Tx :=
  mkTx (mkMsg who now) (GrantDecryptionAccess 1 recipient).

(** ** Read-only calls *)

(** A view function reads the storage and returns a value, or aborts. *)
#[global] Instance result_ret : MRet result := fun A a => Ok a.
#[global] Instance result_bind : MBind result := fun A B f r =>
  match r with
  | Ok a => f a
  | Err e => Err e
  end.

Definition succeeds {A} (r : result A) : bool :=
  match r with
  | Ok _ => true
  | Err _ => false
  end.

(** [for (uint256 i = start; i < stop && cond; i++) body] over local
    variables [acc]; [count] is the number of iterations that the bound
    [i < stop] still allows, so the increment of [i] cannot overflow. *)
Fixpoint for_range {A} (i : N) (count : nat) (cond : A -> bool)
    (body : N -> A -> result A) (acc : A) : result A :=
  match count with
  | O => Ok acc
  | S count' =>
      if cond acc
      then acc' ← body i acc; for_range (i + 1) count' cond body acc'
      else Ok acc
  end.

(** [a[i]] on a storage or memory array: [Panic(0x32)] out of range. *)
Definition array_get {A} (a : list A) (i : N) : result A :=
  match a !! N.to_nat i with
  | Some x => Ok x
  | None => Err (Panic PANIC_INDEX)
  end.

(** [a[i] = v] on a memory array. *)
Definition array_set {A} (a : list A) (i : N) (v : A) : result (list A) :=
  if decide (N.to_nat i < length a)%nat
  then Ok (<[N.to_nat i := v]> a)
  else Err (Panic PANIC_INDEX).

(** [new uint256[](n)], zero filled *)
Definition array_new (n : N) : list N := replicate (N.to_nat n) 0.

Definition getEncryptedCapsuleMetadata (s : State) (capsuleId : N)
  : handle * handle * handle * handle :=
  let capsule := capsuleAt s capsuleId in
  (encryptedCreator capsule, encryptedUnlockTime capsule,
   encryptedIsActive capsule, encryptedIsUnlocked capsule).

Definition getEncryptedMessage (s : State) (capsuleId : N)
  : result (list handle) :=
  let capsule := capsuleAt s capsuleId in
  let length_ := N.of_nat (length (encryptedMessage capsule)) in
  let chunks := array_new length_ in
  for_range 0 (N.to_nat length_) (fun _ => true)
    (fun i chunks =>
       chunk ← array_get (encryptedMessage capsule) i;
       array_set chunks i chunk)
    chunks.

Definition getUserCapsules (s : State) (user : address) : list N :=
  userCapsulesAt s user.

Definition getActiveCapsulesByUser (s : State) (user : address)
  : result (list N) :=
  let userCapsuleIds := userCapsulesAt s user in
  activeCount ← for_range 0 (length userCapsuleIds) (fun _ => true)
    (fun i activeCount =>
       capsuleId ← array_get userCapsuleIds i;
       if isActive (capsuleAt s capsuleId)
       then checked_add activeCount 1
       else Ok activeCount)
    0;
  let activeCapsules := array_new activeCount in
  '(activeCapsules, _) ←
    for_range 0 (length userCapsuleIds)
      (fun '(_, index) => index <? activeCount)
      (fun i '(activeCapsules, index) =>
         capsuleId ← array_get userCapsuleIds i;
         if isActive (capsuleAt s capsuleId)
         then
           capsuleId ← array_get userCapsuleIds i;
           activeCapsules ← array_set activeCapsules index capsuleId;
           index ← checked_add index 1;
           Ok (activeCapsules, index)
         else Ok (activeCapsules, index))
      (activeCapsules, 0);
  Ok activeCapsules.

(** [block.timestamp] of the call is [timestamp msg]. *)
Definition getExpiredCapsulesCount (msg : Msg) (s : State) : result N :=
  for_range 1 (N.to_nat (nextCapsuleId s - 1)) (fun _ => true)
    (fun i count =>
       let capsule := capsuleAt s i in
       if isActive capsule && negb (isUnlocked capsule)
          && (unlockTime capsule <=? timestamp msg)
       then checked_add count 1
       else Ok count)
    0.

(** The state a transaction leaves behind, case by case: a reverted call
    leaves the state as it was, a successful call has passed its guards and
    has written what the function body writes. *)
Inductive tx_outcome `{FHEVM} (tx : Tx) (s : State) : State -> Prop :=
| outcome_reverted e :
    dispatch tx s = Err e ->
    tx_outcome tx s s
| outcome_created msg chunks proofs unlockHandle unlockProof ut :
    tx = mkTx msg (CreateTimeCapsule chunks proofs unlockHandle unlockProof ut) ->
    chunks <> [] ->
    length chunks = length proofs ->
    timestamp msg < ut ->
    nextCapsuleId s + 1 <= MAX_UINT256 ->
    inputsVerified msg chunks proofs unlockHandle unlockProof = true ->
    tx_outcome tx s
      (mkState
         (<[nextCapsuleId s :=
              createdCapsule msg chunks proofs unlockHandle unlockProof ut
                (capsuleAt s (nextCapsuleId s))]> (timeCapsules s))
         (<[sender msg := userCapsulesAt s (sender msg) ++ [nextCapsuleId s]]>
            (userCapsules s))
         (nextCapsuleId s + 1)
         (creationGrants msg chunks proofs unlockHandle unlockProof ∪ acl s)
         (events s ++ [CapsuleCreated (nextCapsuleId s) (sender msg) ut]))
| outcome_cancelled msg capsuleId :
    tx = mkTx msg (CancelTimeCapsule capsuleId) ->
    creator (capsuleAt s capsuleId) = sender msg ->
    isActive (capsuleAt s capsuleId) = true ->
    isUnlocked (capsuleAt s capsuleId) = false ->
    tx_outcome tx s
      (mkState
         (<[capsuleId := cancelledCapsule (capsuleAt s capsuleId)]>
            (timeCapsules s))
         (userCapsules s) (nextCapsuleId s) (acl s)
         (events s ++ [CapsuleCancelled capsuleId (sender msg)]))
| outcome_opened msg capsuleId :
    tx = mkTx msg (OpenTimeCapsule capsuleId) ->
    isActive (capsuleAt s capsuleId) = true ->
    isUnlocked (capsuleAt s capsuleId) = false ->
    unlockTime (capsuleAt s capsuleId) <= timestamp msg ->
    let c := openedCapsule (capsuleAt s capsuleId) in
    tx_outcome tx s
      (mkState (<[capsuleId := c]> (timeCapsules s)) (userCapsules s)
         (nextCapsuleId s)
         ((if sender msg =? creator c then ∅ else grantsTo (sender msg) c)
          ∪ (grantsTo (creator c) c ∪ acl s))
         (events s ++ [grantedEvent capsuleId (creator c) c]
            ++ (if sender msg =? creator c then []
                else [grantedEvent capsuleId (sender msg) c])
            ++ [CapsuleUnlocked capsuleId (creator c)]))
| outcome_granted msg capsuleId recipient :
    tx = mkTx msg (GrantDecryptionAccess capsuleId recipient) ->
    recipient <> 0 ->
    isUnlocked (capsuleAt s capsuleId) = true ->
    creator (capsuleAt s capsuleId) = sender msg ->
    tx_outcome tx s
      (mkState (timeCapsules s) (userCapsules s) (nextCapsuleId s)
         (grantsTo recipient (capsuleAt s capsuleId) ∪ acl s)
         (events s
            ++ [grantedEvent capsuleId recipient (capsuleAt s capsuleId)])).

(** ** Invariants of the ledger and of the log *)

(** The creator of an unlocked capsule holds every handle of the capsule. *)
Definition creator_holds (s : State) : Prop :=
  forall capsuleId,
    isUnlocked (capsuleAt s capsuleId) = true ->
    grantsTo (creator (capsuleAt s capsuleId)) (capsuleAt s capsuleId) ⊆ acl s.

(** A permission is backed when the handle belongs to an unlocked capsule and
    the log holds the grant of that capsule to the account. *)
Definition backed (s : State) (h : handle) (account : address) : Prop :=
  exists capsuleId,
    isUnlocked (capsuleAt s capsuleId) = true
    /\ h ∈ fieldHandles (capsuleAt s capsuleId)
    /\ grantedEvent capsuleId account (capsuleAt s capsuleId) ∈ events s.

Definition ledger_backed `{FHEVM} (s : State) : Prop :=
  forall h account, (h, account) ∈ acl s -> account = this \/ backed s h account.

(** The log and the storage tell the same story about every capsule. *)
Definition log_agrees (s : State) : Prop :=
  (forall capsuleId who ut,
     CapsuleCreated capsuleId who ut ∈ events s
     <-> timeCapsules s !! capsuleId <> None
         /\ who = creator (capsuleAt s capsuleId)
         /\ ut = unlockTime (capsuleAt s capsuleId))
  /\ (forall capsuleId who,
        CapsuleCancelled capsuleId who ∈ events s
        <-> timeCapsules s !! capsuleId <> None
            /\ isActive (capsuleAt s capsuleId) = false
            /\ isUnlocked (capsuleAt s capsuleId) = false
            /\ who = creator (capsuleAt s capsuleId))
  /\ (forall capsuleId who,
        CapsuleUnlocked capsuleId who ∈ events s
        <-> isUnlocked (capsuleAt s capsuleId) = true
            /\ who = creator (capsuleAt s capsuleId)).

(** * Part II: the chunk codec *)

(** JavaScript strings.  The codec itself only builds and reads hexadecimal
    text, for which 8-bit characters suffice; the conversion between message
    text and bytes belongs to the [Runtime] interface below. *)
Abbreviation jsString := (list ascii).
Abbreviation Uint8Array := (list byte).

Definition str (s : string) : jsString := list_ascii_of_string s.

(** A JavaScript computation either completes with a value or throws. *)
Inductive js (A : Type) : Type :=
| Normal (a : A)
| Throw (error : string).
Arguments Normal {A} a.
Arguments Throw {A} error.

#[global] Instance js_ret : MRet js := fun A a => Normal a.
#[global] Instance js_bind : MBind js := fun A B f m =>
  match m with
  | Normal a => f a
  | Throw e => Throw e
  end.
#[global] Instance js_fmap : FMap js := fun A B f m =>
  match m with
  | Normal a => Normal (f a)
  | Throw e => Throw e
  end.

(** Text conversion and case folding are services of the JavaScript runtime;
    the codec is stated over any implementation of them. *)
Class Runtime : Type := {
  TextEncoder_encode : jsString -> Uint8Array;
  TextDecoder_decode : Uint8Array -> jsString;
  toLowerCase : jsString -> jsString
}.

Definition BYTES_PER_CHUNK : nat := 32.

(** ** Numbers and hexadecimal text *)

Definition hexDigit (d : N) : ascii :=
  match d with
  | 0 => "0" | 1 => "1" | 2 => "2" | 3 => "3" | 4 => "4" | 5 => "5" | 6 => "6"
  | 7 => "7" | 8 => "8" | 9 => "9" | 10 => "a" | 11 => "b" | 12 => "c"
  | 13 => "d" | 14 => "e" | _ => "f"
  end%char.

(** Value of a hexadecimal digit, in either case. *)
Definition digitValue (c : ascii) : option N :=
  let n := N_of_ascii c in
  if (48 <=? n) && (n <=? 57) then Some (n - 48)
  else if (97 <=? n) && (n <=? 102) then Some (n - 87)
  else if (65 <=? n) && (n <=? 70) then Some (n - 55)
  else None.

Fixpoint hexDigits (fuel : nat) (n : N) (acc : jsString) : jsString :=
  match fuel with
  | O => acc
  | S fuel' =>
      let acc' := hexDigit (n mod 16) :: acc in
      if n / 16 =? 0 then acc' else hexDigits fuel' (n / 16) acc'
  end.

(** [n.toString(16)] for a non-negative integer [n]: the digits without
    leading zeros, ["0"] for zero.  A number has at most [log2 n + 1] digits. *)
Definition toString16 (n : N) : jsString :=
  hexDigits (S (N.to_nat (N.log2 n))) n [].

(** [value.toString(16)] for a bigint. *)
Definition BigInt_toString16 (value : Z) : jsString :=
  if (value <? 0)%Z then "-"%char :: toString16 (Z.abs_N value)
  else toString16 (Z.to_N value).

Definition hexValue (hex : jsString) : option N :=
  foldl (fun acc c => a ← acc; d ← digitValue c; Some (16 * a + d)) (Some 0) hex.

(** [BigInt(`0x${hex}`)]: a syntax error unless [hex] is a non-empty run of
    hexadecimal digits. *)
Definition BigInt_0x (hex : jsString) : js Z :=
  match hex with
  | [] => Throw "SyntaxError"
  | _ => match hexValue hex with
         | Some n => Normal (Z.of_N n)
         | None => Throw "SyntaxError"
         end
  end.

(** [s.padStart(n, "0")] *)
Definition padStart0 (n : nat) (s : jsString) : jsString :=
  repeat "0"%char (n - length s) ++ s.

(** [s.slice(-n)] *)
Definition sliceLast (n : nat) (s : jsString) : jsString :=
  drop (length s - n) s.

Definition startsWith0x (s : jsString) : bool :=
  match s with
  | "0"%char :: "x"%char :: _ => true
  | _ => false
  end.

(** ** Typed arrays *)

(** [new Uint8Array(n)], zero filled *)
Definition Uint8Array_new (n : nat) : Uint8Array := repeat x00 n.

(** [target.set(source, offset)]: a range error if [source] does not fit. *)
Definition Uint8Array_set (target source : Uint8Array) (offset : nat)
  : js Uint8Array :=
  if decide (offset + length source <= length target)%nat
  then Normal (take offset target ++ source
                 ++ drop (offset + length source) target)
  else Throw "RangeError".

(** [a.slice(start, end)] for [0 <= start], [0 <= end] *)
Definition Uint8Array_slice (a : Uint8Array) (start end_ : nat) : Uint8Array :=
  take (end_ - start) (drop start a).

(** Storing a number in a [Uint8Array] keeps its low eight bits. *)
Definition toUint8 (n : N) : byte :=
  default x00 (Byte.of_N (n mod 256)).

(** [new DataView(a.buffer).setUint32(0, value, false)]: big-endian, [value]
    taken modulo [2^32]; a range error on fewer than four bytes. *)
Definition DataView_setUint32_0 (a : Uint8Array) (value : N) : js Uint8Array :=
  if decide (4 <= length a)%nat
  then Normal (toUint8 (value / 2 ^ 24) :: toUint8 (value / 2 ^ 16)
                 :: toUint8 (value / 2 ^ 8) :: toUint8 value :: drop 4 a)
  else Throw "RangeError".

(** [view.getUint32(0, false)] *)
Definition DataView_getUint32_0 (a : Uint8Array) : js N :=
  match a with
  | b0 :: b1 :: b2 :: b3 :: _ =>
      Normal (Byte.to_N b0 * 2 ^ 24 + Byte.to_N b1 * 2 ^ 16
              + Byte.to_N b2 * 2 ^ 8 + Byte.to_N b3)
  | _ => Throw "RangeError"
  end.

(** [Math.ceil(a / b)] on array lengths (exact: they are far below [2^53]). *)
Definition Math_ceil_div (a b : nat) : nat := ((a + (b - 1)) / b)%nat.

(** [ethers.getBytes] applied to a string.  The function belongs to the ethers
    library, which is not part of the repository; it is modelled by its
    documented behaviour.  The text must be [0x] followed by pairs of
    hexadecimal digits, in either case; each pair is one byte.  Anything else
    is rejected with an invalid-argument error. *)
Fixpoint hexPairs (hex : jsString) : option Uint8Array :=
  match hex with
  | [] => Some []
  | h :: l :: rest =>
      hi ← digitValue h;
      lo ← digitValue l;
      b ← Byte.of_N (16 * hi + lo);
      bs ← hexPairs rest;
      Some (b :: bs)
  | _ => None
  end.

Definition ethers_getBytes (value : jsString) : js Uint8Array :=
  match value with
  | "0"%char :: x :: hex =>
      if bool_decide (x = "x"%char \/ x = "X"%char)
      then match hexPairs hex with
           | Some bs => Normal bs
           | None => Throw "invalid BytesLike value"
           end
      else Throw "invalid BytesLike value"
  | _ => Throw "invalid BytesLike value"
  end.

(** ** The codec *)

Definition bytesToBigInt (bytes : Uint8Array) : js Z :=
  let hex :=
    foldl (fun hex byte => hex ++ padStart0 2 (toString16 (Byte.to_N byte)))
      [] bytes in
  BigInt_0x hex.

(** The body of [encodeMessageToChunks] after the text has been encoded. *)
Definition encodeBytesToChunks (messageBytes : Uint8Array) : js (list Z) :=
  let prefixed := Uint8Array_new (4 + length messageBytes) in
  prefixed ← DataView_setUint32_0 prefixed (N.of_nat (length messageBytes));
  prefixed ← Uint8Array_set prefixed messageBytes 4;
  let chunkCount := Math_ceil_div (length prefixed) BYTES_PER_CHUNK in
  mapM (fun i =>
      let chunk := Uint8Array_new BYTES_PER_CHUNK in
      let start := (i * BYTES_PER_CHUNK)%nat in
      let end_ := Nat.min (start + BYTES_PER_CHUNK) (length prefixed) in
      chunk ← (if decide (start < length prefixed)%nat
               then Uint8Array_set chunk (Uint8Array_slice prefixed start end_) 0
               else Normal chunk);
      bytesToBigInt chunk)
    (seq 0 chunkCount).

Definition encodeMessageToChunks `{Runtime} (message : jsString) : js (list Z) :=
  encodeBytesToChunks (TextEncoder_encode message).

Definition concatUint8Arrays (arrays : list Uint8Array) : js Uint8Array :=
  let totalLength := foldl (fun sum current => sum + length current)%nat 0%nat arrays in
  let merged := Uint8Array_new totalLength in
  '(merged, _) ← foldl (fun state array =>
      '(merged, offset) ← state;
      merged ← Uint8Array_set merged array offset;
      Normal (merged, (offset + length array)%nat))
    (Normal (merged, 0%nat)) arrays;
  Normal merged.

(** A decrypted value as the decryption capability returns it. *)
Inductive DecryptedValue : Type :=
| VString (s : jsString)
| VBigInt (z : Z)
| VBoolean (b : bool).

Definition valueToBytes32 (value : DecryptedValue) : js (option Uint8Array) :=
  match value with
  | VBoolean value =>
      let bytes := Uint8Array_new BYTES_PER_CHUNK in
      Normal (Some (<[(BYTES_PER_CHUNK - 1)%nat := if value then x01 else x00]> bytes))
  | VBigInt value =>
      let hex := BigInt_toString16 value in
      let hex := if negb (length hex mod 2 =? 0)%nat then "0"%char :: hex else hex in
      let hex := sliceLast (BYTES_PER_CHUNK * 2) hex in
      let hex := padStart0 (BYTES_PER_CHUNK * 2) hex in
      Some <$> ethers_getBytes (str "0x" ++ hex)
  | VString value =>
      let normalized := if startsWith0x value then value else str "0x" ++ value in
      bytes ← ethers_getBytes normalized;
      if decide (length bytes = BYTES_PER_CHUNK) then Normal (Some bytes)
      else if decide (BYTES_PER_CHUNK < length bytes)%nat
      then Normal (Some (Uint8Array_slice bytes (length bytes - BYTES_PER_CHUNK)
                           (length bytes)))
      else
        let padded := Uint8Array_new BYTES_PER_CHUNK in
        Some <$> Uint8Array_set padded bytes (BYTES_PER_CHUNK - length bytes)
  end.

(** The loop over the handles; [None] is the early [return undefined]. *)
Fixpoint collectChunks `{Runtime} (handles : list jsString)
    (results : gmap jsString DecryptedValue) (chunks : list Uint8Array)
  : js (option (list Uint8Array)) :=
  match handles with
  | [] => Normal (Some chunks)
  | handle :: handles' =>
      match results !! toLowerCase handle with
      | None => Normal None
      | Some result =>
          chunk ← valueToBytes32 result;
          match chunk with
          | None => Normal None
          | Some chunk => collectChunks handles' results (chunks ++ [chunk])
          end
      end
  end.

(** The body of [decodeMessageFromResults] up to the final text decoding;
    [None] stands for [undefined]. *)
Definition decodeBytesFromResults `{Runtime} (handles : list jsString)
    (results : gmap jsString DecryptedValue) : js (option Uint8Array) :=
  if decide (length handles = 0%nat) then Normal None else
  chunks ← collectChunks handles results [];
  match chunks with
  | None => Normal None
  | Some chunks =>
      merged ← concatUint8Arrays chunks;
      if decide (length merged < 4)%nat then Normal None else
      declaredLength ← DataView_getUint32_0 merged;
      let available := (length merged - 4)%nat in
      if decide (N.of_nat available < declaredLength) then Normal None else
      let messageBytes :=
        Uint8Array_slice merged 4 (4 + N.to_nat declaredLength) in
      Normal (Some messageBytes)
  end.

Definition decodeMessageFromResults `{Runtime} (handles : list jsString)
    (results : gmap jsString DecryptedValue) : js (option jsString) :=
  fmap (M := js) (fmap (M := option) TextDecoder_decode)
    (decodeBytesFromResults handles results).

(** An ASCII-only runtime, enough to run the examples. *)
Definition asciiLower (c : ascii) : ascii :=
  let n := N_of_ascii c in
  if (65 <=? n) && (n <=? 90) then ascii_of_N (n + 32) else c.

Definition asciiRuntime : Runtime := {|
  TextEncoder_encode s := map byte_of_ascii s;
  TextDecoder_decode b := map ascii_of_byte b;
  toLowerCase s := map asciiLower s
|}.

Definition helloFuture : jsString := str "Hello Future!".

(** ** Specification functions used in the proofs *)

(** The [k]-digit hexadecimal numeral of [n] (of [n mod 16^k]). *)
Fixpoint fixedHex (k : nat) (n : N) : jsString :=
  match k with
  | O => []
  | S k' => fixedHex k' (n / 16) ++ [hexDigit (n mod 16)]
  end.

Definition digitsValue (ds : list N) : N :=
  foldl (fun a d => 16 * a + d) 0 ds.

(** The two hexadecimal digits of each byte, most significant first. *)
Definition digitsOf (bytes : Uint8Array) : list N :=
  flat_map (fun b => [Byte.to_N b / 16; Byte.to_N b mod 16]) bytes.

(** [value] as four bytes, most significant first. *)
Definition bigEndian32 (value : N) : Uint8Array :=
  [toUint8 (value / 2 ^ 24); toUint8 (value / 2 ^ 16); toUint8 (value / 2 ^ 8);
   toUint8 value].

(** A block: at most [BYTES_PER_CHUNK] bytes followed by zero padding. *)
Definition padBlock (l : Uint8Array) : Uint8Array :=
  l ++ repeat x00 (BYTES_PER_CHUNK - length l).

Definition blockAt (prefixed : Uint8Array) (i : nat) : Uint8Array :=
  padBlock (take BYTES_PER_CHUNK (drop (i * BYTES_PER_CHUNK) prefixed)).

(** The chunks of a message: the blocks of the length-prefixed message, each
    read as a big-endian number. *)
Definition chunksOf (messageBytes : Uint8Array) : list Z :=
  let prefixed := bigEndian32 (N.of_nat (length messageBytes)) ++ messageBytes in
  map (fun i => Z.of_N (digitsValue (digitsOf (blockAt prefixed i))))
    (seq 0 (Math_ceil_div (length prefixed) BYTES_PER_CHUNK)).

(** ** The statistics of the hook *)

Record CapsuleStatistics : Type := mkStatistics {
  totalCapsules : Z;
  expiredCapsules : Z;
  activeCapsules : Z
}.

(** [loadStatistics], given the outcome of its two contract reads
    [getTotalCapsules()] and [getExpiredCapsulesCount()]; a failed read ends
    in the [catch] branch, which returns [undefined]. *)
Definition loadStatistics (totalCapsules expiredCapsules : result N)
  : option CapsuleStatistics :=
  match totalCapsules, expiredCapsules with
  | Ok totalCapsules, Ok expiredCapsules =>
      let total := Z.of_N totalCapsules in
      let expired := Z.of_N expiredCapsules in
      let activeCapsules :=
        if (expired <? total)%Z then (total - expired)%Z else 0%Z in
      Some (mkStatistics total expired activeCapsules)
  | _, _ => None
  end.

(** [n mod 256^k] as [k] bytes, most significant first. *)
Fixpoint bigEndianBytes (k : nat) (n : N) : Uint8Array :=
  match k with
  | O => []
  | S k' => bigEndianBytes k' (n / 256) ++ [toUint8 n]
  end.

(** What the decryption of an [ebool] or of a [euint256] can return. *)
Definition wellTyped (value : DecryptedValue) : Prop :=
  match value with
  | VBoolean _ => True
  | VBigInt z => (0 <= z < 2 ^ 256)%Z
  | VString _ => False
  end.

(** * Part III: supporting lemmas *)

(** ** Closed forms of the calls *)

Section ClosedForms.
Context `{fhe : FHEVM}.

Lemma capsuleAt_insert tc uc n a e capsuleId c :
  capsuleAt (mkState (<[capsuleId := c]> tc) uc n a e) capsuleId = c.
Proof. unfold capsuleAt; cbn. apply lookup_total_insert_eq. Qed.

Lemma capsuleAt_insert_ne tc uc n a e capsuleId capsuleId' c :
  capsuleId <> capsuleId' ->
  capsuleAt (mkState (<[capsuleId := c]> tc) uc n a e) capsuleId'
  = tc !!! capsuleId'.
Proof. intros. unfold capsuleAt; cbn. by apply lookup_total_insert_ne. Qed.

Ltac step_call :=
  unfold mbind, M_bind, mret, M_ret, read, require, updateCapsule, emit,
    FHE_allowThis, FHE_allow, lift, write;
  cbn [timeCapsules userCapsules nextCapsuleId acl events].

Ltac proj := cbn [timeCapsules userCapsules nextCapsuleId acl events negb].

Ltac storage :=
  repeat first [ rewrite capsuleAt_insert | rewrite insert_insert_eq ].

Lemma cancelTimeCapsule_eq msg capsuleId s :
  cancelTimeCapsule msg capsuleId s =
  let c := capsuleAt s capsuleId in
  if negb (creator c =? sender msg) then Err (Revert "Only creator can cancel")
  else if negb (isActive c) then Err (Revert "Capsule is not active")
  else if isUnlocked c then Err (Revert "Capsule is already unlocked")
  else Ok (tt, mkState (<[capsuleId := cancelledCapsule c]> (timeCapsules s))
                 (userCapsules s) (nextCapsuleId s) (acl s)
                 (events s ++ [CapsuleCancelled capsuleId (sender msg)])).
Proof.
  unfold cancelTimeCapsule. step_call.
  destruct (creator (capsuleAt s capsuleId) =? sender msg); cbn; [|done].
  destruct (isActive (capsuleAt s capsuleId)); cbn; [|done].
  destruct (isUnlocked (capsuleAt s capsuleId)); cbn; [done|].
  by storage.
Qed.

Lemma allow_each recipient (l : list handle) s :
  mapM (fun h => FHE_allow h recipient) l s =
  Ok (map (fun _ => tt) l,
      mkState (timeCapsules s) (userCapsules s) (nextCapsuleId s)
        (list_to_set (map (fun h => (h, recipient)) l) ∪ acl s) (events s)).
Proof.
  revert s. induction l as [|h l IH]; intros s; cbn.
  - step_call. do 2 f_equal. destruct s; cbn. f_equal. set_solver.
  - step_call. rewrite IH. cbn. do 3 f_equal. set_solver.
Qed.

Lemma _allowCapsuleTo_eq capsuleId recipient s :
  _allowCapsuleTo capsuleId recipient s =
  let c := capsuleAt s capsuleId in
  Ok (tt, mkState (timeCapsules s) (userCapsules s) (nextCapsuleId s)
            (grantsTo recipient c ∪ acl s)
            (events s ++ [grantedEvent capsuleId recipient c])).
Proof.
  unfold _allowCapsuleTo, mbind, M_bind, read, emit, write. cbn beta iota.
  unfold FHE_allow at 1 2 3 4. unfold write. proj.
  rewrite allow_each. proj.
  do 3 f_equal. unfold grantsTo, fieldHandles. cbn. set_solver.
Qed.

Lemma grantDecryptionAccess_eq msg capsuleId recipient s :
  grantDecryptionAccess msg capsuleId recipient s =
  let c := capsuleAt s capsuleId in
  if recipient =? 0 then Err (Revert "Invalid recipient")
  else if negb (isUnlocked c) then Err (Revert "Capsule not unlocked")
  else if negb (creator c =? sender msg)
       then Err (Revert "Only creator can share")
  else Ok (tt, mkState (timeCapsules s) (userCapsules s) (nextCapsuleId s)
                 (grantsTo recipient c ∪ acl s)
                 (events s ++ [grantedEvent capsuleId recipient c])).
Proof.
  unfold grantDecryptionAccess. step_call.
  destruct (recipient =? 0); cbn; [done|].
  destruct (isUnlocked (capsuleAt s capsuleId)); cbn; [|done].
  destruct (creator (capsuleAt s capsuleId) =? sender msg); cbn; [|done].
  apply _allowCapsuleTo_eq.
Qed.

Lemma _openCapsule_eq capsuleId requestor s :
  _openCapsule capsuleId requestor s =
  let c := openedCapsule (capsuleAt s capsuleId) in
  Ok (tt, mkState (<[capsuleId := c]> (timeCapsules s)) (userCapsules s)
            (nextCapsuleId s)
            ((if requestor =? creator c then ∅ else grantsTo requestor c)
             ∪ (grantsTo (creator c) c ∪ acl s))
            (events s ++ [grantedEvent capsuleId (creator c) c]
               ++ (if requestor =? creator c then []
                   else [grantedEvent capsuleId requestor c])
               ++ [CapsuleUnlocked capsuleId (creator c)])).
Proof.
  unfold _openCapsule. step_call. storage.
  fold (openedCapsule (capsuleAt s capsuleId)).
  rewrite _allowCapsuleTo_eq. proj. storage.
  destruct (requestor =? creator (openedCapsule (capsuleAt s capsuleId)));
    proj.
  - do 3 f_equal; [set_solver|]. by rewrite <- app_assoc.
  - rewrite _allowCapsuleTo_eq. proj. storage.
    do 3 f_equal. by rewrite <- !app_assoc.
Qed.

Lemma openTimeCapsule_eq msg capsuleId s :
  openTimeCapsule msg capsuleId s =
  let c := capsuleAt s capsuleId in
  if negb (isActive c) then Err (Revert "Capsule is not active")
  else if isUnlocked c then Err (Revert "Capsule is already unlocked")
  else if negb (unlockTime c <=? timestamp msg)
       then Err (Revert "Unlock time has not arrived")
  else _openCapsule capsuleId (sender msg) s.
Proof.
  unfold openTimeCapsule. step_call.
  destruct (isActive (capsuleAt s capsuleId)); cbn; [|done].
  destruct (isUnlocked (capsuleAt s capsuleId)); cbn; [done|].
  by destruct (unlockTime (capsuleAt s capsuleId) <=? timestamp msg).
Qed.

Lemma bind_eq {A B} (m : M A) (f : A -> M B) s :
  (m ≫= f) s = match m s with Ok (a, s') => f a s' | Err e => Err e end.
Proof. reflexivity. Qed.

Lemma index_lookup {A} (a : list A) (i : nat) x s :
  a !! i = Some x -> index a (N.of_nat i) s = Ok (x, s).
Proof. intros Hx. unfold index. by rewrite Nat2N.id, Hx. Qed.

Lemma set_encryptedMessage_app c l1 l2 :
  set_encryptedMessage (encryptedMessage (set_encryptedMessage l1 c) ++ l2)
    (set_encryptedMessage l1 c)
  = set_encryptedMessage (l1 ++ l2) c.
Proof. reflexivity. Qed.

Lemma FHE_fromExternal_run msg inputHandle inputProof s :
  FHE_fromExternal msg inputHandle inputProof s
  = if inputVerified inputHandle (sender msg) inputProof
    then Ok (fromExternal inputHandle inputProof, s)
    else Err ExternalRevert.
Proof. unfold FHE_fromExternal. by destruct (inputVerified _ _ _). Qed.

(** The chunk loop of [createTimeCapsule] never indexes out of range once the
    two arrays have equal length; it appends the admitted chunks in order, and
    aborts at the first chunk whose proof the library rejects. *)
Lemma createTimeCapsule_loop msg capsuleId (chunks : list handle)
    (proofs : list bytes) (count i : nat) c0 pre tc uc n a e :
  (i + count)%nat = length chunks ->
  length chunks = length proofs ->
  for_loop (N.of_nat i) count (fun i =>
      external ← index chunks i;
      proof ← index proofs i;
      chunk ← FHE_fromExternal msg external proof;
      FHE_allowThis chunk ;;
      updateCapsule capsuleId
        (fun c => set_encryptedMessage (encryptedMessage c ++ [chunk]) c))
    (mkState (<[capsuleId := set_encryptedMessage pre c0]> tc) uc n a e)
  = if forallb
         (fun '(external, proof) => inputVerified external (sender msg) proof)
         (zip (drop i chunks) (drop i proofs))
    then
      Ok (tt,
          mkState
            (<[capsuleId :=
                 set_encryptedMessage
                   (pre ++ zip_with fromExternal (drop i chunks) (drop i proofs))
                   c0]> tc)
            uc n
            (list_to_set
               (map (fun h => (h, this))
                  (zip_with fromExternal (drop i chunks) (drop i proofs))) ∪ a)
            e)
    else Err ExternalRevert.
Proof.
  revert i pre a. induction count as [|count IH]; intros i pre a Hi Hlen.
  - rewrite !drop_ge by lia. cbn. rewrite app_nil_r.
    unfold mret, M_ret. do 3 f_equal. set_solver.
  - destruct (lookup_lt_is_Some_2 chunks i) as [x Hx]; [lia|].
    destruct (lookup_lt_is_Some_2 proofs i) as [p Hp]; [lia|].
    cbn [for_loop].
    rewrite !bind_eq, (index_lookup _ _ _ _ Hx).
    rewrite bind_eq, (index_lookup _ _ _ _ Hp).
    rewrite bind_eq, FHE_fromExternal_run.
    rewrite (drop_S chunks x i Hx), (drop_S proofs p i Hp).
    cbn [zip_with forallb map].
    destruct (inputVerified x (sender msg) p); cbn [andb]; [|done].
    rewrite bind_eq. unfold FHE_allowThis, FHE_allow, updateCapsule, write.
    proj. storage. rewrite set_encryptedMessage_app.
    replace (N.of_nat i + 1) with (N.of_nat (S i)) by lia.
    rewrite IH by lia. destruct (forallb _ _); [|done].
    rewrite <- app_assoc. cbn [app]. do 3 f_equal. set_solver.
Qed.

Lemma postIncrementNextCapsuleId_eq s :
  postIncrementNextCapsuleId s =
  if nextCapsuleId s + 1 <=? MAX_UINT256
  then Ok (nextCapsuleId s,
           mkState (timeCapsules s) (userCapsules s) (nextCapsuleId s + 1)
             (acl s) (events s))
  else Err (Panic PANIC_ARITHMETIC).
Proof.
  unfold postIncrementNextCapsuleId, checked_add. step_call.
  by destruct (nextCapsuleId s + 1 <=? MAX_UINT256).
Qed.

Lemma createTimeCapsule_loop_all msg capsuleId (chunks : list handle)
    (proofs : list bytes) c tc uc n a e :
  length chunks = length proofs ->
  for_loop 0 (length chunks) (fun i =>
      external ← index chunks i;
      proof ← index proofs i;
      chunk ← FHE_fromExternal msg external proof;
      FHE_allowThis chunk ;;
      updateCapsule capsuleId
        (fun c => set_encryptedMessage (encryptedMessage c ++ [chunk]) c))
    (mkState (<[capsuleId := c]> tc) uc n a e)
  = if forallb
         (fun '(external, proof) => inputVerified external (sender msg) proof)
         (zip chunks proofs)
    then
      Ok (tt,
          mkState
            (<[capsuleId :=
                 set_encryptedMessage
                   (encryptedMessage c ++ zip_with fromExternal chunks proofs) c]>
               tc)
            uc n
            (list_to_set
               (map (fun h => (h, this)) (zip_with fromExternal chunks proofs))
             ∪ a)
            e)
    else Err ExternalRevert.
Proof.
  intros Hlen.
  assert (Hc : set_encryptedMessage (encryptedMessage c) c = c) by by destruct c.
  rewrite <- Hc at 1.
  exact (createTimeCapsule_loop msg capsuleId chunks proofs (length chunks)
           0%nat c (encryptedMessage c) tc uc n a e eq_refl Hlen).
Qed.

Lemma read_run {A} (f : State -> A) s : read f s = Ok (f s, s).
Proof. reflexivity. Qed.

Lemma updateCapsule_run capsuleId f s :
  updateCapsule capsuleId f s =
  Ok (tt, mkState (<[capsuleId := f (capsuleAt s capsuleId)]> (timeCapsules s))
            (userCapsules s) (nextCapsuleId s) (acl s) (events s)).
Proof. reflexivity. Qed.

Lemma FHE_allowThis_run h s :
  FHE_allowThis h s =
  Ok (tt, mkState (timeCapsules s) (userCapsules s) (nextCapsuleId s)
            ({[ (h, this) ]} ∪ acl s) (events s)).
Proof. reflexivity. Qed.

Ltac next_stmt :=
  rewrite bind_eq;
  first [ rewrite read_run | rewrite updateCapsule_run
        | rewrite FHE_allowThis_run ];
  cbn beta iota;
  cbn [timeCapsules userCapsules nextCapsuleId acl events];
  storage.

Lemma createTimeCapsule_eq msg chunks proofs unlockHandle unlockProof ut s :
  createTimeCapsule msg chunks proofs unlockHandle unlockProof ut s =
  let capsuleId := nextCapsuleId s in
  if negb (0 <? N.of_nat (length chunks))
  then Err (Revert "Encrypted message required")
  else if negb (N.of_nat (length chunks) =? N.of_nat (length proofs))
  then Err (Revert "Message proof mismatch")
  else if negb (timestamp msg <? ut)
  then Err (Revert "Unlock time must be in the future")
  else if negb (capsuleId + 1 <=? MAX_UINT256)
  then Err (Panic PANIC_ARITHMETIC)
  else if negb (inputsVerified msg chunks proofs unlockHandle unlockProof)
  then Err ExternalRevert
  else Ok (capsuleId,
           mkState
             (<[capsuleId :=
                  createdCapsule msg chunks proofs unlockHandle unlockProof ut
                    (capsuleAt s capsuleId)]> (timeCapsules s))
             (<[sender msg := userCapsulesAt s (sender msg) ++ [capsuleId]]>
                (userCapsules s))
             (capsuleId + 1)
             (creationGrants msg chunks proofs unlockHandle unlockProof ∪ acl s)
             (events s ++ [CapsuleCreated capsuleId (sender msg) ut])).
Proof.
  unfold createTimeCapsule. cbn zeta.
  unfold mbind at 1 2 3, M_bind, require.
  destruct (0 <? N.of_nat (length chunks)); cbn [negb]; [|done].
  destruct (N.of_nat (length chunks) =? N.of_nat (length proofs)) eqn:Hlen;
    cbn [negb]; [|done].
  destruct (timestamp msg <? ut); cbn [negb]; [|done].
  rewrite bind_eq, postIncrementNextCapsuleId_eq.
  destruct (nextCapsuleId s + 1 <=? MAX_UINT256); cbn [negb]; [|done].
  apply N.eqb_eq, Nat2N.inj in Hlen.
  do 5 next_stmt.
  rewrite bind_eq, FHE_fromExternal_run. unfold inputsVerified.
  destruct (inputVerified unlockHandle (sender msg) unlockProof);
    cbn [andb negb]; [|done].
  do 10 next_stmt.
  rewrite bind_eq, createTimeCapsule_loop_all by done.
  destruct (forallb _ _); cbn [negb]; [|done].
  rewrite bind_eq. unfold pushUserCapsule at 1, write at 1. proj.
  rewrite bind_eq. unfold emit at 1, write at 1. proj.
  unfold mret, M_ret. do 2 f_equal. f_equal.
  unfold creationGrants. cbn [map list_to_set encryptedCreator
      encryptedUnlockTime encryptedIsActive encryptedIsUnlocked
      set_encryptedIsUnlocked set_encryptedIsActive set_isUnlocked set_isActive
      set_encryptedUnlockTime set_unlockTime set_encryptedCreator set_creator].
  set_solver.
Qed.

End ClosedForms.

(** ** One transaction *)

Section Steps.
Context `{fhe : FHEVM}.

Lemma capsuleAt_None s capsuleId :
  timeCapsules s !! capsuleId = None -> capsuleAt s capsuleId = emptyCapsule.
Proof. intros Hn. unfold capsuleAt. by rewrite lookup_total_alt, Hn. Qed.

Lemma wf_assigned s capsuleId :
  wf s -> capsuleAt s capsuleId <> emptyCapsule ->
  1 <= capsuleId < nextCapsuleId s.
Proof.
  intros Hwf Hne.
  destruct (decide (capsuleId = 0 \/ nextCapsuleId s <= capsuleId)) as [Hu|Hu].
  - destruct Hne. by apply capsuleAt_None, wf_unassigned.
  - lia.
Qed.

Lemma wf_deployed : wf deployed.
Proof.
  split; cbn; done.
Qed.

Lemma dispatch_create msg chunks proofs unlockHandle unlockProof ut s :
  dispatch (mkTx msg (CreateTimeCapsule chunks proofs unlockHandle unlockProof ut)) s
  = match createTimeCapsule msg chunks proofs unlockHandle unlockProof ut s with
    | Ok (capsuleId, s') => Ok (Some capsuleId, s')
    | Err e => Err e
    end.
Proof. reflexivity. Qed.

Lemma dispatch_cancel msg capsuleId s :
  dispatch (mkTx msg (CancelTimeCapsule capsuleId)) s
  = match cancelTimeCapsule msg capsuleId s with
    | Ok (_, s') => Ok (None, s')
    | Err e => Err e
    end.
Proof. reflexivity. Qed.

Lemma dispatch_open msg capsuleId s :
  dispatch (mkTx msg (OpenTimeCapsule capsuleId)) s
  = match openTimeCapsule msg capsuleId s with
    | Ok (_, s') => Ok (None, s')
    | Err e => Err e
    end.
Proof. reflexivity. Qed.

Lemma dispatch_grant msg capsuleId recipient s :
  dispatch (mkTx msg (GrantDecryptionAccess capsuleId recipient)) s
  = match grantDecryptionAccess msg capsuleId recipient s with
    | Ok (_, s') => Ok (None, s')
    | Err e => Err e
    end.
Proof. reflexivity. Qed.

Lemma tx_effect_reverted tx s e : dispatch tx s = Err e -> tx_effect tx s.
Proof.
  intros He. split; unfold assignedBy, transact; rewrite He.
  - done.
  - intros capsuleId. naive_solver.
  - intros capsuleId. constructor.
Qed.

Lemma active_written s capsuleId :
  isActive (capsuleAt s capsuleId) = true ->
  timeCapsules s !! capsuleId <> None.
Proof. intros Ha Hn. by rewrite (capsuleAt_None _ _ Hn) in Ha. Qed.

Lemma tx_effect_holds tx s : wf s -> tx_effect tx s.
Proof.
  intros Hwf. destruct tx as [msg [chunks proofs uh up ut|capsuleId|capsuleId
                                  |capsuleId recipient]].
  - destruct (dispatch (mkTx msg (CreateTimeCapsule chunks proofs uh up ut)) s)
      as [[r s']|e] eqn:Hd; [|by eapply tx_effect_reverted].
    rewrite dispatch_create, createTimeCapsule_eq in Hd. cbn zeta in Hd.
    destruct (0 <? N.of_nat (length chunks)) eqn:H1; cbn [negb] in Hd; [|done].
    destruct (N.of_nat (length chunks) =? N.of_nat (length proofs)) eqn:H2;
      cbn [negb] in Hd; [|done].
    destruct (timestamp msg <? ut) eqn:H3; cbn [negb] in Hd; [|done].
    destruct (nextCapsuleId s + 1 <=? MAX_UINT256) eqn:H4;
      cbn [negb] in Hd; [|done].
    destruct (inputsVerified msg chunks proofs uh up) eqn:H5;
      cbn [negb] in Hd; [|done].
    injection Hd as <- <-.
    split; unfold assignedBy, transact;
      rewrite dispatch_create, createTimeCapsule_eq; cbn zeta;
      rewrite H1, H2, H3, H4, H5; cbn [negb].
    + cbn. split_and!; [done..|]. by apply N.leb_le.
    + intros capsuleId. cbn. rewrite lookup_insert_None. naive_solver.
    + intros capsuleId.
      destruct (decide (nextCapsuleId s = capsuleId)) as [<-|Hne].
      * assert (timeCapsules s !! nextCapsuleId s = None) as Hfresh.
        { apply wf_unassigned; [done|]. right. lia. }
        rewrite capsuleAt_insert, (capsuleAt_None s (nextCapsuleId s) Hfresh).
        constructor. intros Hw. by apply Hw.
      * rewrite capsuleAt_insert_ne by done. constructor.
  - destruct (dispatch (mkTx msg (CancelTimeCapsule capsuleId)) s)
      as [[r s']|e] eqn:Hd; [|by eapply tx_effect_reverted].
    rewrite dispatch_cancel, cancelTimeCapsule_eq in Hd. cbn zeta in Hd.
    destruct (creator (capsuleAt s capsuleId) =? sender msg) eqn:Hc;
      cbn [negb] in Hd; [|done].
    destruct (isActive (capsuleAt s capsuleId)) eqn:Ha; cbn [negb] in Hd; [|done].
    destruct (isUnlocked (capsuleAt s capsuleId)) eqn:Hu; [done|].
    injection Hd as <- <-.
    split; unfold assignedBy, transact;
      rewrite dispatch_cancel, cancelTimeCapsule_eq; cbn zeta;
      rewrite Hc, Ha, Hu; cbn [negb].
    + done.
    + intros capsuleId'. cbn. rewrite lookup_insert_None.
      pose proof (active_written _ _ Ha). naive_solver.
    + intros capsuleId'.
      destruct (decide (capsuleId = capsuleId')) as [<-|Hne].
      * rewrite capsuleAt_insert. by constructor.
      * rewrite capsuleAt_insert_ne by done. constructor.
  - destruct (dispatch (mkTx msg (OpenTimeCapsule capsuleId)) s)
      as [[r s']|e] eqn:Hd; [|by eapply tx_effect_reverted].
    rewrite dispatch_open, openTimeCapsule_eq in Hd. cbn zeta in Hd.
    destruct (isActive (capsuleAt s capsuleId)) eqn:Ha; cbn [negb] in Hd; [|done].
    destruct (isUnlocked (capsuleAt s capsuleId)) eqn:Hu; [done|].
    destruct (unlockTime (capsuleAt s capsuleId) <=? timestamp msg) eqn:Ht;
      cbn [negb] in Hd; [|done].
    rewrite _openCapsule_eq in Hd. cbn zeta in Hd. injection Hd as <- <-.
    split; unfold assignedBy, transact;
      rewrite dispatch_open, openTimeCapsule_eq; cbn zeta;
      rewrite Ha, Hu, Ht; cbn [negb]; rewrite _openCapsule_eq; cbn zeta.
    + done.
    + intros capsuleId'. cbn. rewrite lookup_insert_None.
      pose proof (active_written _ _ Ha). naive_solver.
    + intros capsuleId'.
      destruct (decide (capsuleId = capsuleId')) as [<-|Hne].
      * rewrite capsuleAt_insert. by constructor.
      * rewrite capsuleAt_insert_ne by done. constructor.
  - destruct (dispatch (mkTx msg (GrantDecryptionAccess capsuleId recipient)) s)
      as [[r s']|e] eqn:Hd; [|by eapply tx_effect_reverted].
    rewrite dispatch_grant, grantDecryptionAccess_eq in Hd. cbn zeta in Hd.
    destruct (recipient =? 0) eqn:Hr; [done|].
    destruct (isUnlocked (capsuleAt s capsuleId)) eqn:Hu; cbn [negb] in Hd; [|done].
    destruct (creator (capsuleAt s capsuleId) =? sender msg) eqn:Hc;
      cbn [negb] in Hd; [|done].
    injection Hd as <- <-.
    split; unfold assignedBy, transact;
      rewrite dispatch_grant, grantDecryptionAccess_eq; cbn zeta;
      rewrite Hr, Hu, Hc; cbn [negb].
    + done.
    + intros capsuleId'. cbn. naive_solver.
    + intros capsuleId'. constructor.
Qed.

End Steps.

(** ** Invariants along traces *)

Section Traces.
Context `{fhe : FHEVM}.

Lemma capsule_step_flags W c c' :
  capsule_step W c c' ->
  isActive c && isUnlocked c = false ->
  isActive c' && isUnlocked c' = false.
Proof. by destruct 1. Qed.

Lemma capsule_step_unlocked W c c' :
  capsule_step W c c' -> isUnlocked c = true -> isUnlocked c' = true.
Proof. destruct 1; cbn; congruence. Qed.

Lemma capsule_step_inactive (W : Prop) c c' :
  capsule_step W c c' -> W -> isActive c = false -> isActive c' = false.
Proof. destruct 1; cbn; try done; congruence. Qed.

Lemma capsule_step_content (W : Prop) c c' :
  capsule_step W c c' -> W -> same_content c c'.
Proof. by destruct 1. Qed.

Lemma written_transact tx s capsuleId :
  wf s -> timeCapsules s !! capsuleId <> None ->
  timeCapsules (transact tx s) !! capsuleId <> None.
Proof.
  intros Hwf Hw Hn.
  by apply (eff_slots tx s (tx_effect_holds tx s Hwf)) in Hn as [? _].
Qed.

Lemma wf_transact tx s : wf s -> wf (transact tx s).
Proof.
  intros Hwf. destruct (tx_effect_holds tx s Hwf) as [Hnext Hslots Hcaps].
  destruct Hwf as [Hpos Hmax Hun Hfl].
  split.
  - destruct (assignedBy tx s); lia.
  - destruct (assignedBy tx s); lia.
  - intros capsuleId Hid. apply Hslots. split.
    + apply Hun. destruct (assignedBy tx s); lia.
    + destruct (assignedBy tx s) as [capsuleId'|]; [|done].
      intros [= ->]. lia.
  - intros capsuleId. eapply capsule_step_flags; [apply Hcaps | apply Hfl].
Qed.

Lemma wf_run trace s : wf s -> wf (run trace s).
Proof.
  revert s. induction trace as [|tx trace IH]; intros s Hwf; cbn; [done|].
  by apply IH, wf_transact.
Qed.

Lemma run_app trace1 trace2 s :
  run (trace1 ++ trace2) s = run trace2 (run trace1 s).
Proof. revert s. induction trace1 as [|tx trace1 IH]; intros s; cbn; auto. Qed.

Lemma assigned_app trace1 trace2 s :
  assigned (trace1 ++ trace2) s
  = assigned trace1 s ++ assigned trace2 (run trace1 s).
Proof.
  revert s. induction trace1 as [|tx trace1 IH]; intros s; cbn; [done|].
  rewrite IH. by destruct (assignedBy tx s).
Qed.

Lemma run_unlocked trace s capsuleId :
  wf s -> isUnlocked (capsuleAt s capsuleId) = true ->
  isUnlocked (capsuleAt (run trace s) capsuleId) = true.
Proof.
  revert s. induction trace as [|tx trace IH]; intros s Hwf Hu; cbn; [done|].
  apply IH; [by apply wf_transact|].
  eapply capsule_step_unlocked; [|exact Hu].
  by apply tx_effect_holds.
Qed.

Lemma run_inactive trace s capsuleId :
  wf s -> timeCapsules s !! capsuleId <> None ->
  isActive (capsuleAt s capsuleId) = false ->
  isActive (capsuleAt (run trace s) capsuleId) = false.
Proof.
  revert s. induction trace as [|tx trace IH]; intros s Hwf Hw Ha; cbn; [done|].
  apply IH; [by apply wf_transact|by apply written_transact|].
  eapply capsule_step_inactive; [|exact Hw|exact Ha].
  by apply tx_effect_holds.
Qed.

Lemma run_content trace s capsuleId :
  wf s -> timeCapsules s !! capsuleId <> None ->
  same_content (capsuleAt s capsuleId) (capsuleAt (run trace s) capsuleId).
Proof.
  revert s. induction trace as [|tx trace IH]; intros s Hwf Hw; cbn; [done|].
  pose proof (eff_capsule tx s (tx_effect_holds tx s Hwf) capsuleId) as Hstep.
  pose proof (capsule_step_content _ _ _ Hstep Hw) as (H1 & H2 & H3 & H4 & H5).
  destruct (IH _ (wf_transact tx s Hwf) (written_transact tx s _ Hwf Hw))
    as (I1 & I2 & I3 & I4 & I5).
  repeat split; congruence.
Qed.

(** The ids handed out along a trace are consecutive, starting at the counter
    of the state the trace starts in. *)
Lemma written_run trace s capsuleId :
  wf s -> timeCapsules s !! capsuleId <> None ->
  timeCapsules (run trace s) !! capsuleId <> None.
Proof.
  revert s. induction trace as [|tx trace IH]; intros s Hwf Hw; cbn; [done|].
  apply IH; [by apply wf_transact|by apply written_transact].
Qed.

Lemma assigned_written trace s capsuleId :
  wf s -> capsuleId ∈ assigned trace s ->
  timeCapsules (run trace s) !! capsuleId <> None.
Proof.
  revert s. induction trace as [|tx trace IH]; intros s Hwf Hin; cbn in *.
  { by apply elem_of_nil in Hin. }
  pose proof (wf_transact tx s Hwf) as Hwf'.
  destruct (assignedBy tx s) as [capsuleId'|] eqn:Htx; [|by apply IH].
  apply elem_of_cons in Hin as [->|Hin]; [|by apply IH].
  apply written_run; [done|]. intros Hn.
  apply (eff_slots tx s (tx_effect_holds tx s Hwf)) in Hn as [_ Hn].
  by rewrite Htx in Hn.
Qed.

Lemma assigned_consecutive trace s :
  wf s ->
  assigned trace s
  = map (fun k => nextCapsuleId s + N.of_nat k)
      (seq 0 (length (assigned trace s)))
  /\ nextCapsuleId (run trace s)
     = nextCapsuleId s + N.of_nat (length (assigned trace s)).
Proof.
  revert s. induction trace as [|tx trace IH]; intros s Hwf; cbn.
  - split; [done|lia].
  - destruct (IH _ (wf_transact tx s Hwf)) as [IHa IHn].
    pose proof (eff_next tx s (tx_effect_holds tx s Hwf)) as Hnext.
    destruct (assignedBy tx s) as [capsuleId|].
    + destruct Hnext as (-> & Hn & _). cbn [length seq map]. split.
      * f_equal; [lia|]. rewrite IHa at 1. rewrite <- seq_shift, map_map.
        apply map_ext. intros k. lia.
      * lia.
    + rewrite Hnext in *. done.
Qed.

End Traces.

Lemma assigned_bounds `{FHEVM} trace s capsuleId :
  wf s -> capsuleId ∈ assigned trace s ->
  nextCapsuleId s <= capsuleId < nextCapsuleId (run trace s).
Proof.
  intros Hwf Hin. destruct (assigned_consecutive trace s Hwf) as [Ha Hn].
  rewrite Ha in Hin. apply list_elem_of_fmap in Hin as (k & -> & Hk).
  apply list_elem_of_In, in_seq in Hk. lia.
Qed.

Lemma assigned_from_deployment `{FHEVM} trace :
  assigned trace deployed
  = map N.of_nat (seq 1 (length (assigned trace deployed)))
  /\ nextCapsuleId (run trace deployed)
     = N.of_nat (length (assigned trace deployed)) + 1.
Proof.
  destruct (assigned_consecutive trace deployed wf_deployed) as [Hids Hnext].
  cbn [nextCapsuleId deployed] in Hids, Hnext. split; [|lia].
  rewrite Hids at 1. rewrite <- seq_shift, map_map.
  apply map_ext. intros k. lia.
Qed.

Lemma assigned_fresh `{FHEVM} trace :
  let s := run trace deployed in
  timeCapsules s !! nextCapsuleId s = None
  /\ nextCapsuleId s ∉ assigned trace deployed.
Proof.
  cbn zeta. pose proof (wf_run trace deployed wf_deployed) as Hwf. split.
  - apply wf_unassigned; [done|]. right. lia.
  - intros Hin. apply assigned_bounds in Hin; [lia|apply wf_deployed].
Qed.

(** ** Hexadecimal text *)

Section HexText.

Lemma digitValue_hexDigit d : d < 16 -> digitValue (hexDigit d) = Some d.
Proof.
  intros Hd.
  assert (d = 0 \/ d = 1 \/ d = 2 \/ d = 3 \/ d = 4 \/ d = 5 \/ d = 6 \/ d = 7
          \/ d = 8 \/ d = 9 \/ d = 10 \/ d = 11 \/ d = 12 \/ d = 13 \/ d = 14
          \/ d = 15) as Hcases by lia.
  repeat (destruct Hcases as [->|Hcases]; [reflexivity|]). by subst.
Qed.

Lemma hexValue_snoc hex c :
  hexValue (hex ++ [c])
  = (a ← hexValue hex; d ← digitValue c; Some (16 * a + d)).
Proof. unfold hexValue. by rewrite foldl_snoc. Qed.

Lemma digitsValue_snoc ds d : digitsValue (ds ++ [d]) = 16 * digitsValue ds + d.
Proof. unfold digitsValue. by rewrite foldl_snoc. Qed.

Lemma hexValue_digits ds :
  Forall (fun d => d < 16) ds ->
  hexValue (map hexDigit ds) = Some (digitsValue ds).
Proof.
  induction ds as [|d ds IH] using rev_ind; intros Hds; [done|].
  apply Forall_app in Hds as [Hds Hd]. rewrite Forall_singleton in Hd.
  rewrite map_app. cbn [map]. rewrite hexValue_snoc, IH by done.
  rewrite digitValue_hexDigit by done. cbn [mbind option_bind].
  by rewrite digitsValue_snoc.
Qed.

Lemma digitsValue_bound ds :
  Forall (fun d => d < 16) ds -> digitsValue ds < 16 ^ N.of_nat (length ds).
Proof.
  induction ds as [|d ds IH] using rev_ind; intros Hds; [done|].
  apply Forall_app in Hds as [Hds Hd]. rewrite Forall_singleton in Hd.
  rewrite digitsValue_snoc, length_app. cbn [length].
  replace (N.of_nat (length ds + 1)) with (N.succ (N.of_nat (length ds))) by lia.
  rewrite N.pow_succ_r'. specialize (IH Hds). lia.
Qed.

Lemma fixedHex_digits ds :
  Forall (fun d => d < 16) ds ->
  fixedHex (length ds) (digitsValue ds) = map hexDigit ds.
Proof.
  induction ds as [|d ds IH] using rev_ind; intros Hds; [done|].
  apply Forall_app in Hds as [Hds Hd]. rewrite Forall_singleton in Hd.
  rewrite digitsValue_snoc, length_app, map_app. cbn [length map].
  replace (length ds + 1)%nat with (S (length ds)) by lia. cbn [fixedHex].
  replace ((16 * digitsValue ds + d) / 16) with (digitsValue ds).
  2:{ apply N.div_unique with d; lia. }
  replace ((16 * digitsValue ds + d) mod 16) with d.
  2:{ apply N.mod_unique with (digitsValue ds); lia. }
  by rewrite IH.
Qed.

Lemma fixedHex_zero k : fixedHex k 0 = repeat "0"%char k.
Proof.
  induction k as [|k IH]; [done|]. cbn [fixedHex].
  change (0 / 16) with 0. change (0 mod 16) with 0. rewrite IH.
  change [hexDigit 0] with (repeat "0"%char 1). rewrite <- repeat_app.
  f_equal. lia.
Qed.

Lemma fixedHex_length k n : length (fixedHex k n) = k.
Proof.
  revert n. induction k as [|k IH]; intros n; [done|].
  cbn [fixedHex]. rewrite length_app, IH. cbn. lia.
Qed.

(** With enough fuel [hexDigits] yields the digits of [n] without leading
    zeros: padding them to any sufficient width gives the fixed-width
    numeral. *)
Lemma hexDigits_fixed fuel : forall n acc k,
  (0 < fuel)%nat -> n < 16 ^ N.of_nat fuel ->
  n < 16 ^ N.of_nat k -> (0 < k)%nat ->
  exists digits,
    hexDigits fuel n acc = digits ++ acc
    /\ (0 < length digits <= k)%nat
    /\ repeat "0"%char (k - length digits) ++ digits = fixedHex k n.
Proof.
  induction fuel as [|fuel IH]; intros n acc k Hf Hfuel Hk Hpos; [lia|].
  destruct k as [|k]; [lia|]. cbn [hexDigits fixedHex].
  replace (N.of_nat (S fuel)) with (N.succ (N.of_nat fuel)) in Hfuel by lia.
  replace (N.of_nat (S k)) with (N.succ (N.of_nat k)) in Hk by lia.
  rewrite N.pow_succ_r' in Hfuel, Hk.
  destruct (n / 16 =? 0) eqn:Hq.
  - apply N.eqb_eq in Hq. rewrite Hq, fixedHex_zero.
    exists [hexDigit (n mod 16)]. cbn [length]. split_and!; [done|lia|lia|].
    by replace (S k - 1)%nat with k by lia.
  - apply N.eqb_neq in Hq.
    assert (n / 16 < 16 ^ N.of_nat fuel) as Hfuel'
      by (apply N.Div0.div_lt_upper_bound; lia).
    assert (n / 16 < 16 ^ N.of_nat k) as Hk'
      by (apply N.Div0.div_lt_upper_bound; lia).
    assert (0 < k)%nat as Hpos'.
    { destruct k; [|lia]. change (16 ^ N.of_nat 0) with 1 in Hk'.
      by apply N.lt_1_r in Hk'. }
    assert (0 < fuel)%nat as Hf'.
    { destruct fuel; [|lia]. change (16 ^ N.of_nat 0) with 1 in Hfuel'.
      by apply N.lt_1_r in Hfuel'. }
    destruct (IH (n / 16) (hexDigit (n mod 16) :: acc) k Hf' Hfuel' Hk' Hpos')
      as (digits & Hrun & Hlen & Hfix).
    exists (digits ++ [hexDigit (n mod 16)]).
    rewrite Hrun, length_app. cbn [length]. split_and!.
    + by rewrite <- app_assoc.
    + lia.
    + lia.
    + replace (S k - (length digits + 1))%nat with (k - length digits)%nat
        by lia.
      by rewrite app_assoc, Hfix.
Qed.

Lemma toString16_fuel n : n < 16 ^ N.of_nat (S (N.to_nat (N.log2 n))).
Proof.
  destruct (decide (n = 0)) as [->|Hn]; [done|].
  pose proof (N.log2_spec n ltac:(lia)) as [_ Hlog].
  eapply N.lt_le_trans; [exact Hlog|].
  replace (N.of_nat (S (N.to_nat (N.log2 n)))) with (N.succ (N.log2 n)) by lia.
  apply N.pow_le_mono_l. lia.
Qed.

Lemma toString16_fixed k n :
  (0 < k)%nat -> n < 16 ^ N.of_nat k ->
  (0 < length (toString16 n) <= k)%nat
  /\ padStart0 k (toString16 n) = fixedHex k n.
Proof.
  intros Hpos Hk. unfold toString16, padStart0.
  destruct (hexDigits_fixed (S (N.to_nat (N.log2 n))) n [] k ltac:(lia)
              (toString16_fuel n) Hk Hpos)
    as (digits & Hrun & Hlen & Hfix).
  by rewrite Hrun, app_nil_r.
Qed.

Lemma byte_digits b :
  Byte.to_N b / 16 < 16 /\ Byte.to_N b mod 16 < 16.
Proof.
  pose proof (Byte.to_N_bounded b). split.
  - apply N.Div0.div_lt_upper_bound. lia.
  - by apply N.mod_lt.
Qed.

Lemma byte_toString16 b :
  padStart0 2 (toString16 (Byte.to_N b))
  = [hexDigit (Byte.to_N b / 16); hexDigit (Byte.to_N b mod 16)].
Proof.
  pose proof (Byte.to_N_bounded b). destruct (byte_digits b) as [Hhi _].
  destruct (toString16_fixed 2 (Byte.to_N b)) as [_ ->]; [lia|cbn; lia|].
  cbn [fixedHex app]. by rewrite (N.mod_small _ _ Hhi).
Qed.

Lemma digitsOf_digits bytes : Forall (fun d => d < 16) (digitsOf bytes).
Proof.
  induction bytes as [|b bytes IH]; [constructor|].
  destruct (byte_digits b). cbn. by repeat constructor.
Qed.

Lemma digitsOf_length bytes :
  length (digitsOf bytes) = (2 * length bytes)%nat.
Proof.
  unfold digitsOf. induction bytes as [|b bytes IH]; cbn [flat_map]; [done|].
  rewrite length_app, IH. cbn [length]. lia.
Qed.

Lemma bytes_hex_text bytes acc :
  foldl (fun hex byte => hex ++ padStart0 2 (toString16 (Byte.to_N byte)))
    acc bytes
  = acc ++ map hexDigit (digitsOf bytes).
Proof.
  revert acc. induction bytes as [|b bytes IH]; intros acc; cbn [foldl].
  - by rewrite app_nil_r.
  - rewrite IH, byte_toString16, <- app_assoc. done.
Qed.

Lemma bytesToBigInt_value bytes :
  bytes <> [] ->
  bytesToBigInt bytes = Normal (Z.of_N (digitsValue (digitsOf bytes))).
Proof.
  intros Hne. unfold bytesToBigInt. rewrite bytes_hex_text. cbn [app].
  unfold BigInt_0x. rewrite hexValue_digits by apply digitsOf_digits.
  destruct bytes; [done|]. done.
Qed.

Lemma hexPairs_bytes bytes :
  hexPairs (map hexDigit (digitsOf bytes)) = Some bytes.
Proof.
  induction bytes as [|b bytes IH]; [done|].
  destruct (byte_digits b) as [Hhi Hlo]. cbn [digitsOf flat_map app map hexPairs].
  rewrite !digitValue_hexDigit by done. cbn [mbind option_bind].
  rewrite <- N.div_mod' , Byte.of_to_N. cbn [mbind option_bind].
  fold (digitsOf bytes). by rewrite IH.
Qed.

(** What [valueToBytes32] makes of a bigint below [2^256]: its 32-byte
    big-endian image. *)
Lemma valueToBytes32_chunk chunk :
  length chunk = BYTES_PER_CHUNK ->
  valueToBytes32 (VBigInt (Z.of_N (digitsValue (digitsOf chunk))))
  = Normal (Some chunk).
Proof.
  intros Hlen. pose proof (digitsOf_digits chunk) as Hds.
  pose proof (digitsValue_bound _ Hds) as Hbound.
  pose proof (fixedHex_digits _ Hds) as Hfix.
  rewrite digitsOf_length, Hlen in Hbound, Hfix.
  set (v := digitsValue (digitsOf chunk)) in *.
  destruct (toString16_fixed (2 * BYTES_PER_CHUNK) v) as [Hl Hpad];
    [unfold BYTES_PER_CHUNK; lia|done|].
  unfold valueToBytes32, BigInt_toString16.
  replace (Z.of_N v <? 0)%Z with false by (symmetry; apply Z.ltb_ge; lia).
  rewrite N2Z.id. cbn zeta.
  set (t := toString16 v) in *.
  replace (BYTES_PER_CHUNK * 2)%nat with (2 * BYTES_PER_CHUNK)%nat by done.
  assert (padStart0 (2 * BYTES_PER_CHUNK)
            (sliceLast (2 * BYTES_PER_CHUNK)
               (if negb (length t mod 2 =? 0)%nat then "0"%char :: t else t))
          = map hexDigit (digitsOf chunk)) as ->.
  { rewrite <- Hfix, <- Hpad. unfold padStart0, sliceLast, BYTES_PER_CHUNK in *.
    destruct (length t mod 2 =? 0)%nat eqn:Hparity; cbn [negb].
    - replace (length t - 2 * 32)%nat with 0%nat by lia. done.
    - apply Nat.eqb_neq in Hparity. cbn [length].
      assert (length t <> 64)%nat by (intros Heq; rewrite Heq in Hparity; done).
      replace (S (length t) - 2 * 32)%nat with 0%nat by lia. cbn [drop length].
      replace (2 * 32 - length t)%nat with (S (2 * 32 - S (length t))) by lia.
      cbn [repeat]. by rewrite repeat_cons, <- app_assoc. }
  unfold ethers_getBytes. cbn [str list_ascii_of_string app].
  rewrite bool_decide_eq_true_2 by by left.
  by rewrite hexPairs_bytes.
Qed.

End HexText.

(** ** Blocks *)

Section Blocks.

Lemma mapM_Normal {A B} (f : A -> js B) (g : A -> B) (l : list A) :
  (forall x, x ∈ l -> f x = Normal (g x)) ->
  mapM f l = Normal (map g l).
Proof.
  induction l as [|x l IH]; intros Hf; [done|].
  cbn [mapM map]. rewrite Hf by left. cbn.
  rewrite IH; [done|]. intros y Hy. apply Hf. by right.
Qed.

Lemma drop_repeat {A} (x : A) n m : drop n (repeat x m) = repeat x (m - n).
Proof. revert n. induction m as [|m IH]; intros [|n]; cbn; auto. Qed.

Lemma Uint8Array_set_fits target source offset :
  (offset + length source <= length target)%nat ->
  Uint8Array_set target source offset
  = Normal (take offset target ++ source
              ++ drop (offset + length source) target).
Proof. intros Hfit. unfold Uint8Array_set. by rewrite decide_True. Qed.

Lemma toUint8_value n : Byte.to_N (toUint8 n) = n mod 256.
Proof.
  unfold toUint8.
  destruct (Byte.of_N (n mod 256)) as [b|] eqn:Hb.
  - by apply Byte.to_of_N in Hb.
  - apply Byte.of_N_None_iff in Hb.
    pose proof (N.mod_lt n 256). lia.
Qed.

Lemma prefix_written (messageBytes : Uint8Array) :
  (prefixed ← DataView_setUint32_0 (Uint8Array_new (4 + length messageBytes))
                (N.of_nat (length messageBytes));
   Uint8Array_set prefixed messageBytes 4)
  = Normal (bigEndian32 (N.of_nat (length messageBytes)) ++ messageBytes).
Proof.
  unfold DataView_setUint32_0, Uint8Array_new.
  change (repeat x00 (4 + length messageBytes))
    with (x00 :: x00 :: x00 :: x00 :: repeat x00 (length messageBytes)).
  cbn [length]. rewrite decide_True by lia.
  cbn [drop mbind js_bind]. unfold Uint8Array_set.
  rewrite drop_0. cbn [length]. rewrite repeat_length, decide_True by lia.
  cbn [take drop Nat.add app].
  rewrite drop_ge by (rewrite repeat_length; lia). by rewrite app_nil_r.
Qed.

Lemma ceil_div_succ a :
  (0 < a)%nat ->
  Math_ceil_div a BYTES_PER_CHUNK
  = S (Math_ceil_div (a - BYTES_PER_CHUNK) BYTES_PER_CHUNK).
Proof.
  intros Ha. unfold Math_ceil_div, BYTES_PER_CHUNK.
  destruct (decide (a < 32)%nat) as [Hlt|Hge].
  - replace (a - 32)%nat with 0%nat by lia.
    replace ((0 + (32 - 1)) / 32)%nat with 0%nat by done.
    symmetry. apply Nat.div_unique with (a - 1)%nat; lia.
  - replace (a + (32 - 1))%nat with ((a - 32 + (32 - 1)) + 1 * 32)%nat by lia.
    rewrite Nat.div_add by lia. lia.
Qed.

Lemma ceil_div_bound a :
  (a <= Math_ceil_div a BYTES_PER_CHUNK * BYTES_PER_CHUNK)%nat.
Proof.
  unfold Math_ceil_div, BYTES_PER_CHUNK.
  pose proof (Nat.div_mod_eq (a + (32 - 1)) 32).
  pose proof (Nat.mod_upper_bound (a + (32 - 1)) 32). lia.
Qed.

Lemma blockAt_length prefixed i : length (blockAt prefixed i) = BYTES_PER_CHUNK.
Proof.
  unfold blockAt, padBlock. rewrite length_app, repeat_length.
  pose proof (length_take_le (drop (i * BYTES_PER_CHUNK) prefixed)
                BYTES_PER_CHUNK).
  rewrite length_take. lia.
Qed.

Lemma blockAt_succ prefixed i :
  blockAt prefixed (S i) = blockAt (drop BYTES_PER_CHUNK prefixed) i.
Proof.
  unfold blockAt. rewrite drop_drop. do 3 f_equal.
Qed.

(** The blocks, laid end to end, are the prefixed message followed by the zero
    padding of the last block. *)
Lemma blocks_concat k : forall prefixed,
  Math_ceil_div (length prefixed) BYTES_PER_CHUNK = k ->
  concat (map (blockAt prefixed) (seq 0 k))
  = prefixed ++ repeat x00 (k * BYTES_PER_CHUNK - length prefixed).
Proof.
  induction k as [|k IH]; intros prefixed Hk.
  - destruct prefixed as [|b prefixed]; [done|].
    rewrite ceil_div_succ in Hk by (cbn; lia). done.
  - destruct (decide (length prefixed = 0)%nat) as [Hz|Hnz].
    { rewrite Hz in Hk. done. }
    rewrite ceil_div_succ in Hk by lia.
    assert (Math_ceil_div (length prefixed - BYTES_PER_CHUNK) BYTES_PER_CHUNK
            = k) as Hk' by congruence.
    cbn [seq map concat]. rewrite <- seq_shift, map_map.
    rewrite (map_ext _ (blockAt (drop BYTES_PER_CHUNK prefixed)))
      by (intros i; apply blockAt_succ).
    rewrite IH by (by rewrite length_drop).
    unfold blockAt at 1. cbn [Nat.mul drop]. unfold padBlock.
    rewrite length_take, length_drop, <- !app_assoc.
    rewrite drop_0, Nat.sub_0_r.
    destruct (decide (length prefixed <= BYTES_PER_CHUNK)%nat) as [Hle|Hgt].
    + rewrite take_ge, drop_ge by done. cbn [app length].
      assert (k = 0%nat) as ->.
      { rewrite <- Hk'. by replace (length prefixed - BYTES_PER_CHUNK)%nat
          with 0%nat by lia. }
      f_equal. rewrite <- repeat_app. f_equal. lia.
    + replace (BYTES_PER_CHUNK - BYTES_PER_CHUNK `min` length prefixed)%nat
        with 0%nat by lia.
      cbn [repeat app]. rewrite app_assoc, take_drop. do 2 f_equal.
      pose proof (ceil_div_bound (length prefixed - BYTES_PER_CHUNK)) as Hb.
      rewrite Hk' in Hb. rewrite length_drop. unfold BYTES_PER_CHUNK in *. lia.
Qed.

(** Every iteration of the chunk loop computes a block of the prefixed
    message and turns it into a bigint. *)
Lemma chunk_iteration prefixed i :
  (i < Math_ceil_div (length prefixed) BYTES_PER_CHUNK)%nat ->
  (chunk ← (if decide (i * BYTES_PER_CHUNK < length prefixed)%nat
            then Uint8Array_set (Uint8Array_new BYTES_PER_CHUNK)
                   (Uint8Array_slice prefixed (i * BYTES_PER_CHUNK)
                      (Nat.min (i * BYTES_PER_CHUNK + BYTES_PER_CHUNK)
                         (length prefixed))) 0
            else Normal (Uint8Array_new BYTES_PER_CHUNK));
   bytesToBigInt chunk)
  = Normal (Z.of_N (digitsValue (digitsOf (blockAt prefixed i)))).
Proof.
  intros Hi.
  assert (i * BYTES_PER_CHUNK < length prefixed)%nat as Hstart.
  { unfold Math_ceil_div, BYTES_PER_CHUNK in *.
    pose proof (Nat.div_mod_eq (length prefixed + (32 - 1)) 32).
    pose proof (Nat.mod_upper_bound (length prefixed + (32 - 1)) 32). nia. }
  rewrite decide_True by done.
  unfold Uint8Array_set, Uint8Array_slice, Uint8Array_new.
  rewrite length_take, length_drop, repeat_length.
  rewrite decide_True by lia. cbn [take app mbind js_bind Nat.add].
  assert (take ((i * BYTES_PER_CHUNK + BYTES_PER_CHUNK) `min` length prefixed
                - i * BYTES_PER_CHUNK) (drop (i * BYTES_PER_CHUNK) prefixed)
          = take BYTES_PER_CHUNK (drop (i * BYTES_PER_CHUNK) prefixed)) as ->.
  { destruct (decide (i * BYTES_PER_CHUNK + BYTES_PER_CHUNK
                      <= length prefixed)%nat).
    - f_equal. lia.
    - rewrite !take_ge; [done|rewrite length_drop; lia..]. }
  assert (((i * BYTES_PER_CHUNK + BYTES_PER_CHUNK) `min` length prefixed
           - i * BYTES_PER_CHUNK) `min` (length prefixed - i * BYTES_PER_CHUNK)
          = length (take BYTES_PER_CHUNK (drop (i * BYTES_PER_CHUNK) prefixed)))%nat
    as ->.
  { rewrite length_take, length_drop. lia. }
  assert (take BYTES_PER_CHUNK (drop (i * BYTES_PER_CHUNK) prefixed)
          ++ drop (length (take BYTES_PER_CHUNK (drop (i * BYTES_PER_CHUNK) prefixed)))
               (repeat x00 BYTES_PER_CHUNK)
          = blockAt prefixed i) as ->.
  { unfold blockAt, padBlock. by rewrite drop_repeat. }
  apply bytesToBigInt_value. intros Hnil.
  pose proof (blockAt_length prefixed i) as Hl. by rewrite Hnil in Hl.
Qed.

End Blocks.

(** ** Encoding and decoding in closed form *)

Section RoundTrip.
Context `{rt : Runtime}.

Lemma encodeBytesToChunks_eq messageBytes :
  encodeBytesToChunks messageBytes = Normal (chunksOf messageBytes).
Proof.
  unfold encodeBytesToChunks. cbn zeta.
  pose proof (prefix_written messageBytes) as Hp.
  destruct (DataView_setUint32_0 _ _) as [p0|]; [|done].
  cbn [mbind js_bind] in Hp |- *. rewrite Hp. cbn [mbind js_bind].
  apply mapM_Normal. intros i Hi.
  apply list_elem_of_In, in_seq in Hi. apply chunk_iteration. lia.
Qed.

Lemma chunksOf_length messageBytes :
  length (chunksOf messageBytes)
  = Math_ceil_div (4 + length messageBytes) BYTES_PER_CHUNK.
Proof. unfold chunksOf. cbn zeta. by rewrite length_map, length_seq. Qed.

Lemma concatUint8Arrays_eq arrays :
  concatUint8Arrays arrays = Normal (concat arrays).
Proof.
  unfold concatUint8Arrays. cbn zeta.
  assert (forall (l : list Uint8Array) n,
    foldl (fun sum current => sum + length current)%nat n l
    = (n + length (concat l))%nat) as Hsum.
  { induction l as [|a l IH]; intros n; cbn [foldl concat length]; [lia|].
    rewrite IH, length_app. lia. }
  rewrite Hsum. cbn [Nat.add].
  assert (forall (l : list Uint8Array) done_ extra,
    foldl (fun state array =>
        '(merged, offset) ← state;
        merged ← Uint8Array_set merged array offset;
        Normal (merged, (offset + length array)%nat))
      (Normal (done_ ++ repeat x00 (length (concat l) + extra), length done_)) l
    = Normal (done_ ++ concat l ++ repeat x00 extra,
              (length done_ + length (concat l))%nat)) as Hfold.
  { induction l as [|a l IH]; intros done_ extra; cbn [foldl concat].
    - cbn [length Nat.add app]. do 2 f_equal. lia.
    - cbn [mbind js_bind].
      rewrite Uint8Array_set_fits
        by (rewrite ?length_app, repeat_length, ?length_app; lia).
      rewrite ?length_app.
      cbn [mbind js_bind].
      rewrite take_app_length, drop_app_add, drop_repeat.
      replace (length a + length (concat l) + extra - length a)%nat
        with (length (concat l) + extra)%nat by lia.
      rewrite app_assoc, <- (length_app done_ a), IH.
      rewrite <- !app_assoc, length_app. do 2 f_equal. lia. }
  specialize (Hfold arrays [] 0%nat). cbn [app length Nat.add repeat] in Hfold.
  rewrite Nat.add_0_r in Hfold. unfold Uint8Array_new. rewrite Hfold.
  cbn [mbind js_bind].
  by rewrite app_nil_r.
Qed.

Lemma collectChunks_eq (handles : list jsString)
    (results : gmap jsString DecryptedValue) (blocks : list Uint8Array) :
  Forall2 (fun handle block =>
      results !! toLowerCase handle
      = Some (VBigInt (Z.of_N (digitsValue (digitsOf block))))
      /\ length block = BYTES_PER_CHUNK) handles blocks ->
  forall chunks,
    collectChunks handles results chunks = Normal (Some (chunks ++ blocks)).
Proof.
  induction 1 as [|handle block handles blocks [Hres Hlen] _ IH];
    intros chunks; cbn [collectChunks].
  - by rewrite app_nil_r.
  - rewrite Hres, valueToBytes32_chunk by done. cbn [mbind js_bind].
    by rewrite IH, <- app_assoc.
Qed.

Lemma getUint32_bigEndian32 value rest :
  DataView_getUint32_0 (bigEndian32 value ++ rest) = Normal (value mod 2 ^ 32).
Proof.
  unfold bigEndian32. cbn [app DataView_getUint32_0].
  rewrite !toUint8_value. f_equal.
  change (2 ^ 24) with 16777216. change (2 ^ 16) with 65536.
  change (2 ^ 8) with 256. change (2 ^ 32) with 4294967296.
  replace (value / 16777216) with (value / 256 / 256 / 256)
    by (rewrite !N.Div0.div_div; reflexivity).
  replace (value / 65536) with (value / 256 / 256)
    by (rewrite !N.Div0.div_div; reflexivity).
  pose proof (N.div_mod' value 256) as E0.
  pose proof (N.mod_lt value 256 ltac:(lia)) as B0.
  pose proof (N.div_mod' (value / 256) 256) as E1.
  pose proof (N.mod_lt (value / 256) 256 ltac:(lia)) as B1.
  pose proof (N.div_mod' (value / 256 / 256) 256) as E2.
  pose proof (N.mod_lt (value / 256 / 256) 256 ltac:(lia)) as B2.
  pose proof (N.div_mod' (value / 256 / 256 / 256) 256) as E3.
  pose proof (N.mod_lt (value / 256 / 256 / 256) 256 ltac:(lia)) as B3.
  apply N.mod_unique with (value / 256 / 256 / 256 / 256); lia.
Qed.

End RoundTrip.

(** ** The scenarios of the test suite, evaluated *)

Example scenario_created :
  getTimeCapsule (@run mockFHEVM [txCreate 0] deployed) 1
  = (alice, 3600, true, false, 3)
  /\ getTotalCapsules (@run mockFHEVM [txCreate 0] deployed) = Ok 1
  /\ userCapsulesAt (@run mockFHEVM [txCreate 0] deployed) alice = [1].
Proof. by vm_compute. Qed.

Example scenario_open_too_early :
  @openTimeCapsule mockFHEVM (mkMsg bob 3599) 1
    (@run mockFHEVM [txCreate 0] deployed)
  = Err (Revert "Unlock time has not arrived").
Proof. by vm_compute. Qed.

Example scenario_open_at_unlock_time :
  let s := @run mockFHEVM [txCreate 0; txOpen bob 3600] deployed in
  getTimeCapsule s 1 = (alice, 3600, false, true, 3)
  /\ bool_decide ((101, bob) ∈ acl s) = true
  /\ bool_decide ((101, alice) ∈ acl s) = true
  /\ bool_decide ((101, charlie) ∈ acl s) = false
  /\ last (events s) = Some (CapsuleUnlocked 1 alice).
Proof. by vm_compute. Qed.

Example scenario_open_twice :
  @openTimeCapsule mockFHEVM (mkMsg bob 3601) 1
    (@run mockFHEVM [txCreate 0; txOpen bob 3600] deployed)
  = Err (Revert "Capsule is not active").
Proof. by vm_compute. Qed.

Example scenario_cancel :
  let s := @run mockFHEVM [txCreate 0] deployed in
  @cancelTimeCapsule mockFHEVM (mkMsg bob 1) 1 s
  = Err (Revert "Only creator can cancel")
  /\ getTimeCapsule (@transact mockFHEVM (txCancel alice 1) s) 1
     = (alice, 3600, false, false, 3)
  /\ @cancelTimeCapsule mockFHEVM (mkMsg alice 2) 1
       (@transact mockFHEVM (txCancel alice 1) s)
     = Err (Revert "Capsule is not active").
Proof. by vm_compute. Qed.

Example scenario_grant :
  let created := @run mockFHEVM [txCreate 0] deployed in
  let opened := @run mockFHEVM [txCreate 0; txOpen bob 3600] deployed in
  grantDecryptionAccess (mkMsg alice 1) 1 bob created
  = Err (Revert "Capsule not unlocked")
  /\ grantDecryptionAccess (mkMsg bob 3700) 1 charlie opened
     = Err (Revert "Only creator can share")
  /\ grantDecryptionAccess (mkMsg alice 3700) 1 0 opened
     = Err (Revert "Invalid recipient")
  /\ bool_decide
       ((101, charlie) ∈ acl (@transact mockFHEVM (txGrant alice charlie 3700) opened))
     = true.
Proof. by vm_compute. Qed.

Example scenario_create_rejected :
  @createTimeCapsule mockFHEVM (mkMsg alice 100) [] [] 500 validProof 220
    deployed
  = Err (Revert "Encrypted message required")
  /\ @createTimeCapsule mockFHEVM (mkMsg alice 100) [555] [] 500 validProof 220
       deployed
     = Err (Revert "Message proof mismatch")
  /\ @createTimeCapsule mockFHEVM (mkMsg alice 100) [555] [validProof] 500
       validProof 100 deployed
     = Err (Revert "Unlock time must be in the future").
Proof. by vm_compute. Qed.

Example scenario_hello_future :
  @encodeMessageToChunks asciiRuntime helloFuture
  = Normal
      [0x0000000d48656c6c6f2046757475726521000000000000000000000000000000%Z].
Proof. by vm_compute. Qed.

Example scenario_empty_message :
  @encodeMessageToChunks asciiRuntime [] = Normal [0%Z].
Proof. by vm_compute. Qed.

(** * Part IV: the stated properties *)

(** C1: in every state reachable from deployment by any sequence of create,
    cancel, open and grant transactions, no capsule has both [isActive] and
    [isUnlocked] set. *)
Theorem flags_never_both_true `{FHEVM} (trace : list Tx) (capsuleId : N) :
  isActive (capsuleAt (run trace deployed) capsuleId)
  && isUnlocked (capsuleAt (run trace deployed) capsuleId) = false.
Proof. apply wf_flags, wf_run, wf_deployed. Qed.

(** C2: [openTimeCapsule] succeeds exactly when the capsule is active, not
    unlocked, and [block.timestamp >= unlockTime] (the boundary included),
    whoever the caller is.  On success the capsule becomes inactive and
    unlocked, every field handle is shared with the creator and with the
    caller, the grant events and [CapsuleUnlocked] are emitted, and no other
    capsule changes.  Otherwise the call reverts with the reason of the first
    violated guard and the state is what it was. *)
Theorem openTimeCapsule_spec `{FHEVM} (msg : Msg) (capsuleId : N) (s : State) :
  let c := capsuleAt s capsuleId in
  let c' := openedCapsule c in
  ((isActive c = true /\ isUnlocked c = false /\ unlockTime c <= timestamp msg)
   <-> exists s', openTimeCapsule msg capsuleId s = Ok (tt, s'))
  /\ (forall s', openTimeCapsule msg capsuleId s = Ok (tt, s') ->
        capsuleAt s' capsuleId = c'
        /\ isActive c' = false /\ isUnlocked c' = true
        /\ (forall other, other <> capsuleId ->
              capsuleAt s' other = capsuleAt s other)
        /\ (forall h, h ∈ fieldHandles c' ->
              (h, creator c) ∈ acl s' /\ (h, sender msg) ∈ acl s')
        /\ acl s' = grantsTo (sender msg) c' ∪ grantsTo (creator c) c' ∪ acl s
        /\ events s'
           = events s ++ [grantedEvent capsuleId (creator c) c']
               ++ (if sender msg =? creator c then []
                   else [grantedEvent capsuleId (sender msg) c'])
               ++ [CapsuleUnlocked capsuleId (creator c)])
  /\ (forall e, openTimeCapsule msg capsuleId s = Err e ->
        e = Revert (if negb (isActive c) then "Capsule is not active"
                    else if isUnlocked c then "Capsule is already unlocked"
                    else "Unlock time has not arrived")
        /\ errorKind e = Some InvalidTransition
        /\ transact (mkTx msg (OpenTimeCapsule capsuleId)) s = s).
Proof.
  intros c c'. unfold transact. rewrite dispatch_open, openTimeCapsule_eq.
  cbn zeta. fold c. rewrite _openCapsule_eq. cbn zeta. fold c. fold c'.
  destruct (isActive c) eqn:Ha; cbn [negb];
    [|split_and!; [naive_solver|done|by intros e [= <-]]].
  destruct (isUnlocked c) eqn:Hu;
    [split_and!; [naive_solver|done|by intros e [= <-]]|].
  destruct (unlockTime c <=? timestamp msg) eqn:Ht; cbn [negb].
  - apply N.leb_le in Ht. split_and!; [naive_solver| |done].
    intros s' [= <-]. cbn [acl events]. split_and!; try done.
    + apply capsuleAt_insert.
    + intros other Hne. by apply capsuleAt_insert_ne.
    + intros h Hh.
      assert (forall who, (h, who) ∈ grantsTo who c') as Hin.
      { intros who. unfold grantsTo. apply elem_of_list_to_set.
        apply list_elem_of_fmap. eauto. }
      split; [set_solver|].
      change (creator c') with (creator c).
      destruct (sender msg =? creator c) eqn:Hs; [|set_solver].
      apply N.eqb_eq in Hs. rewrite Hs. set_solver.
    + change (creator c') with (creator c).
      destruct (sender msg =? creator c) eqn:Hs; [|set_solver].
      apply N.eqb_eq in Hs. rewrite Hs. set_solver.
  - apply N.leb_gt in Ht.
    split_and!; [|done|by intros e [= <-]].
    split; [lia|]. by intros [s' ?].
Qed.

Lemma openTimeCapsule_spec_witness :
  exists s',
    @openTimeCapsule mockFHEVM (mkMsg bob 3600) 1
      (@run mockFHEVM [txCreate 0] deployed) = Ok (tt, s').
Proof.
  apply (proj1 (@openTimeCapsule_spec mockFHEVM (mkMsg bob 3600) 1
                  (@run mockFHEVM [txCreate 0] deployed))).
  vm_compute. repeat split; congruence.
Defined.

(** C3: once [isUnlocked] is set for a capsule it stays set, whatever
    transactions follow. *)
Theorem isUnlocked_monotone `{FHEVM} (trace later : list Tx) (capsuleId : N) :
  isUnlocked (capsuleAt (run trace deployed) capsuleId) = true ->
  isUnlocked (capsuleAt (run (trace ++ later) deployed) capsuleId) = true.
Proof.
  intros Hu. rewrite run_app. apply run_unlocked; [|done].
  apply wf_run, wf_deployed.
Qed.

Lemma isUnlocked_monotone_witness :
  isUnlocked
    (capsuleAt
       (@run mockFHEVM
          ([txCreate 0; txOpen bob 3600]
             ++ [txCancel alice 3601; txGrant alice charlie 3602;
                 txOpen bob 3603; txCreate 4000]) deployed) 1) = true.
Proof. apply (@isUnlocked_monotone mockFHEVM). vm_compute. reflexivity. Defined.

(** C4, as amended: [createTimeCapsule] reverts with a validation error, and
    without any change of state, exactly when the chunk list is empty, or the
    chunk and proof arrays differ in length, or the unlock time is not
    strictly later than the block timestamp.  It succeeds exactly when none of
    the three holds, the library accepts the proof of the unlock time and the
    proof of every chunk, and the id counter is still below [2^256 - 1]; it
    then returns the current counter value as the id of the capsule, advances
    the counter by one, stores the creator, the unlock time, the two flags and
    the encrypted mirrors, appends the admitted chunks in order, records the
    id under the creator and emits [CapsuleCreated].  When none of the three
    holds but the library rejects a proof, the call is aborted by the
    library, which is not a validation error, and the state is what it was.
    In every reachable state the id handed out is fresh. *)
Theorem createTimeCapsule_spec `{FHEVM} (msg : Msg) (chunks : list handle)
    (proofs : list bytes) (unlockHandle : handle) (unlockProof : bytes)
    (ut : N) (s : State) :
  let create := createTimeCapsule msg chunks proofs unlockHandle unlockProof ut in
  let tx := mkTx msg (CreateTimeCapsule chunks proofs unlockHandle unlockProof ut) in
  let capsuleId := nextCapsuleId s in
  let invalid :=
    chunks = [] \/ length chunks <> length proofs \/ ut <= timestamp msg in
  let verified := inputsVerified msg chunks proofs unlockHandle unlockProof in
  (invalid <-> exists e, create s = Err e /\ errorKind e = Some ValidationError)
  /\ (forall e, create s = Err e -> transact tx s = s)
  /\ ((exists id s', create s = Ok (id, s'))
      <-> ~ invalid /\ verified = true /\ capsuleId < MAX_UINT256)
  /\ (~ invalid -> verified = true -> capsuleId < MAX_UINT256 ->
        exists s',
          create s = Ok (capsuleId, s')
          /\ nextCapsuleId s' = capsuleId + 1
          /\ capsuleAt s' capsuleId
             = mkTimeCapsule
                 (encryptedMessage (capsuleAt s capsuleId)
                    ++ zip_with fromExternal chunks proofs)
                 (fromExternal unlockHandle unlockProof) (asEbool true)
                 (asEbool false) (asEaddress (sender msg)) (sender msg) ut
                 true false
          /\ (forall other, other <> capsuleId ->
                capsuleAt s' other = capsuleAt s other)
          /\ userCapsulesAt s' (sender msg)
             = userCapsulesAt s (sender msg) ++ [capsuleId]
          /\ events s' = events s ++ [CapsuleCreated capsuleId (sender msg) ut])
  /\ (~ invalid -> verified = false -> capsuleId < MAX_UINT256 ->
        create s = Err ExternalRevert
        /\ errorKind ExternalRevert = None)
  /\ (forall trace, s = run trace deployed ->
        capsuleAt s capsuleId = emptyCapsule
        /\ capsuleId ∉ assigned trace deployed).
Proof.
  intros create tx capsuleId invalid verified.
  unfold transact, tx, create. rewrite dispatch_create, createTimeCapsule_eq.
  cbn zeta. fold capsuleId. fold verified.
  assert ((0 <? N.of_nat (length chunks)) = false <-> chunks = []) as H1.
  { rewrite N.ltb_ge. destruct chunks; cbn; [done|]. split; [lia|done]. }
  assert ((N.of_nat (length chunks) =? N.of_nat (length proofs)) = false
          <-> length chunks <> length proofs) as H2.
  { rewrite N.eqb_neq. split; intros Hne Heq; apply Hne; [by f_equal|lia]. }
  assert ((timestamp msg <? ut) = false <-> ut <= timestamp msg) as H3.
  { by rewrite N.ltb_ge. }
  assert ((capsuleId + 1 <=? MAX_UINT256) = true <-> capsuleId < MAX_UINT256)
    as H4.
  { rewrite N.leb_le. lia. }
  assert (forall trace, s = run trace deployed ->
            capsuleAt s capsuleId = emptyCapsule
            /\ capsuleId ∉ assigned trace deployed) as Hfresh.
  { intros trace ->. destruct (assigned_fresh trace) as [Hnone Hnot].
    split; [by apply capsuleAt_None|done]. }
  assert (forall reason : string,
            invalid ->
            errorKind (Revert reason) = Some ValidationError ->
            (invalid <->
             exists e, Err (Revert reason) = @Err (N * State) e
                       /\ errorKind e = Some ValidationError)
            /\ (forall e, Err (Revert reason) = @Err (N * State) e ->
                  match
                    match @Err (N * State) (Revert reason) with
                    | Ok (capsuleId, s') => Ok (Some capsuleId, s')
                    | Err e => Err e
                    end
                  with
                  | Ok (_, s') => s'
                  | Err _ => s
                  end = s)
            /\ ((exists id s', @Err (N * State) (Revert reason) = Ok (id, s'))
                <-> ~ invalid /\ verified = true /\ capsuleId < MAX_UINT256))
    as Hrejected.
  { intros reason Hinv Hkind. split_and!; [split; eauto|done|].
    split; [by intros (? & ? & ?)|by intros [Hv _]]. }
  destruct (0 <? N.of_nat (length chunks)) eqn:E1; cbn [negb].
  2: { assert invalid as Hinv by (left; by apply H1).
       destruct (Hrejected "Encrypted message required" Hinv eq_refl)
         as (? & ? & ?).
       split_and!; done. }
  destruct (N.of_nat (length chunks) =? N.of_nat (length proofs)) eqn:E2;
    cbn [negb].
  2: { assert invalid as Hinv by (right; left; by apply H2).
       destruct (Hrejected "Message proof mismatch" Hinv eq_refl)
         as (? & ? & ?).
       split_and!; done. }
  destruct (timestamp msg <? ut) eqn:E3; cbn [negb].
  2: { assert invalid as Hinv by (right; right; by apply H3).
       destruct (Hrejected "Unlock time must be in the future" Hinv eq_refl)
         as (? & ? & ?).
       split_and!; done. }
  assert (~ invalid) as Hvalid.
  { intros [Hi|[Hi|Hi]]; [apply H1 in Hi|apply H2 in Hi|apply H3 in Hi];
      congruence. }
  destruct (capsuleId + 1 <=? MAX_UINT256) eqn:E4; cbn [negb].
  2: { assert (~ capsuleId < MAX_UINT256) as Hmax
         by (intros Hlt%H4; congruence).
       split_and!; try done.
       - split; [done|]. by intros (e & [= <-] & Hk).
       - split; [by intros (? & ? & ?)|]. by intros (_ & _ & ?). }
  assert (capsuleId < MAX_UINT256) as Hlt by (by apply H4).
  destruct verified eqn:E5; cbn [negb].
  - split_and!; try done.
    + split; [done|]. by intros (e & ? & ?).
    + split; [done|eauto].
    + intros _ _ _. eexists. split; [done|].
      cbn [nextCapsuleId events]. split_and!; try done.
      * apply capsuleAt_insert.
      * intros other Hne. by apply capsuleAt_insert_ne.
      * unfold userCapsulesAt at 1. cbn [userCapsules].
        by rewrite lookup_insert_eq.
  - split_and!; try done.
    + split; [done|]. by intros (e & [= <-] & Hk).
    + split; [by intros (? & ? & ?)|]. by intros (_ & ? & _).
Qed.

Lemma createTimeCapsule_spec_witness :
  exists s',
    @createTimeCapsule mockFHEVM (mkMsg alice 0) [101; 202; 303]
      [validProof; validProof; validProof] 500 validProof 3600 deployed
    = Ok (1, s').
Proof.
  destruct (@createTimeCapsule_spec mockFHEVM (mkMsg alice 0) [101; 202; 303]
              [validProof; validProof; validProof] 500 validProof 3600
              deployed) as (_ & _ & _ & Hok & _).
  destruct Hok as (s' & Hs' & _).
  - vm_compute. intros [?|[?|?]]; congruence.
  - vm_compute. reflexivity.
  - reflexivity.
  - by exists s'.
Defined.

(** Counterexample to C4 as stated: the chunk list is not empty, the two
    arrays have the same length and the unlock time is in the future, yet the
    call fails: the proof that comes with the chunk is not one the library
    accepts. *)
Lemma createTimeCapsule_rejected_proof :
  [101] <> ([] : list handle)
  /\ length [101] = length [[] : bytes]
  /\ 0 < 3600
  /\ @inputVerified mockFHEVM 101 alice [] = false
  /\ @createTimeCapsule mockFHEVM (mkMsg alice 0) [101] [[]] 500 validProof
       3600 deployed
     = Err ExternalRevert.
Proof. split_and!; [done|done|done|done|by vm_compute]. Qed.

(** C5: [grantDecryptionAccess] succeeds exactly when the capsule is
    unlocked, the caller is its creator and the recipient is not the null
    address.  A grant to the null address fails with a validation error; a
    grant on a capsule that is not unlocked fails; a grant by a caller other
    than the creator on an unlocked capsule fails with an invalid-transition
    error.  The guards are checked in this order, and each failure is stated
    for a call that passes the guards before it.  A successful grant leaves
    the capsule storage alone; repeating it succeeds again and adds nothing to
    the permission ledger (the grant event is emitted once more). *)
Theorem grantDecryptionAccess_spec (msg : Msg) (capsuleId : N)
    (recipient : address) (s : State) :
  let c := capsuleAt s capsuleId in
  let grant := grantDecryptionAccess msg capsuleId recipient in
  ((isUnlocked c = true /\ creator c = sender msg /\ recipient <> 0)
   <-> exists s', grant s = Ok (tt, s'))
  /\ (recipient = 0 ->
        grant s = Err (Revert "Invalid recipient")
        /\ errorKind (Revert "Invalid recipient") = Some ValidationError)
  /\ (recipient <> 0 -> isUnlocked c = false ->
        grant s = Err (Revert "Capsule not unlocked")
        /\ errorKind (Revert "Capsule not unlocked") = Some InvalidTransition)
  /\ (recipient <> 0 -> isUnlocked c = true -> creator c <> sender msg ->
        grant s = Err (Revert "Only creator can share")
        /\ errorKind (Revert "Only creator can share") = Some InvalidTransition)
  /\ (forall s', grant s = Ok (tt, s') ->
        timeCapsules s' = timeCapsules s
        /\ userCapsules s' = userCapsules s
        /\ nextCapsuleId s' = nextCapsuleId s
        /\ acl s' = grantsTo recipient c ∪ acl s
        /\ (forall h, h ∈ fieldHandles c -> (h, recipient) ∈ acl s')
        /\ events s' = events s ++ [grantedEvent capsuleId recipient c]
        /\ exists s'',
             grant s' = Ok (tt, s'')
             /\ timeCapsules s'' = timeCapsules s'
             /\ userCapsules s'' = userCapsules s'
             /\ nextCapsuleId s'' = nextCapsuleId s'
             /\ acl s'' = acl s'
             /\ events s'' = events s' ++ [grantedEvent capsuleId recipient c]).
Proof.
  intros c grant. unfold grant. rewrite grantDecryptionAccess_eq. cbn zeta.
  fold c.
  destruct (recipient =? 0) eqn:Hr.
  { apply N.eqb_eq in Hr. split_and!; try done. naive_solver. }
  apply N.eqb_neq in Hr.
  destruct (isUnlocked c) eqn:Hu; cbn [negb];
    [|split_and!; try done; naive_solver].
  destruct (creator c =? sender msg) eqn:Hc; cbn [negb].
  - apply N.eqb_eq in Hc. split_and!; try done; [naive_solver|].
    intros s' [= <-]. cbn [timeCapsules userCapsules nextCapsuleId acl events].
    split_and!; try done.
    + intros h Hh. apply elem_of_union_l. unfold grantsTo.
      apply elem_of_list_to_set, list_elem_of_fmap. eauto.
    + rewrite grantDecryptionAccess_eq. cbn zeta.
      change (capsuleAt (mkState _ _ _ _ _) capsuleId) with c.
      apply N.eqb_neq in Hr. apply N.eqb_eq in Hc. rewrite Hr, Hu, Hc.
      cbn [negb]. eexists. split; [done|].
      cbn [timeCapsules userCapsules nextCapsuleId acl events].
      split_and!; try done. set_solver.
  - apply N.eqb_neq in Hc. split_and!; try done. naive_solver.
Qed.

Lemma grantDecryptionAccess_spec_witness :
  exists s',
    grantDecryptionAccess (mkMsg alice 3700) 1 charlie
      (@run mockFHEVM [txCreate 0; txOpen bob 3600] deployed) = Ok (tt, s').
Proof.
  apply (proj1 (grantDecryptionAccess_spec (mkMsg alice 3700) 1
                  charlie (@run mockFHEVM [txCreate 0; txOpen bob 3600] deployed))).
  vm_compute. repeat split; congruence.
Defined.

(** C6: [cancelTimeCapsule] succeeds exactly when the caller is the creator and
    the capsule is in the Active state ([isActive] set, [isUnlocked] clear);
    it then clears [isActive] and emits
    [CapsuleCancelled].  A caller other than the creator is turned away with an
    invalid-transition error.  After a successful cancel every later cancel of
    the same capsule fails, whatever happened in between: [isActive] is false
    from then on, and the creator is told so. *)
Theorem cancelTimeCapsule_spec `{FHEVM} (msg : Msg) (capsuleId : N) (s : State) :
  let c := capsuleAt s capsuleId in
  ((creator c = sender msg /\ isActive c = true /\ isUnlocked c = false)
   <-> exists s', cancelTimeCapsule msg capsuleId s = Ok (tt, s'))
  /\ (forall s', cancelTimeCapsule msg capsuleId s = Ok (tt, s') ->
        capsuleAt s' capsuleId = cancelledCapsule c
        /\ isActive (capsuleAt s' capsuleId) = false
        /\ isUnlocked (capsuleAt s' capsuleId) = false
        /\ (forall other, other <> capsuleId ->
              capsuleAt s' other = capsuleAt s other)
        /\ acl s' = acl s
        /\ events s' = events s ++ [CapsuleCancelled capsuleId (sender msg)])
  /\ (creator c <> sender msg ->
        cancelTimeCapsule msg capsuleId s = Err (Revert "Only creator can cancel")
        /\ errorKind (Revert "Only creator can cancel") = Some InvalidTransition)
  /\ (forall trace s' later msg',
        s = run trace deployed ->
        cancelTimeCapsule msg capsuleId s = Ok (tt, s') ->
        isActive (capsuleAt (run later s') capsuleId) = false
        /\ exists e,
             cancelTimeCapsule msg' capsuleId (run later s') = Err e
             /\ errorKind e = Some InvalidTransition
             /\ (sender msg' = sender msg -> e = Revert "Capsule is not active")).
Proof.
  intros c.
  assert (forall s',
    cancelTimeCapsule msg capsuleId s = Ok (tt, s') ->
    creator c = sender msg /\ isActive c = true /\ isUnlocked c = false
    /\ s' = mkState (<[capsuleId := cancelledCapsule c]> (timeCapsules s))
              (userCapsules s) (nextCapsuleId s) (acl s)
              (events s ++ [CapsuleCancelled capsuleId (sender msg)])) as Hok.
  { intros s'. rewrite cancelTimeCapsule_eq. cbn zeta. fold c.
    destruct (creator c =? sender msg) eqn:Hc; cbn [negb]; [|done].
    destruct (isActive c); cbn [negb]; [|done].
    destruct (isUnlocked c); [done|].
    apply N.eqb_eq in Hc. by intros [= <-]. }
  split_and!.
  - split; [|intros [s' Hs']; by destruct (Hok s' Hs') as (? & ? & ? & _)].
    intros (Hc & Ha & Hu). rewrite cancelTimeCapsule_eq. cbn zeta. fold c.
    apply N.eqb_eq in Hc. rewrite Hc, Ha, Hu. cbn [negb]. eauto.
  - intros s' Hs'. destruct (Hok s' Hs') as (_ & _ & Hu & ->).
    cbn [acl events]. rewrite capsuleAt_insert. split_and!; try done.
    intros other Hne. by apply capsuleAt_insert_ne.
  - intros Hne. rewrite cancelTimeCapsule_eq. cbn zeta. fold c.
    apply N.eqb_neq in Hne. by rewrite Hne.
  - intros trace s' later msg' -> Hs'.
    destruct (Hok s' Hs') as (Hc & Ha & Hu & Hs). fold c in Hs.
    pose proof (wf_run trace deployed wf_deployed) as Hwf.
    assert (wf s') as Hwf'.
    { replace s' with (transact (mkTx msg (CancelTimeCapsule capsuleId))
                         (run trace deployed)); [by apply wf_transact|].
      unfold transact. by rewrite dispatch_cancel, Hs'. }
    assert (timeCapsules s' !! capsuleId <> None) as Hw.
    { rewrite Hs. cbn. by rewrite lookup_insert_eq. }
    assert (isActive (capsuleAt s' capsuleId) = false) as Ha'.
    { rewrite Hs. by rewrite capsuleAt_insert. }
    pose proof (run_inactive later s' capsuleId Hwf' Hw Ha') as Hlater.
    pose proof (run_content later s' capsuleId Hwf' Hw) as (Hcr & _).
    assert (creator (capsuleAt s' capsuleId) = sender msg) as Hcs.
    { rewrite Hs. by rewrite capsuleAt_insert. }
    split; [done|]. rewrite cancelTimeCapsule_eq. cbn zeta.
    rewrite Hlater, Hcr, Hcs.
    destruct (sender msg =? sender msg') eqn:Hsame; cbn [negb].
    + eexists. split_and!; done.
    + apply N.eqb_neq in Hsame. eexists. split_and!; [done..|congruence].
Qed.

Lemma cancelTimeCapsule_spec_witness :
  exists s',
    @cancelTimeCapsule mockFHEVM (mkMsg alice 5) 1
      (@run mockFHEVM [txCreate 0] deployed) = Ok (tt, s').
Proof.
  apply (proj1 (@cancelTimeCapsule_spec mockFHEVM (mkMsg alice 5) 1
                  (@run mockFHEVM [txCreate 0] deployed))).
  vm_compute. repeat split; congruence.
Defined.

(** C7: for every byte string shorter than [2^32], encoding succeeds and
    yields the chunks the description promises - the four-byte big-endian
    length, then the message, cut into 32-byte blocks with the last one
    zero-padded, at least one block - and decoding the decrypted chunks, looked
    up under the handles of the capsule in their order, gives back exactly the
    bytes that were encoded ([decodeMessageFromResults] hands precisely these
    bytes to the text decoder). *)
Theorem codec_roundtrip `{Runtime} (messageBytes : Uint8Array) :
  N.of_nat (length messageBytes) < 2 ^ 32 ->
  exists chunks,
    encodeBytesToChunks messageBytes = Normal chunks
    /\ chunks = chunksOf messageBytes
    /\ chunks <> []
    /\ forall (handles : list jsString)
         (results : gmap jsString DecryptedValue),
         Forall2 (fun handle chunk =>
             results !! toLowerCase handle = Some (VBigInt chunk))
           handles chunks ->
         decodeBytesFromResults handles results = Normal (Some messageBytes)
         /\ decodeMessageFromResults handles results
            = Normal (Some (TextDecoder_decode messageBytes)).
Proof.
  intros Hshort. exists (chunksOf messageBytes).
  set (prefixed := bigEndian32 (N.of_nat (length messageBytes)) ++ messageBytes).
  set (k := Math_ceil_div (length prefixed) BYTES_PER_CHUNK).
  assert (length prefixed = 4 + length messageBytes)%nat as Hplen by done.
  assert (0 < k)%nat as Hk.
  { unfold k. rewrite ceil_div_succ by lia. lia. }
  split_and!.
  - apply encodeBytesToChunks_eq.
  - done.
  - unfold chunksOf. cbn zeta. fold prefixed. fold k.
    destruct k; [lia|done].
  - intros handles results Hres.
    cut (decodeBytesFromResults handles results = Normal (Some messageBytes)).
    { intros Hdecoded. split; [done|].
      unfold decodeMessageFromResults. by rewrite Hdecoded. }
    assert (Forall2 (fun handle block =>
        results !! toLowerCase handle
        = Some (VBigInt (Z.of_N (digitsValue (digitsOf block))))
        /\ length block = BYTES_PER_CHUNK)
      handles (map (blockAt prefixed) (seq 0 k))) as Hblocks.
    { unfold chunksOf in Hres. cbn zeta in Hres. fold prefixed in Hres.
      fold k in Hres. apply Forall2_fmap_r in Hres. apply Forall2_fmap_r.
      eapply Forall2_impl; [exact Hres|]. cbn beta. intros handle i Hi.
      split; [done|apply blockAt_length]. }
    unfold decodeBytesFromResults.
    apply Forall2_length in Hres as Hlen. rewrite chunksOf_length in Hlen.
    rewrite <- Hplen in Hlen. fold k in Hlen.
    rewrite decide_False by lia.
    rewrite (collectChunks_eq _ _ _ Hblocks). cbn [mbind js_bind app].
    rewrite concatUint8Arrays_eq. cbn [mbind js_bind].
    rewrite (blocks_concat k prefixed eq_refl).
    pose proof (ceil_div_bound (length prefixed)) as Hbound. fold k in Hbound.
    rewrite length_app, repeat_length.
    rewrite decide_False by lia.
    set (padding := repeat x00 (k * BYTES_PER_CHUNK - length prefixed)).
    assert (DataView_getUint32_0 (prefixed ++ padding)
            = Normal (N.of_nat (length messageBytes))) as ->.
    { unfold prefixed. rewrite <- app_assoc, getUint32_bigEndian32.
      by rewrite N.mod_small. }
    cbn [mbind js_bind]. rewrite decide_False by lia.
    rewrite Nat2N.id. unfold Uint8Array_slice.
    replace (4 + length messageBytes - 4)%nat with (length messageBytes) by lia.
    unfold prefixed, bigEndian32. cbn [app drop].
    by rewrite drop_0, take_app_length.
Qed.

Lemma codec_roundtrip_witness :
  @decodeBytesFromResults asciiRuntime [str "0xAB"]
    {[ str "0xab" :=
         VBigInt 0x0000000d48656c6c6f2046757475726521000000000000000000000000000000%Z ]}
  = Normal (Some (@TextEncoder_encode asciiRuntime helloFuture)).
Proof.
  destruct (@codec_roundtrip asciiRuntime
              (@TextEncoder_encode asciiRuntime helloFuture))
    as (chunks & Hencoded & _ & _ & Hdecoded); [vm_compute; reflexivity|].
  vm_compute in Hencoded. injection Hencoded as <-.
  apply (Hdecoded [str "0xAB"]). repeat constructor.
Defined.

(** C8: a successful cancel, open or grant changes neither the id counter, nor
    the per-user id lists, nor which slots hold a capsule, nor - in any
    capsule - the creator, the unlock time, the message chunks (their number
    and each handle) and the two encrypted mirrors fixed at creation; only the
    two flags and their encrypted mirrors differ afterwards.  Consequently a
    capsule keeps its id and that content from its creation on, whatever
    transactions follow. *)
Theorem lifecycle_frame `{FHEVM} :
  (forall (tx : Tx) (s s' : State) (r : option N),
     is_lifecycle (tx_call tx) = true ->
     dispatch tx s = Ok (r, s') ->
     nextCapsuleId s' = nextCapsuleId s
     /\ userCapsules s' = userCapsules s
     /\ forall capsuleId,
          (timeCapsules s' !! capsuleId = None
           <-> timeCapsules s !! capsuleId = None)
          /\ same_content (capsuleAt s capsuleId) (capsuleAt s' capsuleId)
          /\ length (encryptedMessage (capsuleAt s' capsuleId))
             = length (encryptedMessage (capsuleAt s capsuleId)))
  /\ (forall (trace later : list Tx) (capsuleId : N),
        capsuleId ∈ assigned trace deployed ->
        capsuleId ∈ assigned (trace ++ later) deployed
        /\ same_content (capsuleAt (run trace deployed) capsuleId)
             (capsuleAt (run (trace ++ later) deployed) capsuleId)).
Proof.
  split.
  - intros tx s s' r Hlife Hd.
    assert (forall capsuleId c,
      isActive (capsuleAt s capsuleId) = true ->
      same_content (capsuleAt s capsuleId) c ->
      forall other,
        (<[capsuleId := c]> (timeCapsules s) !! other = None
         <-> timeCapsules s !! other = None)
        /\ same_content (capsuleAt s other)
             (<[capsuleId := c]> (timeCapsules s) !!! other)
        /\ length (encryptedMessage
                     (<[capsuleId := c]> (timeCapsules s) !!! other))
           = length (encryptedMessage (capsuleAt s other))) as Hins.
    { intros capsuleId c Ha Hc other. rewrite lookup_insert_None.
      pose proof (active_written _ _ Ha).
      destruct (decide (capsuleId = other)) as [<-|Hne].
      - rewrite lookup_total_insert_eq. destruct Hc as (? & ? & Hm & ? & ?).
        rewrite Hm. split_and!; try done. naive_solver.
      - rewrite lookup_total_insert_ne by done. split_and!; try done.
        naive_solver. }
    destruct tx as [msg [chunks proofs uh up ut|capsuleId|capsuleId
                         |capsuleId recipient]]; [done|..]; cbn [tx_call] in *.
    + rewrite dispatch_cancel, cancelTimeCapsule_eq in Hd. cbn zeta in Hd.
      destruct (creator (capsuleAt s capsuleId) =? sender msg);
        cbn [negb] in Hd; [|done].
      destruct (isActive (capsuleAt s capsuleId)) eqn:Ha;
        cbn [negb] in Hd; [|done].
      destruct (isUnlocked (capsuleAt s capsuleId)); [done|].
      injection Hd as <- <-. cbn [nextCapsuleId userCapsules].
      split_and!; try done. intros other. unfold capsuleAt at 2 3.
      cbn [timeCapsules]. by apply Hins.
    + rewrite dispatch_open, openTimeCapsule_eq in Hd. cbn zeta in Hd.
      destruct (isActive (capsuleAt s capsuleId)) eqn:Ha;
        cbn [negb] in Hd; [|done].
      destruct (isUnlocked (capsuleAt s capsuleId)); [done|].
      destruct (unlockTime (capsuleAt s capsuleId) <=? timestamp msg);
        cbn [negb] in Hd; [|done].
      rewrite _openCapsule_eq in Hd. cbn zeta in Hd.
      injection Hd as <- <-. cbn [nextCapsuleId userCapsules].
      split_and!; try done. intros other. unfold capsuleAt at 2 3.
      cbn [timeCapsules]. by apply Hins.
    + rewrite dispatch_grant, grantDecryptionAccess_eq in Hd. cbn zeta in Hd.
      destruct (recipient =? 0); [done|].
      destruct (isUnlocked (capsuleAt s capsuleId)); cbn [negb] in Hd; [|done].
      destruct (creator (capsuleAt s capsuleId) =? sender msg);
        cbn [negb] in Hd; [|done].
      injection Hd as <- <-. cbn [nextCapsuleId userCapsules]. done.
  - intros trace later capsuleId Hin. split.
    + rewrite assigned_app. apply elem_of_app. by left.
    + rewrite run_app. apply run_content; [apply wf_run, wf_deployed|].
      apply assigned_written; [apply wf_deployed|done].
Qed.

Lemma lifecycle_frame_witness :
  same_content
    (capsuleAt (@run mockFHEVM [txCreate 0] deployed) 1)
    (capsuleAt (@transact mockFHEVM (txOpen bob 3600)
                  (@run mockFHEVM [txCreate 0] deployed)) 1)
  /\ same_content
       (capsuleAt (@run mockFHEVM [txCreate 0] deployed) 1)
       (capsuleAt
          (@run mockFHEVM
             ([txCreate 0]
                ++ [txOpen bob 3600; txGrant alice charlie 3700; txCreate 3800])
             deployed) 1).
Proof.
  destruct (@lifecycle_frame mockFHEVM) as [Hstep Htrace]. split.
  - destruct (Hstep (txOpen bob 3600) (@run mockFHEVM [txCreate 0] deployed)
                (@transact mockFHEVM (txOpen bob 3600)
                   (@run mockFHEVM [txCreate 0] deployed)) None)
      as (_ & _ & Hcaps); [reflexivity|vm_compute; reflexivity|].
    apply Hcaps.
  - apply Htrace. vm_compute. by repeat constructor.
Defined.

(** C9: the ids handed out from deployment on are 1, 2, 3, ... in order of the
    successful creations; no id is handed out twice; every new id is larger
    than all earlier ones; [getTotalCapsules] returns the number of successful
    creations. *)
Theorem capsule_ids_sequential `{FHEVM} (trace : list Tx) :
  let ids := assigned trace deployed in
  let s := run trace deployed in
  ids = map N.of_nat (seq 1 (length ids))
  /\ NoDup ids
  /\ (forall tx capsuleId,
        assignedBy tx s = Some capsuleId ->
        capsuleId = N.of_nat (length ids) + 1
        /\ forall earlier, earlier ∈ ids -> earlier < capsuleId)
  /\ getTotalCapsules s = Ok (N.of_nat (length ids)).
Proof.
  cbn zeta. pose proof (wf_run trace deployed wf_deployed) as Hwf.
  destruct (assigned_from_deployment trace) as [Hseq Hnext].
  split_and!.
  - exact Hseq.
  - rewrite Hseq. apply NoDup_fmap_2; [intros ? ? ?; lia|].
    apply NoDup_ListNoDup, seq_NoDup.
  - intros tx capsuleId Htx.
    pose proof (eff_next tx _ (tx_effect_holds tx _ Hwf)) as Heff.
    rewrite Htx in Heff. destruct Heff as (-> & _ & _). split; [lia|].
    intros earlier Hin. apply assigned_bounds in Hin; [lia|apply wf_deployed].
  - unfold getTotalCapsules, checked_sub. rewrite Hnext.
    replace (1 <=? N.of_nat (length (assigned trace deployed)) + 1) with true
      by (symmetry; apply N.leb_le; lia).
    f_equal. lia.
Qed.

Lemma capsule_ids_sequential_witness :
  3 = N.of_nat
        (length
           (@assigned mockFHEVM [txCreate 0; txCancel bob 1; txCreate 2]
              deployed)) + 1
  /\ 2 < 3.
Proof.
  destruct (@capsule_ids_sequential mockFHEVM
              [txCreate 0; txCancel bob 1; txCreate 2]) as (_ & _ & Hnew & _).
  destruct (Hnew (txCreate 5) 3) as [Hid Hlater]; [vm_compute; reflexivity|].
  split; [exact Hid|]. apply Hlater. vm_compute. by repeat constructor.
Defined.

(** C10: [getTimeCapsule] on an id that no successful creation has handed out
    does not revert; it returns the all-zero record. *)
Theorem getTimeCapsule_unassigned `{FHEVM} (trace : list Tx) (capsuleId : N) :
  capsuleId ∉ assigned trace deployed ->
  getTimeCapsule (run trace deployed) capsuleId = (0, 0, false, false, 0).
Proof.
  intros Hnot. pose proof (wf_run trace deployed wf_deployed) as Hwf.
  destruct (assigned_from_deployment trace) as [Hseq Hnext].
  unfold getTimeCapsule. rewrite capsuleAt_None; [done|].
  apply wf_unassigned; [done|].
  destruct (decide (capsuleId = 0)) as [|Hz]; [by left|right].
  rewrite Hnext. apply N.le_ngt. intros Hlt. apply Hnot. rewrite Hseq.
  apply list_elem_of_fmap. exists (N.to_nat capsuleId). split; [lia|].
  apply list_elem_of_In, in_seq. lia.
Qed.

Lemma getTimeCapsule_unassigned_witness :
  getTimeCapsule (@run mockFHEVM [txCreate 0; txOpen bob 3600] deployed) 2
  = (0, 0, false, false, 0).
Proof.
  apply (@getTimeCapsule_unassigned mockFHEVM). vm_compute.
  intros Hin. apply list_elem_of_In in Hin. cbn in Hin. intuition congruence.
Defined.

(** * Part V: further properties of the views, the ledger and the codec *)

(** ** Supporting lemmas *)

Section Views.
Context `{fhe : FHEVM}.

Lemma result_bind_Ok {A B} (a : A) (f : A -> result B) : (Ok a ≫= f) = f a.
Proof. done. Qed.

Lemma array_get_lookup {A} (a : list A) (i : nat) x :
  a !! i = Some x -> array_get a (N.of_nat i) = Ok x.
Proof. intros Hx. unfold array_get. by rewrite Nat2N.id, Hx. Qed.

Lemma array_set_insert {A} (a : list A) (i : nat) v :
  (i < length a)%nat -> array_set a (N.of_nat i) v = Ok (<[i := v]> a).
Proof. intros Hi. unfold array_set. rewrite Nat2N.id. by rewrite decide_True. Qed.

Lemma getEncryptedMessage_copy (l : list handle) : forall count i,
  (i + count = length l)%nat ->
  for_range (N.of_nat i) count (fun _ => true)
    (fun i chunks => chunk ← array_get l i; array_set chunks i chunk)
    (take i l ++ replicate count 0)
  = Ok l.
Proof.
  induction count as [|count IH]; intros i Hi; cbn [for_range].
  - rewrite take_ge by lia. by rewrite app_nil_r.
  - destruct (lookup_lt_is_Some_2 l i) as [x Hx]; [lia|].
    rewrite (array_get_lookup _ _ _ Hx), result_bind_Ok.
    rewrite array_set_insert
      by (rewrite length_app, length_take, length_replicate; lia).
    rewrite result_bind_Ok.
    replace (N.of_nat i + 1) with (N.of_nat (S i)) by lia.
    rewrite <- (IH (S i)) by lia. f_equal.
    rewrite insert_app_r_alt by (rewrite length_take; lia).
    rewrite length_take. replace (i - i `min` length l)%nat with 0%nat by lia.
    cbn. rewrite (take_S_r _ _ x) by done. by rewrite <- app_assoc.
Qed.

Lemma getEncryptedMessage_eq s capsuleId :
  getEncryptedMessage s capsuleId = Ok (encryptedMessage (capsuleAt s capsuleId)).
Proof.
  unfold getEncryptedMessage, array_new. cbn zeta. rewrite Nat2N.id.
  apply (getEncryptedMessage_copy _ _ 0%nat). done.
Qed.

(** Counting loops: the counter grows by the number of hits and stays within
    [uint256] as long as the number of iterations does. *)
Lemma for_range_count (P : N -> bool) : forall count i a,
  N.of_nat (a + count) <= MAX_UINT256 ->
  for_range i count (fun _ => true)
    (fun i n => if P i then checked_add n 1 else Ok n) (N.of_nat a)
  = Ok (N.of_nat
          (a + length (List.filter P
                         (map (fun k => i + N.of_nat k) (seq 0 count))))).
Proof.
  induction count as [|count IH]; intros i a Ha; cbn [for_range seq map List.filter].
  - cbn. f_equal. lia.
  - rewrite N.add_0_r. rewrite <- seq_shift, map_map.
    replace (map (fun k => i + N.of_nat (S k)) (seq 0 count))
      with (map (fun k => i + 1 + N.of_nat k) (seq 0 count))
      by (apply map_ext; intros; lia).
    destruct (P i).
    + unfold checked_add.
      replace (N.of_nat a + 1 <=? MAX_UINT256) with true
        by (symmetry; apply N.leb_le; lia).
      rewrite result_bind_Ok.
      replace (N.of_nat a + 1) with (N.of_nat (S a)) by lia.
      rewrite IH by lia. cbn [length]. f_equal. lia.
    + rewrite result_bind_Ok. rewrite IH by lia. done.
Qed.

Lemma getExpiredCapsulesCount_eq msg s :
  nextCapsuleId s <= MAX_UINT256 ->
  getExpiredCapsulesCount msg s
  = Ok (N.of_nat
          (length
             (List.filter
                (fun capsuleId =>
                   isActive (capsuleAt s capsuleId)
                   && negb (isUnlocked (capsuleAt s capsuleId))
                   && (unlockTime (capsuleAt s capsuleId) <=? timestamp msg))
                (map (fun k => 1 + N.of_nat k)
                   (seq 0 (N.to_nat (nextCapsuleId s - 1))))))).
Proof.
  intros Hmax. unfold getExpiredCapsulesCount.
  rewrite (for_range_count
             (fun i => isActive (capsuleAt s i) && negb (isUnlocked (capsuleAt s i))
                       && (unlockTime (capsuleAt s i) <=? timestamp msg))
             _ 1 0%nat); [done|lia].
Qed.

End Views.

Section UserLists.
Context `{fhe : FHEVM}.

Lemma count_active (P : N -> bool) (ids : list N) : forall count i a,
  (i + count = length ids)%nat ->
  N.of_nat (a + count) <= MAX_UINT256 ->
  for_range (N.of_nat i) count (fun _ => true)
    (fun i n =>
       capsuleId ← array_get ids i;
       if P capsuleId then checked_add n 1 else Ok n)
    (N.of_nat a)
  = Ok (N.of_nat (a + length (List.filter P (drop i ids)))).
Proof.
  induction count as [|count IH]; intros i a Hi Ha; cbn [for_range].
  - rewrite drop_ge by lia. cbn. f_equal. lia.
  - destruct (lookup_lt_is_Some_2 ids i) as [x Hx]; [lia|].
    rewrite (array_get_lookup _ _ _ Hx), result_bind_Ok.
    rewrite (drop_S _ _ _ Hx). cbn [List.filter].
    replace (N.of_nat i + 1) with (N.of_nat (S i)) by lia.
    destruct (P x).
    + unfold checked_add.
      replace (N.of_nat a + 1 <=? MAX_UINT256) with true
        by (symmetry; apply N.leb_le; lia).
      rewrite result_bind_Ok.
      replace (N.of_nat a + 1) with (N.of_nat (S a)) by lia.
      rewrite IH by lia. cbn [length]. f_equal. lia.
    + rewrite result_bind_Ok. by rewrite IH by lia.
Qed.

Lemma collect_active (P : N -> bool) (ids : list N) (total : nat) :
  N.of_nat total <= MAX_UINT256 ->
  forall count i,
    (i + count = length ids)%nat ->
    total = (length (List.filter P (take i ids))
             + length (List.filter P (drop i ids)))%nat ->
    exists index,
      for_range (N.of_nat i) count
        (fun '(_, index) => index <? N.of_nat total)
        (fun i '(activeCapsules, index) =>
           capsuleId ← array_get ids i;
           if P capsuleId
           then
             capsuleId ← array_get ids i;
             activeCapsules ← array_set activeCapsules index capsuleId;
             index ← checked_add index 1;
             Ok (activeCapsules, index)
           else Ok (activeCapsules, index))
        (List.filter P (take i ids)
           ++ replicate (length (List.filter P (drop i ids))) 0,
         N.of_nat (length (List.filter P (take i ids))))
      = Ok (List.filter P ids, index).
Proof.
  intros Hmax. induction count as [|count IH]; intros i Hi Htotal;
    cbn [for_range]; cbn beta iota.
  - rewrite drop_ge, take_ge by lia. cbn. rewrite app_nil_r. eauto.
  - destruct (N.ltb_spec (N.of_nat (length (List.filter P (take i ids))))
                (N.of_nat total)) as [Hlt|Hge].
    + destruct (lookup_lt_is_Some_2 ids i) as [x Hx]; [lia|].
      rewrite (array_get_lookup _ _ _ Hx), result_bind_Ok.
      assert (List.filter P (take (S i) ids)
              = List.filter P (take i ids) ++ (if P x then [x] else [])) as Htake.
      { rewrite (take_S_r _ _ x) by done. rewrite List.filter_app. cbn.
        by destruct (P x). }
      assert (List.filter P (drop i ids)
              = (if P x then [x] else []) ++ List.filter P (drop (S i) ids))
        as Hdrop.
      { rewrite (drop_S _ _ _ Hx). cbn. by destruct (P x). }
      replace (N.of_nat i + 1) with (N.of_nat (S i)) by lia.
      destruct (P x) eqn:HP.
      * rewrite result_bind_Ok.
        rewrite Hdrop. cbn [app length replicate].
        rewrite array_set_insert by (rewrite length_app; cbn; lia).
        rewrite result_bind_Ok. unfold checked_add.
        replace (N.of_nat (length (List.filter P (take i ids))) + 1
                 <=? MAX_UINT256) with true
          by (symmetry; apply N.leb_le; lia).
        rewrite !result_bind_Ok.
        rewrite insert_app_r_alt by lia. rewrite Nat.sub_diag. cbn [insert].
        destruct (IH (S i)) as [index Hindex]; [lia| |].
        { rewrite Htake, Hdrop in *. rewrite length_app in *. cbn in *. lia. }
        exists index. rewrite <- Hindex. rewrite Htake.
        rewrite length_app. cbn [length].
        replace (N.of_nat (length (List.filter P (take i ids)) + 1))
          with (N.of_nat (length (List.filter P (take i ids))) + 1) by lia.
        cbn [list_insert]. by rewrite <- app_assoc.
      * rewrite result_bind_Ok.
        destruct (IH (S i)) as [index Hindex]; [lia| |].
        { rewrite Htake, Hdrop in *. rewrite length_app in *. cbn in *. lia. }
        exists index. rewrite <- Hindex. rewrite Htake, Hdrop.
        by rewrite app_nil_r.
    + assert (List.filter P (drop i ids) = []) as Hnone.
      { apply length_zero_iff_nil. lia. }
      rewrite Hnone. cbn. rewrite app_nil_r. eexists. do 2 f_equal.
      rewrite <- (take_drop i ids) at 2. rewrite List.filter_app, Hnone.
      by rewrite app_nil_r.
Qed.

Lemma getActiveCapsulesByUser_eq s user :
  N.of_nat (length (userCapsulesAt s user)) <= MAX_UINT256 ->
  getActiveCapsulesByUser s user
  = Ok (List.filter (fun capsuleId => isActive (capsuleAt s capsuleId))
          (userCapsulesAt s user)).
Proof.
  intros Hlen. unfold getActiveCapsulesByUser. cbn zeta.
  set (ids := userCapsulesAt s user) in *.
  pose (P := fun capsuleId => isActive (capsuleAt s capsuleId)).
  pose proof (count_active P ids (length ids) 0 0 eq_refl ltac:(lia)) as Hcount.
  pose proof (List.filter_length_le P ids) as Hle.
  destruct (collect_active P ids (length (List.filter P ids))
              ltac:(lia) (length ids) 0%nat) as [index Hindex]; [done|done|].
  rewrite take_0, drop_0 in Hindex. rewrite drop_0 in Hcount.
  cbn [List.filter length app Nat.add] in Hindex, Hcount.
  change (N.of_nat 0) with 0 in Hindex, Hcount.
  subst P. cbn beta in Hindex, Hcount.
  rewrite Hcount, result_bind_Ok. unfold array_new. rewrite Nat2N.id.
  by rewrite Hindex.
Qed.

Lemma userCapsulesAt_transact tx s user :
  userCapsulesAt (transact tx s) user
  = userCapsulesAt s user
      ++ match assignedBy tx s with
         | Some capsuleId =>
             if creator (capsuleAt (transact tx s) capsuleId) =? user
             then [capsuleId] else []
         | None => []
         end.
Proof.
  destruct tx as [msg [chunks proofs uh up ut|capsuleId|capsuleId
                       |capsuleId recipient]];
    unfold transact, assignedBy.
  - rewrite dispatch_create, createTimeCapsule_eq. cbn zeta.
    repeat match goal with
           | |- context [if negb ?b then _ else _] =>
               destruct b; cbn [negb]; [|by rewrite app_nil_r]
           end.
    rewrite capsuleAt_insert. cbn [creator createdCapsule].
    unfold userCapsulesAt at 1. cbn [userCapsules].
    destruct (N.eqb_spec (sender msg) user) as [->|Hne].
    + by rewrite lookup_insert_eq.
    + rewrite lookup_insert_ne by done. by rewrite app_nil_r.
  - rewrite dispatch_cancel, cancelTimeCapsule_eq. cbn zeta.
    repeat match goal with
           | |- context [if ?b then _ else _] =>
               destruct b; [try by rewrite app_nil_r..]
           end.
  - rewrite dispatch_open, openTimeCapsule_eq. cbn zeta.
    rewrite _openCapsule_eq. cbn zeta.
    repeat match goal with
           | |- context [if ?b then Err _ else _] =>
               destruct b; [by rewrite app_nil_r|]
           end.
    by rewrite app_nil_r.
  - rewrite dispatch_grant, grantDecryptionAccess_eq. cbn zeta.
    repeat match goal with
           | |- context [if ?b then Err _ else _] =>
               destruct b; [by rewrite app_nil_r|]
           end.
    by rewrite app_nil_r.
Qed.

Lemma assigned_slot tx s capsuleId :
  wf s -> assignedBy tx s = Some capsuleId ->
  timeCapsules (transact tx s) !! capsuleId <> None.
Proof.
  intros Hwf Hid Hnone.
  apply (eff_slots tx s (tx_effect_holds tx s Hwf)) in Hnone. tauto.
Qed.

Lemma userCapsulesAt_run trace : forall s user,
  wf s ->
  userCapsulesAt (run trace s) user
  = userCapsulesAt s user
      ++ List.filter
           (fun capsuleId => creator (capsuleAt (run trace s) capsuleId) =? user)
           (assigned trace s).
Proof.
  induction trace as [|tx trace IH]; intros s user Hwf; cbn [run assigned].
  - by rewrite app_nil_r.
  - rewrite IH by by apply wf_transact.
    rewrite userCapsulesAt_transact, <- app_assoc. f_equal.
    destruct (assignedBy tx s) as [capsuleId|] eqn:Hid; [|done].
    cbn [List.filter].
    destruct (run_content trace (transact tx s) capsuleId) as [-> _];
      [by apply wf_transact|by apply assigned_slot|].
    by destruct (_ =? user).
Qed.

End UserLists.

Section Outcomes.
Context `{fhe : FHEVM}.

Lemma transact_outcome tx s : tx_outcome tx s (transact tx s).
Proof.
  unfold transact.
  destruct (dispatch tx s) as [[r s']|e] eqn:Hd; [|by eapply outcome_reverted].
  destruct tx as [msg [chunks proofs uh up ut|capsuleId|capsuleId
                       |capsuleId recipient]].
  - rewrite dispatch_create, createTimeCapsule_eq in Hd. cbn zeta in Hd.
    destruct (0 <? N.of_nat (length chunks)) eqn:H1; cbn [negb] in Hd; [|done].
    destruct (N.of_nat (length chunks) =? N.of_nat (length proofs)) eqn:H2;
      cbn [negb] in Hd; [|done].
    destruct (timestamp msg <? ut) eqn:H3; cbn [negb] in Hd; [|done].
    destruct (nextCapsuleId s + 1 <=? MAX_UINT256) eqn:H4;
      cbn [negb] in Hd; [|done].
    destruct (inputsVerified msg chunks proofs uh up) eqn:H5;
      cbn [negb] in Hd; [|done].
    injection Hd as <- <-.
    apply N.ltb_lt in H1, H3. apply N.eqb_eq in H2. apply N.leb_le in H4.
    apply (outcome_created _ _ msg chunks proofs uh up ut); try done; [|lia].
    intros ->. cbn in H1. lia.
  - rewrite dispatch_cancel, cancelTimeCapsule_eq in Hd. cbn zeta in Hd.
    destruct (creator (capsuleAt s capsuleId) =? sender msg) eqn:H1;
      cbn [negb] in Hd; [|done].
    destruct (isActive (capsuleAt s capsuleId)) eqn:H2; cbn [negb] in Hd; [|done].
    destruct (isUnlocked (capsuleAt s capsuleId)) eqn:H3; [done|].
    injection Hd as <- <-. apply N.eqb_eq in H1.
    by apply (outcome_cancelled _ _ msg capsuleId).
  - rewrite dispatch_open, openTimeCapsule_eq in Hd. cbn zeta in Hd.
    destruct (isActive (capsuleAt s capsuleId)) eqn:H1; cbn [negb] in Hd; [|done].
    destruct (isUnlocked (capsuleAt s capsuleId)) eqn:H2; [done|].
    destruct (unlockTime (capsuleAt s capsuleId) <=? timestamp msg) eqn:H3;
      cbn [negb] in Hd; [|done].
    rewrite _openCapsule_eq in Hd. cbn zeta in Hd.
    injection Hd as <- <-. apply N.leb_le in H3.
    by apply (outcome_opened _ _ msg capsuleId).
  - rewrite dispatch_grant, grantDecryptionAccess_eq in Hd. cbn zeta in Hd.
    destruct (recipient =? 0) eqn:H1; [done|].
    destruct (isUnlocked (capsuleAt s capsuleId)) eqn:H2; cbn [negb] in Hd; [|done].
    destruct (creator (capsuleAt s capsuleId) =? sender msg) eqn:H3;
      cbn [negb] in Hd; [|done].
    injection Hd as <- <-. apply N.eqb_neq in H1. apply N.eqb_eq in H3.
    by apply (outcome_granted _ _ msg capsuleId recipient).
Qed.

End Outcomes.

Section Ledger.
Context `{fhe : FHEVM}.

Lemma capsule_step_frozen (W : Prop) c c' :
  capsule_step W c c' -> W -> isActive c = false -> c' = c.
Proof. intros [] HW Ha; done || congruence. Qed.

Lemma unlocked_written s capsuleId :
  isUnlocked (capsuleAt s capsuleId) = true ->
  timeCapsules s !! capsuleId <> None.
Proof. intros Hu Hnone. by rewrite (capsuleAt_None _ _ Hnone) in Hu. Qed.

Lemma unlocked_inactive s capsuleId :
  wf s -> isUnlocked (capsuleAt s capsuleId) = true ->
  isActive (capsuleAt s capsuleId) = false.
Proof.
  intros Hwf Hu. pose proof (wf_flags s Hwf capsuleId) as Hf.
  rewrite Hu in Hf. by destruct (isActive _).
Qed.

Lemma transact_frozen tx s capsuleId :
  wf s -> timeCapsules s !! capsuleId <> None ->
  isActive (capsuleAt s capsuleId) = false ->
  capsuleAt (transact tx s) capsuleId = capsuleAt s capsuleId.
Proof.
  intros Hwf Hw Ha.
  exact (capsule_step_frozen _ _ _
           (eff_capsule tx s (tx_effect_holds tx s Hwf) capsuleId) Hw Ha).
Qed.

Lemma run_frozen trace : forall s capsuleId,
  wf s -> timeCapsules s !! capsuleId <> None ->
  isActive (capsuleAt s capsuleId) = false ->
  capsuleAt (run trace s) capsuleId = capsuleAt s capsuleId.
Proof.
  induction trace as [|tx trace IH]; intros s capsuleId Hwf Hw Ha; [done|].
  cbn [run]. pose proof (transact_frozen tx s capsuleId Hwf Hw Ha) as Hsame.
  rewrite IH; [done|by apply wf_transact|by apply written_transact|].
  by rewrite Hsame.
Qed.

Lemma transact_grows tx s :
  acl s ⊆ acl (transact tx s)
  /\ events s `prefix_of` events (transact tx s)
  /\ nextCapsuleId s <= nextCapsuleId (transact tx s).
Proof.
  destruct (transact_outcome tx s); cbn [acl events nextCapsuleId];
    split_and!; try done; try set_solver; try (by eexists); lia.
Qed.

Lemma run_grows trace : forall s,
  acl s ⊆ acl (run trace s)
  /\ events s `prefix_of` events (run trace s)
  /\ nextCapsuleId s <= nextCapsuleId (run trace s).
Proof.
  induction trace as [|tx trace IH]; intros s; cbn [run]; [done|].
  destruct (IH (transact tx s)) as (Ha & He & Hn).
  destruct (transact_grows tx s) as (Ha' & He' & Hn').
  split_and!; [set_solver|by etrans|lia].
Qed.

Lemma elem_of_grantsTo h account recipient c :
  (h, account) ∈ grantsTo recipient c
  <-> account = recipient /\ h ∈ fieldHandles c.
Proof.
  unfold grantsTo. rewrite elem_of_list_to_set, list_elem_of_fmap. split.
  - intros (h' & [= -> ->] & Hin). done.
  - intros [-> Hin]. by exists h.
Qed.

Lemma elem_of_creationGrants h account msg chunks proofs unlockHandle unlockProof :
  (h, account) ∈ creationGrants msg chunks proofs unlockHandle unlockProof ->
  account = this.
Proof.
  unfold creationGrants. rewrite elem_of_list_to_set, list_elem_of_fmap.
  by intros (h' & [= -> ->] & _).
Qed.

Lemma creator_holds_transact tx s :
  wf s -> creator_holds s -> creator_holds (transact tx s).
Proof.
  intros Hwf Hinv capsuleId Hu.
  destruct (decide (isUnlocked (capsuleAt s capsuleId) = true)) as [Hold|Hnew].
  - rewrite transact_frozen;
      [|done|by apply unlocked_written|by apply unlocked_inactive].
    etrans; [by apply Hinv|]. apply transact_grows.
  - revert Hu. destruct (transact_outcome tx s) as [e He|msg chunks proofs uh up ut Htx
      |msg target Htx|msg target Htx ? ? ? c|msg target recipient Htx]; [done|..].
    + destruct (decide (nextCapsuleId s = capsuleId)) as [<-|Hne].
      * by rewrite capsuleAt_insert.
      * by rewrite capsuleAt_insert_ne.
    + destruct (decide (target = capsuleId)) as [<-|Hne].
      * rewrite capsuleAt_insert. cbn. congruence.
      * by rewrite capsuleAt_insert_ne.
    + destruct (decide (target = capsuleId)) as [<-|Hne].
      * rewrite capsuleAt_insert. intros _. cbn [acl]. set_solver.
      * by rewrite capsuleAt_insert_ne.
    + done.
Qed.

Lemma creator_holds_run trace : forall s,
  wf s -> creator_holds s -> creator_holds (run trace s).
Proof.
  induction trace as [|tx trace IH]; intros s Hwf Hinv; [done|].
  cbn [run]. apply IH; [by apply wf_transact|by apply creator_holds_transact].
Qed.

Lemma backed_transact tx s h account :
  wf s -> backed s h account -> backed (transact tx s) h account.
Proof.
  intros Hwf (capsuleId & Hu & Hh & He). exists capsuleId.
  rewrite transact_frozen;
    [|done|by apply unlocked_written|by apply unlocked_inactive].
  split_and!; try done.
  destruct (transact_grows tx s) as (_ & [k ->] & _).
  apply elem_of_app. by left.
Qed.

Lemma ledger_backed_transact tx s :
  wf s -> ledger_backed s -> ledger_backed (transact tx s).
Proof.
  intros Hwf Hinv h account.
  pose proof (backed_transact tx s h account Hwf) as Hkeep.
  revert Hkeep.
  destruct (transact_outcome tx s) as [e He|msg chunks proofs uh up ut Htx
    |msg target Htx|msg target Htx Ha Hu Hdue c|msg target recipient Htx Hr Hu Hc];
    cbn [acl]; intros Hkeep Hin.
  - by apply Hinv.
  - apply elem_of_union in Hin as [Hin|Hin].
    + left. by eapply elem_of_creationGrants.
    + destruct (Hinv _ _ Hin); auto.
  - destruct (Hinv _ _ Hin); auto.
  - assert (forall who,
      (who = creator c \/ who = sender msg) ->
      h ∈ fieldHandles c ->
      backed
        (mkState (<[target := c]> (timeCapsules s)) (userCapsules s)
           (nextCapsuleId s)
           ((if sender msg =? creator c then ∅ else grantsTo (sender msg) c)
            ∪ (grantsTo (creator c) c ∪ acl s))
           (events s ++ [grantedEvent target (creator c) c]
              ++ (if sender msg =? creator c then []
                  else [grantedEvent target (sender msg) c])
              ++ [CapsuleUnlocked target (creator c)]))
        h who) as Hnew.
    { intros who Hwho Hh. exists target. rewrite capsuleAt_insert.
      split_and!; [done|done|]. cbn [events].
      rewrite !elem_of_app, !list_elem_of_singleton.
      destruct (N.eqb_spec (sender msg) (creator c)) as [Heq|Hne].
      - right. left. destruct Hwho as [->| ->]; [done|by rewrite Heq].
      - destruct Hwho as [->| ->]; [by right; left|].
        right. right. left. by apply list_elem_of_singleton. }
    rewrite !elem_of_union in Hin. destruct Hin as [Hin|[Hin|Hin]].
    + destruct (sender msg =? creator c); [set_solver|].
      apply elem_of_grantsTo in Hin as [-> Hh]. right. apply Hnew; auto.
    + apply elem_of_grantsTo in Hin as [-> Hh]. right. apply Hnew; auto.
    + destruct (Hinv _ _ Hin); auto.
  - apply elem_of_union in Hin as [Hin|Hin].
    + apply elem_of_grantsTo in Hin as [-> Hh]. right. exists target.
      split_and!; [done|done|]. cbn [events]. apply elem_of_app. right.
      by apply list_elem_of_singleton.
    + destruct (Hinv _ _ Hin); auto.
Qed.

Lemma ledger_backed_run trace : forall s,
  wf s -> ledger_backed s -> ledger_backed (run trace s).
Proof.
  induction trace as [|tx trace IH]; intros s Hwf Hinv; [done|].
  cbn [run]. apply IH; [by apply wf_transact|by apply ledger_backed_transact].
Qed.

End Ledger.

Section History.
Context `{fhe : FHEVM}.

Lemma unlock_step tx s capsuleId :
  isUnlocked (capsuleAt s capsuleId) = false ->
  isUnlocked (capsuleAt (transact tx s) capsuleId) = true ->
  exists msg,
    tx = mkTx msg (OpenTimeCapsule capsuleId)
    /\ isActive (capsuleAt s capsuleId) = true
    /\ unlockTime (capsuleAt s capsuleId) <= timestamp msg
    /\ capsuleAt (transact tx s) capsuleId
       = openedCapsule (capsuleAt s capsuleId).
Proof.
  intros Hlocked.
  destruct (transact_outcome tx s) as [e He|msg chunks proofs uh up ut Htx
    |msg target Htx|msg target Htx Ha Hu Hdue c|msg target recipient Htx];
    [congruence|..|unfold capsuleAt in *; cbn [timeCapsules]; congruence].
  - destruct (decide (nextCapsuleId s = capsuleId)) as [<-|Hne].
    + by rewrite capsuleAt_insert.
    + rewrite capsuleAt_insert_ne by done. unfold capsuleAt in Hlocked. congruence.
  - destruct (decide (target = capsuleId)) as [<-|Hne].
    + rewrite capsuleAt_insert. cbn. congruence.
    + rewrite capsuleAt_insert_ne by done. unfold capsuleAt in Hlocked. congruence.
  - destruct (decide (target = capsuleId)) as [<-|Hne].
    + rewrite capsuleAt_insert. intros _. by exists msg.
    + rewrite capsuleAt_insert_ne by done. unfold capsuleAt in Hlocked. congruence.
Qed.

Lemma run_snoc trace tx s : run (trace ++ [tx]) s = transact tx (run trace s).
Proof. by rewrite run_app. Qed.

Lemma written_assigned trace capsuleId :
  timeCapsules (run trace deployed) !! capsuleId <> None
  <-> capsuleId ∈ assigned trace deployed.
Proof.
  split; [|apply assigned_written, wf_deployed].
  intros Hw. pose proof (wf_run trace deployed wf_deployed) as Hwf.
  destruct (assigned_from_deployment trace) as [Hseq Hnext].
  rewrite Hseq. apply list_elem_of_fmap. exists (N.to_nat capsuleId).
  assert (capsuleId <> 0 /\ capsuleId < nextCapsuleId (run trace deployed))
    as [Hz Hlt].
  { split.
    - intros ->. apply Hw. apply wf_unassigned; auto.
    - apply N.lt_nge. intros Hge. apply Hw. apply wf_unassigned; auto. }
  split; [lia|]. apply list_elem_of_In, in_seq. lia.
Qed.

Lemma log_agrees_deployed : log_agrees deployed.
Proof.
  split_and!; intros; cbn; split; try (by intros ?%elem_of_nil);
    unfold capsuleAt; cbn; rewrite ?lookup_empty, ?lookup_total_empty;
    naive_solver.
Qed.

Ltac use_flags :=
  repeat match goal with
         | H : isActive _ = _ |- _ => rewrite H
         | H : isUnlocked _ = _ |- _ => rewrite H
         | H : capsuleAt _ _ = emptyCapsule |- _ => rewrite H
         end.

Ltac clear_log :=
  repeat match goal with
         | H : forall _ : N, _ |- _ => clear H
         end.

Ltac log_case H :=
  rewrite H; cbn; use_flags; cbn; clear_log;
  first [ solve [intuition congruence] | naive_solver ].

Lemma log_agrees_transact tx s :
  wf s -> log_agrees s -> log_agrees (transact tx s).
Proof.
  intros Hwf (Hcreated & Hcancelled & Hunlocked).
  destruct (transact_outcome tx s) as [e He|msg chunks proofs uh up ut Htx
    |msg target Htx Hc Ha Hu|msg target Htx Ha Hu Hdue c
    |msg target recipient Htx]; [done|..].
  - assert (timeCapsules s !! nextCapsuleId s = None) as Hfresh
      by (apply wf_unassigned; [done|right; lia]).
    pose proof (capsuleAt_None _ _ Hfresh) as Hempty.
    split_and!; intros capsuleId; intros; cbn [events timeCapsules];
      rewrite elem_of_app, list_elem_of_singleton;
      (destruct (decide (nextCapsuleId s = capsuleId)) as [<-|Hne];
       [rewrite capsuleAt_insert, ?lookup_insert_eq
       |rewrite capsuleAt_insert_ne, ?lookup_insert_ne by done;
        change (timeCapsules s !!! capsuleId) with (capsuleAt s capsuleId)]).
    + log_case Hcreated.
    + log_case Hcreated.
    + log_case Hcancelled.
    + log_case Hcancelled.
    + log_case Hunlocked.
    + log_case Hunlocked.
  - pose proof (active_written _ _ Ha) as Hw.
    split_and!; intros capsuleId; intros; cbn [events timeCapsules];
      rewrite elem_of_app, list_elem_of_singleton;
      (destruct (decide (target = capsuleId)) as [<-|Hne];
       [rewrite capsuleAt_insert, ?lookup_insert_eq
       |rewrite capsuleAt_insert_ne, ?lookup_insert_ne by done;
        change (timeCapsules s !!! capsuleId) with (capsuleAt s capsuleId)]).
    + log_case Hcreated.
    + log_case Hcreated.
    + log_case Hcancelled.
    + log_case Hcancelled.
    + log_case Hunlocked.
    + log_case Hunlocked.
  - pose proof (active_written _ _ Ha) as Hw.
    assert (forall e : Event,
      e ∈ events s ++ [grantedEvent target (creator c) c]
            ++ (if sender msg =? creator c then []
                else [grantedEvent target (sender msg) c])
            ++ [CapsuleUnlocked target (creator c)]
      <-> e ∈ events s
          \/ e = grantedEvent target (creator c) c
          \/ (sender msg <> creator c /\ e = grantedEvent target (sender msg) c)
          \/ e = CapsuleUnlocked target (creator c)) as Hlog.
    { intros e. rewrite !elem_of_app, !list_elem_of_singleton.
      destruct (N.eqb_spec (sender msg) (creator c)).
      - rewrite elem_of_nil. (clear_log; naive_solver).
      - rewrite list_elem_of_singleton. (clear_log; naive_solver). }
    split_and!; intros capsuleId; intros; cbn [events timeCapsules];
      rewrite Hlog; unfold grantedEvent;
      (destruct (decide (target = capsuleId)) as [<-|Hne];
       [rewrite capsuleAt_insert, ?lookup_insert_eq
       |rewrite capsuleAt_insert_ne, ?lookup_insert_ne by done;
        change (timeCapsules s !!! capsuleId) with (capsuleAt s capsuleId)]).
    + log_case Hcreated.
    + log_case Hcreated.
    + log_case Hcancelled.
    + log_case Hcancelled.
    + log_case Hunlocked.
    + log_case Hunlocked.
  - split_and!; intros capsuleId; intros; cbn [events];
      rewrite elem_of_app, list_elem_of_singleton; unfold grantedEvent;
      change (capsuleAt (mkState (timeCapsules s) _ _ _ _) capsuleId)
        with (capsuleAt s capsuleId); cbn [timeCapsules].
    + log_case Hcreated.
    + log_case Hcancelled.
    + log_case Hunlocked.
Qed.

Lemma log_agrees_run trace : forall s,
  wf s -> log_agrees s -> log_agrees (run trace s).
Proof.
  induction trace as [|tx trace IH]; intros s Hwf Hinv; [done|].
  cbn [run]. apply IH; [by apply wf_transact|by apply log_agrees_transact].
Qed.

End History.

Section ChunkValues.
Context `{rt : Runtime}.

Lemma digitsOf_app a b : digitsOf (a ++ b) = digitsOf a ++ digitsOf b.
Proof. unfold digitsOf. by rewrite flat_map_app. Qed.

Lemma bigEndianBytes_length k : forall n, length (bigEndianBytes k n) = k.
Proof.
  induction k as [|k IH]; intros n; cbn [bigEndianBytes]; [done|].
  rewrite length_app, IH. cbn. lia.
Qed.

Lemma digitsValue_bigEndianBytes k : forall n,
  digitsValue (digitsOf (bigEndianBytes k n)) = n mod 256 ^ N.of_nat k.
Proof.
  induction k as [|k IH]; intros n; cbn [bigEndianBytes].
  - cbn. by rewrite N.mod_1_r.
  - rewrite digitsOf_app. cbn [digitsOf flat_map app].
    change (digitsOf (bigEndianBytes k (n / 256))
              ++ [Byte.to_N (toUint8 n) / 16; Byte.to_N (toUint8 n) mod 16])
      with (digitsOf (bigEndianBytes k (n / 256))
              ++ [Byte.to_N (toUint8 n) / 16] ++ [Byte.to_N (toUint8 n) mod 16]).
    rewrite app_assoc, !digitsValue_snoc, IH, toUint8_value.
    rewrite Nat2N.inj_succ, N.pow_succ_r', N.Div0.mod_mul_r.
    pose proof (N.div_mod' (n mod 256) 16). lia.
Qed.

Lemma chunk_of_value (v : Z) :
  (0 <= v < 2 ^ 256)%Z ->
  let chunk := bigEndianBytes BYTES_PER_CHUNK (Z.to_N v) in
  length chunk = BYTES_PER_CHUNK
  /\ valueToBytes32 (VBigInt v) = Normal (Some chunk)
  /\ bytesToBigInt chunk = Normal v.
Proof.
  intros Hv chunk.
  assert (length chunk = BYTES_PER_CHUNK) as Hlen by apply bigEndianBytes_length.
  assert (Z.of_N (digitsValue (digitsOf chunk)) = v) as Hvalue.
  { unfold chunk. rewrite digitsValue_bigEndianBytes.
    change (256 ^ N.of_nat BYTES_PER_CHUNK) with (2 ^ 256).
    rewrite N.mod_small; [lia|].
    apply N2Z.inj_lt. rewrite Z2N.id by lia. 
    change (Z.of_N (2 ^ 256)) with (2 ^ 256)%Z. lia. }
  split_and!; [done| |].
  - rewrite <- Hvalue at 1. by apply valueToBytes32_chunk.
  - rewrite bytesToBigInt_value; [by rewrite Hvalue|].
    intros Hnil. by rewrite Hnil in Hlen.
Qed.

Lemma hexPairs_length hex : forall bytes,
  hexPairs hex = Some bytes -> length hex = (2 * length bytes)%nat.
Proof.
  induction hex as [hex IH] using (induction_ltof1 _ (@length _)).
  unfold ltof in IH. intros bytes.
  destruct hex as [|h [|l rest]]; cbn [hexPairs]; [by intros [= <-]|done|].
  destruct (digitValue h); cbn; [|done].
  destruct (digitValue l); cbn; [|done].
  destruct (Byte.of_N _); cbn; [|done].
  destruct (hexPairs rest) as [bs|] eqn:Hrest; cbn; [|done].
  intros [= <-]. cbn [length]. rewrite (IH rest ltac:(cbn; lia) bs Hrest). lia.
Qed.

Lemma valueToBytes32_length value :
  match valueToBytes32 value with
  | Normal (Some bytes) => length bytes = BYTES_PER_CHUNK
  | Normal None => False
  | Throw _ => True
  end.
Proof.
  destruct value as [s|z|b]; cbn [valueToBytes32].
  - destruct (ethers_getBytes _) as [bytes|]; cbn [mbind js_bind]; [|done].
    destruct (decide (length bytes = BYTES_PER_CHUNK)); [done|].
    destruct (decide (BYTES_PER_CHUNK < length bytes)%nat).
    + unfold Uint8Array_slice. rewrite length_take, length_drop. lia.
    + unfold Uint8Array_new.
      rewrite Uint8Array_set_fits by (rewrite repeat_length; lia).
      cbn [fmap js_fmap]. rewrite !length_app, length_take, length_drop,
        repeat_length. lia.
  - set (hex := padStart0 _ _).
    assert (length hex = 64%nat) as Hhex.
    { unfold hex, padStart0, sliceLast. rewrite length_app, repeat_length,
        length_drop. unfold BYTES_PER_CHUNK. lia. }
    unfold ethers_getBytes. cbn [str list_ascii_of_string app].
    rewrite bool_decide_eq_true_2 by by left.
    destruct (hexPairs hex) as [bytes|] eqn:Hpairs; cbn [fmap js_fmap]; [|done].
    apply hexPairs_length in Hpairs. unfold BYTES_PER_CHUNK. lia.
  - unfold Uint8Array_new. by rewrite length_insert, repeat_length.
Qed.

Lemma collectChunks_inv (handles : list jsString)
    (results : gmap jsString DecryptedValue) :
  forall chunks out,
    collectChunks handles results chunks = Normal (Some out) ->
    exists blocks,
      out = chunks ++ blocks
      /\ Forall2 (fun handle block =>
             exists value,
               results !! toLowerCase handle = Some value
               /\ valueToBytes32 value = Normal (Some block)) handles blocks.
Proof.
  induction handles as [|handle handles IH]; intros chunks out;
    cbn [collectChunks].
  - intros [= <-]. exists []. by rewrite app_nil_r.
  - destruct (results !! toLowerCase handle) as [value|] eqn:Hres; [|done].
    destruct (valueToBytes32 value) as [[block|]|] eqn:Hvalue;
      cbn [mbind js_bind]; [|done..].
    intros (blocks & -> & Hall)%IH. exists (block :: blocks).
    rewrite <- app_assoc. split; [done|]. constructor; eauto.
Qed.

Lemma collectChunks_wellTyped (handles : list jsString)
    (results : gmap jsString DecryptedValue) :
  (forall handle value,
     handle ∈ handles -> results !! toLowerCase handle = Some value ->
     wellTyped value) ->
  forall chunks,
    exists r,
      collectChunks handles results chunks = Normal r
      /\ (Exists (fun handle => results !! toLowerCase handle = None) handles ->
          r = None).
Proof.
  induction handles as [|handle handles IH]; intros Htyped chunks;
    cbn [collectChunks].
  - eexists. split; [done|]. by intros ?%Exists_nil.
  - destruct (results !! toLowerCase handle) as [value|] eqn:Hres;
      [|by eexists].
    assert (exists block, valueToBytes32 value = Normal (Some block))
      as [block ->].
    { specialize (Htyped handle value ltac:(by left) Hres).
      destruct value as [s|z|b]; [done| |by eexists].
      destruct (chunk_of_value z Htyped) as (_ & ? & _). by eexists. }
    cbn [mbind js_bind].
    destruct (IH ltac:(intros h v ?; apply Htyped; by right)
                (chunks ++ [block])) as (r & -> & Hnone).
    exists r. split; [done|]. intros [Hhere|Hlater]%Exists_cons; [congruence|auto].
Qed.

End ChunkValues.

Lemma succeeds_open `{FHEVM} msg capsuleId s :
  succeeds (openTimeCapsule msg capsuleId s)
  = isActive (capsuleAt s capsuleId)
    && negb (isUnlocked (capsuleAt s capsuleId))
    && (unlockTime (capsuleAt s capsuleId) <=? timestamp msg).
Proof.
  rewrite openTimeCapsule_eq. cbn zeta.
  destruct (isActive _), (isUnlocked _), (_ <=? _); cbn [negb andb]; try done.
  by rewrite _openCapsule_eq.
Qed.

Lemma created_state `{FHEVM} trace msg chunks proofs unlockHandle unlockProof ut
    capsuleId s' :
  createTimeCapsule msg chunks proofs unlockHandle unlockProof ut
    (run trace deployed) = Ok (capsuleId, s') ->
  wf s'
  /\ length chunks = length proofs
  /\ chunks <> []
  /\ timestamp msg < ut
  /\ timeCapsules s' !! capsuleId <> None
  /\ capsuleAt s' capsuleId
     = createdCapsule msg chunks proofs unlockHandle unlockProof ut emptyCapsule
  /\ capsuleId ∈ userCapsulesAt s' (sender msg).
Proof.
  intros Hcreate. set (s := run trace deployed) in *.
  pose proof (wf_run trace deployed wf_deployed) as Hwf. fold s in Hwf.
  assert (transact
            (mkTx msg (CreateTimeCapsule chunks proofs unlockHandle unlockProof ut))
            s = s') as Htransact.
  { unfold transact. by rewrite dispatch_create, Hcreate. }
  split; [rewrite <- Htransact; by apply wf_transact|].
  rewrite createTimeCapsule_eq in Hcreate. cbn zeta in Hcreate.
  destruct (N.ltb_spec 0 (N.of_nat (length chunks))) as [Hsome|];
    cbn [negb] in Hcreate; [|done].
  destruct (N.eqb_spec (N.of_nat (length chunks)) (N.of_nat (length proofs)));
    cbn [negb] in Hcreate; [|done].
  destruct (N.ltb_spec (timestamp msg) ut); cbn [negb] in Hcreate; [|done].
  destruct (_ <=? MAX_UINT256); cbn [negb] in Hcreate; [|done].
  destruct (inputsVerified _ _ _ _ _); cbn [negb] in Hcreate; [|done].
  injection Hcreate as <- <-.
  destruct (assigned_fresh trace) as [Hfresh _]. fold s in Hfresh.
  rewrite capsuleAt_insert, (capsuleAt_None _ _ Hfresh).
  cbn [timeCapsules]. rewrite lookup_insert_eq.
  split_and!; [lia| |done|done|done|].
  { intros ->. cbn in Hsome. lia. }
  unfold userCapsulesAt at 1. cbn [userCapsules]. rewrite lookup_insert_eq.
  cbn. apply elem_of_app. right. by apply list_elem_of_singleton.
Qed.

Lemma counted_ids `{FHEVM} trace :
  map (fun k => 1 + N.of_nat k)
    (seq 0 (N.to_nat (nextCapsuleId (run trace deployed) - 1)))
  = assigned trace deployed.
Proof.
  destruct (assigned_from_deployment trace) as [Hseq Hnext].
  rewrite Hnext.
  replace (N.to_nat (N.of_nat (length (assigned trace deployed)) + 1 - 1))
    with (length (assigned trace deployed)) by lia.
  etrans; [|symmetry; exact Hseq].
  rewrite <- seq_shift, map_map. apply map_ext. intros k. lia.
Qed.

(** ** The views *)

(** X1: [getEncryptedMessage] never aborts.  It returns the chunk handles
    stored for the capsule, in storage order, exactly as many as
    [getTimeCapsule] reports as [messageLength]; for an id whose slot was
    never written it returns the empty array. *)
Theorem getEncryptedMessage_spec (s : State) (capsuleId : N) :
  exists chunks,
    getEncryptedMessage s capsuleId = Ok chunks
    /\ chunks = encryptedMessage (capsuleAt s capsuleId)
    /\ (exists who ut active unlocked,
          getTimeCapsule s capsuleId
          = (who, ut, active, unlocked, N.of_nat (length chunks)))
    /\ (timeCapsules s !! capsuleId = None -> chunks = []).
Proof.
  eexists. split_and!; [apply getEncryptedMessage_eq|done| |].
  - unfold getTimeCapsule. cbn zeta. eauto.
  - intros Hnone. by rewrite (capsuleAt_None _ _ Hnone).
Qed.

Lemma getEncryptedMessage_spec_witness :
  getEncryptedMessage (@run mockFHEVM [txCreate 0] deployed) 2 = Ok [].
Proof.
  destruct (getEncryptedMessage_spec (@run mockFHEVM [txCreate 0] deployed) 2)
    as (chunks & Hchunks & _ & _ & Hnone).
  rewrite Hchunks, Hnone; [reflexivity|]. vm_compute. reflexivity.
Defined.

(** X2: what a successful [createTimeCapsule] stored is what the views return
    from then on, whatever transactions follow: [getEncryptedMessage] returns
    the admitted chunks in the order they were submitted, one per submitted
    chunk; [getTimeCapsule] returns the caller as creator, the unlock time and
    the number of chunks; [getEncryptedCapsuleMetadata] returns the encrypted
    creator and the admitted unlock-time handle; and the new id is listed by
    [getUserCapsules] for the caller. *)
Theorem created_capsule_views `{FHEVM} (trace later : list Tx) (msg : Msg)
    (chunks : list handle) (proofs : list bytes) (unlockHandle : handle)
    (unlockProof : bytes) (ut capsuleId : N) (s' : State) :
  createTimeCapsule msg chunks proofs unlockHandle unlockProof ut
    (run trace deployed) = Ok (capsuleId, s') ->
  let s'' := run later s' in
  getEncryptedMessage s'' capsuleId = Ok (zip_with fromExternal chunks proofs)
  /\ length (zip_with fromExternal chunks proofs) = length chunks
  /\ (exists active unlocked,
        getTimeCapsule s'' capsuleId
        = (sender msg, ut, active, unlocked, N.of_nat (length chunks)))
  /\ (exists activeHandle unlockedHandle,
        getEncryptedCapsuleMetadata s'' capsuleId
        = (asEaddress (sender msg), fromExternal unlockHandle unlockProof,
           activeHandle, unlockedHandle))
  /\ capsuleId ∈ getUserCapsules s'' (sender msg).
Proof.
  intros Hcreate s''.
  destruct (created_state _ _ _ _ _ _ _ _ _ Hcreate)
    as (Hwf & Hlen & _ & _ & Hw & Hc & Hlisted).
  destruct (run_content later s' capsuleId Hwf Hw)
    as (Hcr & Hut & Hm & Hec & Heu).
  fold s'' in Hcr, Hut, Hm, Hec, Heu. rewrite Hc in Hcr, Hut, Hm, Hec, Heu.
  cbn in Hcr, Hut, Hm, Hec, Heu.
  assert (length (zip_with fromExternal chunks proofs) = length chunks) as Hzip.
  { rewrite length_zip_with. lia. }
  split_and!.
  - by rewrite getEncryptedMessage_eq, Hm.
  - done.
  - unfold getTimeCapsule. cbn zeta. rewrite Hcr, Hut, Hm, Hzip. eauto.
  - unfold getEncryptedCapsuleMetadata. cbn zeta. rewrite Hec, Heu. eauto.
  - unfold getUserCapsules, s''. rewrite userCapsulesAt_run by done.
    apply elem_of_app. by left.
Qed.

Lemma created_capsule_views_witness :
  getEncryptedMessage
    (@run mockFHEVM [txOpen bob 3600; txGrant alice charlie 3700]
       (@run mockFHEVM [txCreate 0] deployed)) 1
  = Ok [101; 202; 303].
Proof.
  apply (@created_capsule_views mockFHEVM [] _ (mkMsg alice 0) [101; 202; 303]
           [validProof; validProof; validProof] 500 validProof 3600 1
           (@run mockFHEVM [txCreate 0] deployed)).
  vm_compute. reflexivity.
Defined.

(** X3: in every state reachable from deployment, [getUserCapsules] returns
    for a user exactly the ids of the capsules whose creator is that user, in
    the order of their creation and without repetition. *)
Theorem getUserCapsules_spec `{FHEVM} (trace : list Tx) (user : address) :
  let s := run trace deployed in
  getUserCapsules s user
  = List.filter (fun capsuleId => creator (capsuleAt s capsuleId) =? user)
      (assigned trace deployed)
  /\ NoDup (getUserCapsules s user).
Proof.
  cbn zeta. unfold getUserCapsules.
  rewrite userCapsulesAt_run by apply wf_deployed.
  change (userCapsulesAt deployed user) with (@nil N). cbn [app].
  split; [done|]. apply NoDup_ListNoDup, List.NoDup_filter.
  destruct (assigned_from_deployment trace) as [-> _].
  apply NoDup_ListNoDup, NoDup_fmap_2; [intros ? ? ?; lia|].
  apply NoDup_ListNoDup, seq_NoDup.
Qed.

(** X4: in every state reachable from deployment, [getActiveCapsulesByUser]
    does not abort and returns the ids of [getUserCapsules] whose capsule is
    active, in the same order: an id is returned exactly when its capsule is
    active and was created by the user. *)
Theorem getActiveCapsulesByUser_spec `{FHEVM} (trace : list Tx) (user : address) :
  let s := run trace deployed in
  exists activeCapsules,
    getActiveCapsulesByUser s user = Ok activeCapsules
    /\ activeCapsules
       = List.filter (fun capsuleId => isActive (capsuleAt s capsuleId))
           (getUserCapsules s user)
    /\ forall capsuleId,
         capsuleId ∈ activeCapsules
         <-> isActive (capsuleAt s capsuleId) = true
             /\ creator (capsuleAt s capsuleId) = user.
Proof.
  cbn zeta. pose proof (wf_run trace deployed wf_deployed) as Hwf.
  assert (userCapsulesAt (run trace deployed) user
          = List.filter
              (fun capsuleId =>
                 creator (capsuleAt (run trace deployed) capsuleId) =? user)
              (assigned trace deployed)) as Hlist.
  { rewrite userCapsulesAt_run by apply wf_deployed.
    by change (userCapsulesAt deployed user) with (@nil N). }
  eexists. split_and!; [|done|].
  - apply getActiveCapsulesByUser_eq.
    destruct (assigned_from_deployment trace) as [_ Hnext].
    pose proof (wf_next_max _ Hwf) as Hmax. rewrite Hlist.
    pose proof (List.filter_length_le
                  (fun capsuleId =>
                     creator (capsuleAt (run trace deployed) capsuleId) =? user)
                  (assigned trace deployed)).
    lia.
  - intros capsuleId. unfold getUserCapsules. rewrite Hlist.
    rewrite !list_elem_of_In, !List.filter_In, <- !list_elem_of_In.
    rewrite N.eqb_eq, <- written_assigned. split; [tauto|].
    intros [Ha Hc]. split_and!; [|done..]. by apply active_written.
Qed.

(** X5: in every state reachable from deployment,
    [getExpiredCapsulesCount] does not abort and returns the number of
    capsule ids on which [openTimeCapsule] would succeed at the same block
    timestamp. *)
Theorem getExpiredCapsulesCount_spec `{FHEVM} (trace : list Tx) (msg : Msg) :
  let s := run trace deployed in
  getExpiredCapsulesCount msg s
  = Ok (N.of_nat
          (length
             (List.filter
                (fun capsuleId => succeeds (openTimeCapsule msg capsuleId s))
                (assigned trace deployed)))).
Proof.
  cbn zeta. pose proof (wf_run trace deployed wf_deployed) as Hwf.
  rewrite getExpiredCapsulesCount_eq by apply (wf_next_max _ Hwf).
  rewrite counted_ids. do 3 f_equal.
  apply List.filter_ext. intros capsuleId. by rewrite succeeds_open.
Qed.

(** X6: when [loadStatistics] reads both counters from one reachable state,
    it returns statistics in which [totalCapsules] is the number of capsules
    created, [expiredCapsules] the number on which [openTimeCapsule] would
    succeed, and [activeCapsules] the number of all the others - cancelled and
    unlocked capsules included; the difference is never clamped. *)
Theorem loadStatistics_spec `{FHEVM} (trace : list Tx) (msg : Msg) :
  let s := run trace deployed in
  let due := fun capsuleId => succeeds (openTimeCapsule msg capsuleId s) in
  exists statistics,
    loadStatistics (getTotalCapsules s) (getExpiredCapsulesCount msg s)
    = Some statistics
    /\ totalCapsules statistics
       = Z.of_nat (length (assigned trace deployed))
    /\ expiredCapsules statistics
       = Z.of_nat (length (List.filter due (assigned trace deployed)))
    /\ activeCapsules statistics
       = Z.of_nat
           (length
              (List.filter (fun capsuleId => negb (due capsuleId))
                 (assigned trace deployed)))
    /\ (activeCapsules statistics + expiredCapsules statistics
        = totalCapsules statistics)%Z.
Proof.
  cbn zeta.
  destruct (assigned_from_deployment trace) as [_ Hnext].
  pose proof (wf_run trace deployed wf_deployed) as Hwf.
  assert (getTotalCapsules (run trace deployed)
          = Ok (N.of_nat (length (assigned trace deployed)))) as ->.
  { unfold getTotalCapsules, checked_sub. rewrite Hnext.
    replace (1 <=? N.of_nat (length (assigned trace deployed)) + 1) with true
      by (symmetry; apply N.leb_le; lia).
    f_equal. lia. }
  rewrite getExpiredCapsulesCount_eq by apply (wf_next_max _ Hwf).
  rewrite counted_ids.
  set (due := fun capsuleId =>
                succeeds (openTimeCapsule msg capsuleId (run trace deployed))).
  erewrite List.filter_ext;
    [|intros capsuleId; symmetry; apply succeeds_open].
  fold due.
  pose proof (List.filter_length due (assigned trace deployed)) as Hsplit.
  unfold loadStatistics. cbn zeta. eexists. split; [done|].
  cbn [totalCapsules expiredCapsules activeCapsules].
  rewrite !nat_N_Z. subst due. cbn beta in *.
  destruct (Z.ltb_spec
              (Z.of_nat
                 (length
                    (List.filter
                       (fun capsuleId =>
                          succeeds
                            (openTimeCapsule msg capsuleId (run trace deployed)))
                       (assigned trace deployed))))
              (Z.of_nat (length (assigned trace deployed)))); lia.
Qed.

Lemma assigned_split `{FHEVM} trace : forall s capsuleId,
  capsuleId ∈ assigned trace s ->
  exists before tx after,
    trace = before ++ tx :: after
    /\ assignedBy tx (run before s) = Some capsuleId.
Proof.
  induction trace as [|tx trace IH]; intros s capsuleId; cbn [assigned].
  - by intros ?%elem_of_nil.
  - intros Hin.
    assert (assignedBy tx s = Some capsuleId
            \/ capsuleId ∈ assigned trace (transact tx s)) as [Hhere|Hlater].
    { destruct (assignedBy tx s); [|by right].
      apply elem_of_cons in Hin as [->|Hin]; auto. }
    + by exists [], tx, trace.
    + destruct (IH _ _ Hlater) as (before & tx' & after & -> & Hid).
      by exists (tx :: before), tx', after.
Qed.

Lemma assignedBy_create `{FHEVM} tx s capsuleId :
  assignedBy tx s = Some capsuleId ->
  exists msg chunks proofs unlockHandle unlockProof ut,
    tx = mkTx msg (CreateTimeCapsule chunks proofs unlockHandle unlockProof ut)
    /\ createTimeCapsule msg chunks proofs unlockHandle unlockProof ut s
       = Ok (capsuleId, transact tx s).
Proof.
  unfold assignedBy, transact.
  destruct tx as [msg [chunks proofs uh up ut|target|target|target recipient]].
  - rewrite dispatch_create.
    destruct (createTimeCapsule _ _ _ _ _ _ s) as [[id s']|] eqn:Hcreate;
      [|done].
    intros [= ->]. by exists msg, chunks, proofs, uh, up, ut.
  - rewrite dispatch_cancel.
    by destruct (cancelTimeCapsule _ _ s) as [[? ?]|]; cbn.
  - rewrite dispatch_open.
    by destruct (openTimeCapsule _ _ s) as [[? ?]|]; cbn.
  - rewrite dispatch_grant.
    by destruct (grantDecryptionAccess _ _ _ s) as [[? ?]|]; cbn.
Qed.

(** X7: [getTimeCapsule] tells whether a capsule exists.  In every state
    reachable from deployment, the [messageLength] it returns for an id is
    positive exactly when the id has been handed out by a successful
    creation, and so is the unlock timestamp it returns. *)
Theorem getTimeCapsule_existence `{FHEVM} (trace : list Tx) (capsuleId : N)
    (who : address) (unlockTimestamp : N) (active unlocked : bool)
    (messageLength : N) :
  getTimeCapsule (run trace deployed) capsuleId
  = (who, unlockTimestamp, active, unlocked, messageLength) ->
  (capsuleId ∈ assigned trace deployed <-> 0 < messageLength)
  /\ (capsuleId ∈ assigned trace deployed <-> 0 < unlockTimestamp).
Proof.
  set (s := run trace deployed). unfold getTimeCapsule. cbn zeta.
  intros [= _ <- _ _ <-].
  assert (capsuleId ∈ assigned trace deployed ->
          encryptedMessage (capsuleAt s capsuleId) <> []
          /\ 0 < unlockTime (capsuleAt s capsuleId)) as Hcreated.
  { intros Hin.
    destruct (assigned_split trace deployed capsuleId Hin)
      as (before & tx & after & Htrace & Hid).
    destruct (assignedBy_create _ _ _ Hid)
      as (msg & chunks & proofs & uh & up & ut & -> & Hcreate).
    destruct (created_state _ _ _ _ _ _ _ _ _ Hcreate)
      as (Hwf & Hlen & Hsome & Hfuture & Hw & Hc & _).
    destruct (run_content after _ capsuleId Hwf Hw) as (_ & Hut & Hm & _).
    assert (s = run after
                  (transact
                     (mkTx msg (CreateTimeCapsule chunks proofs uh up ut))
                     (run before deployed))) as ->.
    { unfold s. by rewrite Htrace, run_app. }
    rewrite Hut, Hm, Hc. cbn. split; [|lia].
    destruct chunks, proofs; done. }
  assert (capsuleAt s capsuleId <> emptyCapsule ->
          capsuleId ∈ assigned trace deployed) as Hwritten.
  { intros Hne. apply written_assigned. intros Hnone.
    by apply Hne, capsuleAt_None. }
  split_and!; split.
  - intros [Hm _]%Hcreated. destruct (encryptedMessage _); [done|cbn; lia].
  - intros Hpos. apply Hwritten. intros Hempty. rewrite Hempty in Hpos.
    cbn in Hpos. lia.
  - by intros [_ Hut]%Hcreated.
  - intros Hpos. apply Hwritten. intros Hempty. rewrite Hempty in Hpos.
    cbn in Hpos. lia.
Qed.

Lemma getTimeCapsule_existence_witness :
  (2 ∈ @assigned mockFHEVM [txCreate 0; txOpen bob 3600; txCreate 3700] deployed
   <-> 0 < 3)
  /\ (2 ∈ @assigned mockFHEVM [txCreate 0; txOpen bob 3600; txCreate 3700]
             deployed
      <-> 0 < 7300).
Proof.
  apply (@getTimeCapsule_existence mockFHEVM
           [txCreate 0; txOpen bob 3600; txCreate 3700] 2 alice 7300 true false
           3).
  vm_compute. reflexivity.
Defined.

(** ** Lifecycle and permissions *)

(** X8: a capsule that is no longer active - cancelled or unlocked - is
    final.  Its record never changes again, whatever transactions follow;
    every later [openTimeCapsule] on it reverts with ["Capsule is not
    active"], every later [cancelTimeCapsule] fails, and if it was cancelled
    no later [grantDecryptionAccess] on it succeeds. *)
Theorem inactive_capsule_final `{FHEVM} (trace later : list Tx) (capsuleId : N) :
  let s := run trace deployed in
  capsuleId ∈ assigned trace deployed ->
  isActive (capsuleAt s capsuleId) = false ->
  capsuleAt (run later s) capsuleId = capsuleAt s capsuleId
  /\ (forall msg,
        openTimeCapsule msg capsuleId (run later s)
        = Err (Revert "Capsule is not active"))
  /\ (forall msg,
        succeeds (cancelTimeCapsule msg capsuleId (run later s)) = false)
  /\ (isUnlocked (capsuleAt s capsuleId) = false ->
      forall msg recipient,
        succeeds (grantDecryptionAccess msg capsuleId recipient (run later s))
        = false).
Proof.
  intros s Hin Ha.
  pose proof (wf_run trace deployed wf_deployed) as Hwf.
  pose proof (assigned_written trace deployed capsuleId wf_deployed Hin) as Hw.
  pose proof (run_frozen later s capsuleId Hwf Hw Ha) as Hsame.
  split_and!; [done|..].
  - intros msg. rewrite openTimeCapsule_eq. cbn zeta. by rewrite Hsame, Ha.
  - intros msg. rewrite cancelTimeCapsule_eq. cbn zeta. rewrite Hsame, Ha.
    by destruct (_ =? _).
  - intros Hu msg recipient. rewrite grantDecryptionAccess_eq. cbn zeta.
    rewrite Hsame, Hu. by destruct (_ =? _).
Qed.

Lemma inactive_capsule_final_witness :
  @openTimeCapsule mockFHEVM (mkMsg bob 9999) 1
    (@run mockFHEVM [txCreate 5; txOpen bob 9000]
       (@run mockFHEVM [txCreate 0; txCancel alice 1] deployed))
  = Err (Revert "Capsule is not active").
Proof.
  apply (@inactive_capsule_final mockFHEVM [txCreate 0; txCancel alice 1]
           [txCreate 5; txOpen bob 9000] 1).
  - vm_compute. by repeat constructor.
  - vm_compute. reflexivity.
Defined.

(** X9: no capsule is unlocked ahead of time.  If a capsule is unlocked in a
    state reached from deployment, the transactions that led there contain an
    [openTimeCapsule] on that capsule which succeeded, at a block timestamp
    not earlier than the unlock time of the capsule. *)
Theorem unlocked_only_by_due_open `{FHEVM} (trace : list Tx) (capsuleId : N) :
  isUnlocked (capsuleAt (run trace deployed) capsuleId) = true ->
  exists before msg after,
    trace = before ++ mkTx msg (OpenTimeCapsule capsuleId) :: after
    /\ succeeds (openTimeCapsule msg capsuleId (run before deployed)) = true
    /\ unlockTime (capsuleAt (run trace deployed) capsuleId) <= timestamp msg.
Proof.
  induction trace as [|tx trace IH] using rev_ind; [done|].
  rewrite run_snoc. intros Hu.
  pose proof (wf_run trace deployed wf_deployed) as Hwf.
  destruct (isUnlocked (capsuleAt (run trace deployed) capsuleId)) eqn:Hbefore.
  - destruct IH as (before & msg & after & -> & Hopen & Hdue); [done|].
    exists before, msg, (after ++ [tx]). split_and!; [|done|].
    + by rewrite <- app_assoc.
    + rewrite transact_frozen;
        [done|done|by apply unlocked_written|by apply unlocked_inactive].
  - destruct (unlock_step tx _ capsuleId Hbefore Hu)
      as (msg & -> & Ha & Hdue & Hc).
    exists trace, msg, []. split_and!; [done| |].
    + rewrite succeeds_open, Ha, Hbefore. cbn. by apply N.leb_le.
    + by rewrite Hc.
Qed.

Lemma unlocked_only_by_due_open_witness :
  exists before msg after,
    [txCreate 0; txOpen bob 3599; txOpen bob 3600; txGrant alice charlie 3700]
    = before ++ mkTx msg (OpenTimeCapsule 1) :: after
    /\ succeeds (@openTimeCapsule mockFHEVM msg 1 (@run mockFHEVM before deployed))
       = true
    /\ unlockTime
         (capsuleAt
            (@run mockFHEVM
               [txCreate 0; txOpen bob 3599; txOpen bob 3600;
                txGrant alice charlie 3700] deployed) 1)
       <= timestamp msg.
Proof.
  apply (@unlocked_only_by_due_open mockFHEVM
           [txCreate 0; txOpen bob 3599; txOpen bob 3600;
            txGrant alice charlie 3700] 1).
  vm_compute. reflexivity.
Defined.

(** X10: no transaction takes anything back.  Along every sequence of
    transactions, from any state, the permission ledger only gains entries,
    the event log is only appended to, and the id counter never decreases. *)
Theorem store_only_grows `{FHEVM} (trace : list Tx) (s : State) :
  acl s ⊆ acl (run trace s)
  /\ events s `prefix_of` events (run trace s)
  /\ nextCapsuleId s <= nextCapsuleId (run trace s).
Proof. apply run_grows. Qed.

(** X11: in every state reachable from deployment, the creator of an
    unlocked capsule is permitted to decrypt every handle that
    [getEncryptedCapsuleMetadata] and [getEncryptedMessage] return for it. *)
Theorem creator_reads_unlocked `{FHEVM} (trace : list Tx) (capsuleId : N) :
  let s := run trace deployed in
  isUnlocked (capsuleAt s capsuleId) = true ->
  forall encryptedCreator encryptedUnlockTime encryptedIsActive
         encryptedIsUnlocked chunks h,
    getEncryptedCapsuleMetadata s capsuleId
    = (encryptedCreator, encryptedUnlockTime, encryptedIsActive,
       encryptedIsUnlocked) ->
    getEncryptedMessage s capsuleId = Ok chunks ->
    h ∈ encryptedCreator :: encryptedUnlockTime :: encryptedIsActive
          :: encryptedIsUnlocked :: chunks ->
    (h, creator (capsuleAt s capsuleId)) ∈ acl s.
Proof.
  intros s Hu ec eu ea ek chunks h [= <- <- <- <-].
  rewrite getEncryptedMessage_eq. intros [= <-] Hh.
  assert (creator_holds s) as Hinv.
  { apply creator_holds_run; [apply wf_deployed|]. intros id. cbn.
    unfold capsuleAt. cbn. by rewrite lookup_total_empty. }
  apply (Hinv capsuleId Hu). by apply elem_of_grantsTo.
Qed.

Lemma creator_reads_unlocked_witness :
  (303, alice) ∈ acl (@run mockFHEVM [txCreate 0; txOpen bob 3600] deployed).
Proof.
  apply (@creator_reads_unlocked mockFHEVM [txCreate 0; txOpen bob 3600] 1
           ltac:(vm_compute; reflexivity) 1010 500 1 2 [101; 202; 303] 303).
  - vm_compute. reflexivity.
  - vm_compute. reflexivity.
  - vm_compute. by repeat constructor.
Defined.

(** X12: access once given is kept.  After a successful [openTimeCapsule] the
    caller, and after a successful [grantDecryptionAccess] the recipient, is
    permitted to decrypt every handle of the capsule in every later state,
    and the capsule stays unlocked. *)
Theorem access_persists `{FHEVM} (trace later : list Tx) (msg : Msg)
    (call : Call) (capsuleId : N) (who : address) :
  let s := run trace deployed in
  call = OpenTimeCapsule capsuleId /\ who = sender msg
  \/ call = GrantDecryptionAccess capsuleId who ->
  succeeds (dispatch (mkTx msg call) s) = true ->
  let s'' := run later (transact (mkTx msg call) s) in
  isUnlocked (capsuleAt s'' capsuleId) = true
  /\ forall h, h ∈ fieldHandles (capsuleAt s'' capsuleId) -> (h, who) ∈ acl s''.
Proof.
  intros s Hcall Hok s''.
  pose proof (wf_run trace deployed wf_deployed) as Hwf. fold s in Hwf.
  set (s' := transact (mkTx msg call) s) in *.
  assert (wf s') as Hwf' by by apply wf_transact.
  assert (isUnlocked (capsuleAt s' capsuleId) = true
          /\ grantsTo who (capsuleAt s' capsuleId) ⊆ acl s') as [Hu Hacl].
  { subst s'.
    destruct (transact_outcome (mkTx msg call) s) as [e He|? ? ? ? ? ? Htx
      |? ? Htx|msg' target Htx Ha Hu Hdue c|msg' target recipient Htx Hr Hu Hc].
    - by rewrite He in Hok.
    - destruct Hcall as [[-> _]| ->]; congruence.
    - destruct Hcall as [[-> _]| ->]; congruence.
    - destruct Hcall as [[-> ->]| ->]; [|congruence].
      injection Htx as <- <-. rewrite capsuleAt_insert. split; [done|].
      cbn [acl]. destruct (N.eqb_spec (sender msg) (creator c)) as [Heq|Hne];
        [|set_solver].
      rewrite Heq at 1. set_solver.
    - destruct Hcall as [[-> _]| ->]; [congruence|].
      injection Htx as <- <- <-. split; [done|]. cbn [acl].
      change (capsuleAt (mkState (timeCapsules s) _ _ _ _) capsuleId)
        with (capsuleAt s capsuleId).
      set_solver. }
  pose proof (run_frozen later s' capsuleId Hwf'
                (unlocked_written _ _ Hu) (unlocked_inactive _ _ Hwf' Hu))
    as Hsame.
  fold s'' in Hsame. rewrite Hsame. split; [done|].
  intros h Hh. apply (run_grows later s'). apply Hacl.
  by apply elem_of_grantsTo.
Qed.

Lemma access_persists_witness :
  (202, charlie)
  ∈ acl (@run mockFHEVM [txCreate 4000; txCancel alice 4001]
           (@transact mockFHEVM (txGrant alice charlie 3700)
              (@run mockFHEVM [txCreate 0; txOpen bob 3600] deployed))).
Proof.
  apply (@access_persists mockFHEVM [txCreate 0; txOpen bob 3600]
           [txCreate 4000; txCancel alice 4001] (mkMsg alice 3700)
           (GrantDecryptionAccess 1 charlie) 1 charlie).
  - by right.
  - vm_compute. reflexivity.
  - vm_compute. by repeat constructor.
Defined.

(** X13: every permission is backed by a grant.  In every state reachable
    from deployment, a permission held by an account other than the contract
    itself is on a handle that is a field of some unlocked capsule, and the
    log holds the [CapsuleEncryptionGranted] event of that capsule for that
    account.  A handle can be a field of several capsules (the trivially
    encrypted flags are), so this bounds who can hold a permission, not which
    capsules have the handle among their fields. *)
Theorem permissions_backed_by_grants `{FHEVM} (trace : list Tx) (h : handle)
    (account : address) :
  let s := run trace deployed in
  (h, account) ∈ acl s ->
  account <> this ->
  exists capsuleId,
    isUnlocked (capsuleAt s capsuleId) = true
    /\ h ∈ fieldHandles (capsuleAt s capsuleId)
    /\ grantedEvent capsuleId account (capsuleAt s capsuleId) ∈ events s.
Proof.
  intros s Hin Hother.
  assert (ledger_backed s) as Hinv.
  { apply ledger_backed_run; [apply wf_deployed|]. intros ? ? Hempty.
    by apply elem_of_empty in Hempty. }
  by destruct (Hinv h account Hin).
Qed.

Lemma permissions_backed_by_grants_witness :
  exists capsuleId,
    let s := @run mockFHEVM [txCreate 0; txOpen bob 3600] deployed in
    isUnlocked (capsuleAt s capsuleId) = true
    /\ 101 ∈ fieldHandles (capsuleAt s capsuleId)
    /\ grantedEvent capsuleId bob (capsuleAt s capsuleId) ∈ events s.
Proof.
  apply (@permissions_backed_by_grants mockFHEVM
           [txCreate 0; txOpen bob 3600] 101 bob).
  - vm_compute. by repeat constructor.
  - vm_compute. discriminate.
Defined.

(** X14: the event log and the storage agree.  In every state reachable from
    deployment: a [CapsuleCreated] event is in the log exactly for the ids
    handed out, with the creator and unlock time the capsule has; a
    [CapsuleCancelled] event exactly for the capsules that are neither active
    nor unlocked; a [CapsuleUnlocked] event exactly for the unlocked
    capsules. *)
Theorem log_agrees_with_storage `{FHEVM} (trace : list Tx) :
  let s := run trace deployed in
  (forall capsuleId who ut,
     CapsuleCreated capsuleId who ut ∈ events s
     <-> capsuleId ∈ assigned trace deployed
         /\ who = creator (capsuleAt s capsuleId)
         /\ ut = unlockTime (capsuleAt s capsuleId))
  /\ (forall capsuleId who,
        CapsuleCancelled capsuleId who ∈ events s
        <-> capsuleId ∈ assigned trace deployed
            /\ isActive (capsuleAt s capsuleId) = false
            /\ isUnlocked (capsuleAt s capsuleId) = false
            /\ who = creator (capsuleAt s capsuleId))
  /\ (forall capsuleId who,
        CapsuleUnlocked capsuleId who ∈ events s
        <-> isUnlocked (capsuleAt s capsuleId) = true
            /\ who = creator (capsuleAt s capsuleId)).
Proof.
  intros s.
  destruct (log_agrees_run trace deployed wf_deployed log_agrees_deployed)
    as (Hcreated & Hcancelled & Hunlocked).
  split_and!; [| |done].
  - intros capsuleId who ut. rewrite <- written_assigned. apply Hcreated.
  - intros capsuleId who. rewrite <- written_assigned. apply Hcancelled.
Qed.

(** ** The codec *)

(** X15: [bytesToBigInt] and the bigint branch of [valueToBytes32] are
    inverse to each other between the 32-byte blocks and the integers of
    [0, 2^256): every block is read as a number of that range from which
    [valueToBytes32] gives back the block, and every number of that range is
    written as a 32-byte block from which [bytesToBigInt] gives back the
    number. *)
Theorem chunk_value_roundtrip :
  (forall chunk : Uint8Array,
     length chunk = BYTES_PER_CHUNK ->
     exists v,
       bytesToBigInt chunk = Normal v
       /\ (0 <= v < 2 ^ 256)%Z
       /\ valueToBytes32 (VBigInt v) = Normal (Some chunk))
  /\ (forall v : Z,
        (0 <= v < 2 ^ 256)%Z ->
        exists chunk,
          valueToBytes32 (VBigInt v) = Normal (Some chunk)
          /\ length chunk = BYTES_PER_CHUNK
          /\ bytesToBigInt chunk = Normal v).
Proof.
  split.
  - intros chunk Hlen. exists (Z.of_N (digitsValue (digitsOf chunk))).
    split; [|split].
    + apply bytesToBigInt_value. intros ->. done.
    + split; [lia|].
      pose proof (digitsValue_bound _ (digitsOf_digits chunk)) as Hbound.
      rewrite digitsOf_length, Hlen in Hbound.
      change (16 ^ N.of_nat (2 * BYTES_PER_CHUNK)) with (2 ^ 256) in Hbound.
      change (2 ^ 256)%Z with (Z.of_N (2 ^ 256)). lia.
    + by apply valueToBytes32_chunk.
  - intros v Hv. destruct (chunk_of_value v Hv) as (? & ? & ?). eauto.
Qed.

Lemma chunk_value_roundtrip_witness :
  exists chunk,
    valueToBytes32 (VBigInt 513) = Normal (Some chunk)
    /\ length chunk = BYTES_PER_CHUNK
    /\ bytesToBigInt chunk = Normal 513%Z.
Proof.
  apply (proj2 chunk_value_roundtrip 513%Z). lia.
Defined.

(** X16: [encodeMessageToChunks] never throws.  It yields
    [ceil((4 + n) / 32)] chunks for a message of [n] encoded bytes, and every
    chunk is a non-negative integer below [2^256]. *)
Theorem encodeMessageToChunks_shape `{Runtime} (message : jsString) :
  exists chunks,
    encodeMessageToChunks message = Normal chunks
    /\ length chunks
       = ((4 + length (TextEncoder_encode message) + 31) / 32)%nat
    /\ Forall (fun chunk => (0 <= chunk < 2 ^ 256)%Z) chunks.
Proof.
  unfold encodeMessageToChunks. rewrite encodeBytesToChunks_eq.
  eexists. split_and!; [done|by rewrite chunksOf_length|].
  unfold chunksOf. cbn zeta. apply Forall_fmap, Forall_forall. intros i _.
  cbn beta. split; [lia|].
  pose proof (digitsValue_bound _ (digitsOf_digits
    (blockAt (bigEndian32 (N.of_nat (length (TextEncoder_encode message)))
                ++ TextEncoder_encode message) i))) as Hbound.
  rewrite digitsOf_length, blockAt_length in Hbound.
  change (16 ^ N.of_nat (2 * BYTES_PER_CHUNK)) with (2 ^ 256) in Hbound.
  change (2 ^ 256)%Z with (Z.of_N (2 ^ 256)). lia.
Qed.

(** X17: [valueToBytes32] never returns [undefined], and whatever it returns
    is exactly 32 bytes long - for a boolean, for a bigint of any size, and
    for a hexadecimal string shorter or longer than 32 bytes. *)
Theorem valueToBytes32_returns_32_bytes (value : DecryptedValue)
    (r : option Uint8Array) :
  valueToBytes32 value = Normal r ->
  exists bytes, r = Some bytes /\ length bytes = BYTES_PER_CHUNK.
Proof.
  intros Hr. pose proof (valueToBytes32_length value) as Hlen.
  rewrite Hr in Hlen. destruct r as [bytes|]; [eauto|done].
Qed.

Lemma valueToBytes32_returns_32_bytes_witness :
  exists bytes,
    Some (repeat x00 30 ++ [xab; xcd]) = Some bytes
    /\ length bytes = BYTES_PER_CHUNK.
Proof.
  apply (valueToBytes32_returns_32_bytes (VString (str "abcd"))).
  vm_compute. reflexivity.
Defined.

(** X18: what [decodeMessageFromResults] accepts.  When the decoding returns
    a message, there was at least one handle, every handle had a decrypted
    value, and the bytes handed to the text decoder are as many as the
    length prefix of the merged chunks declares, which is never more than the
    chunks hold after the prefix. *)
Theorem decodeBytesFromResults_sound `{Runtime} (handles : list jsString)
    (results : gmap jsString DecryptedValue) (messageBytes : Uint8Array) :
  decodeBytesFromResults handles results = Normal (Some messageBytes) ->
  handles <> []
  /\ Forall (fun handle => is_Some (results !! toLowerCase handle)) handles
  /\ (length messageBytes + 4 <= BYTES_PER_CHUNK * length handles)%nat
  /\ exists chunks,
       Forall2 (fun handle chunk =>
           exists value,
             results !! toLowerCase handle = Some value
             /\ valueToBytes32 value = Normal (Some chunk)) handles chunks
       /\ DataView_getUint32_0 (concat chunks)
          = Normal (N.of_nat (length messageBytes))
       /\ messageBytes = take (length messageBytes) (drop 4 (concat chunks)).
Proof.
  unfold decodeBytesFromResults.
  destruct (decide (length handles = 0%nat)) as [|Hsome]; [done|].
  destruct (collectChunks handles results []) as [[chunks|]|] eqn:Hcollect;
    cbn [mbind js_bind]; [|done..].
  apply collectChunks_inv in Hcollect as (blocks & -> & Hblocks).
  cbn [app]. rewrite concatUint8Arrays_eq. cbn [mbind js_bind].
  assert (length (concat blocks) = (BYTES_PER_CHUNK * length handles)%nat)
    as Hmerged.
  { clear Hsome. induction Hblocks as [|handle block handles blocks
      (value & _ & Hvalue) _ IH]; [done|].
    cbn [concat length]. rewrite length_app, IH.
    pose proof (valueToBytes32_length value) as Hlen. rewrite Hvalue in Hlen.
    lia. }
  destruct (decide (length (concat blocks) < 4)%nat); [done|].
  destruct (DataView_getUint32_0 (concat blocks)) as [declared|] eqn:Hdeclared;
    cbn [mbind js_bind]; [|done].
  destruct (decide (N.of_nat (length (concat blocks) - 4) < declared));
    [done|].
  intros Hresult.
  assert (messageBytes
          = Uint8Array_slice (concat blocks) 4 (4 + N.to_nat declared)) as ->
    by congruence.
  clear Hresult.
  assert (length (Uint8Array_slice (concat blocks) 4 (4 + N.to_nat declared))
          = N.to_nat declared) as Hlen.
  { unfold Uint8Array_slice. rewrite length_take, length_drop. lia. }
  rewrite Hlen. split_and!.
  - intros ->. done.
  - eapply Forall2_Forall_l; [exact Hblocks|]. apply Forall_true.
    intros handle block (value & -> & _). by eexists.
  - lia.
  - exists blocks. split_and!; [done|by rewrite N2Nat.id|].
    unfold Uint8Array_slice. do 2 f_equal. lia.
Qed.

Lemma decodeBytesFromResults_sound_witness :
  (length (@TextEncoder_encode asciiRuntime helloFuture) + 4
   <= BYTES_PER_CHUNK * length [str "0xAB"])%nat.
Proof.
  apply (@decodeBytesFromResults_sound asciiRuntime [str "0xAB"]
           {[ str "0xab" :=
                VBigInt 0x0000000d48656c6c6f2046757475726521000000000000000000000000000000%Z ]}
           (@TextEncoder_encode asciiRuntime helloFuture)).
  vm_compute. reflexivity.
Defined.

(** X19: on the values the decryption of an encrypted boolean or of an
    encrypted 256-bit integer can give, [decodeMessageFromResults] never
    throws; and it returns [undefined] when there is no handle or when some
    handle has no decrypted value. *)
Theorem decodeBytesFromResults_undefined `{Runtime} (handles : list jsString)
    (results : gmap jsString DecryptedValue) :
  (forall handle value,
     handle ∈ handles -> results !! toLowerCase handle = Some value ->
     wellTyped value) ->
  (exists r, decodeBytesFromResults handles results = Normal r)
  /\ (handles = []
      \/ Exists (fun handle => results !! toLowerCase handle = None) handles ->
      decodeBytesFromResults handles results = Normal None
      /\ decodeMessageFromResults handles results = Normal None).
Proof.
  intros Htyped.
  destruct (collectChunks_wellTyped handles results Htyped [])
    as (chunks & Hcollect & Hmissing).
  assert (exists r, decodeBytesFromResults handles results = Normal r) as Htotal.
  { unfold decodeBytesFromResults.
    destruct (decide (length handles = 0%nat)); [by eexists|].
    rewrite Hcollect. cbn [mbind js_bind].
    destruct chunks as [chunks|]; [|by eexists].
    rewrite concatUint8Arrays_eq. cbn [mbind js_bind].
    destruct (decide (length (concat chunks) < 4)%nat) as [|Hlong];
      [by eexists|].
    assert (exists declared,
      DataView_getUint32_0 (concat chunks) = Normal declared) as [declared ->].
    { destruct (concat chunks) as [|? [|? [|? [|? ?]]]]; cbn in Hlong;
        try lia. by eexists. }
    cbn [mbind js_bind]. destruct (decide _); by eexists. }
  split; [done|]. intros Hcase.
  cut (decodeBytesFromResults handles results = Normal None).
  { intros Hnone. split; [done|]. unfold decodeMessageFromResults.
    by rewrite Hnone. }
  unfold decodeBytesFromResults.
  destruct (decide (length handles = 0%nat)) as [|Hsome]; [done|].
  destruct Hcase as [->|Hcase]; [done|].
  rewrite Hcollect, (Hmissing Hcase). done.
Qed.

Lemma decodeBytesFromResults_undefined_witness :
  @decodeBytesFromResults asciiRuntime [str "0xAB"; str "0xCD"]
    {[ str "0xab" := VBigInt 7 ]}
  = Normal None.
Proof.
  apply (@decodeBytesFromResults_undefined asciiRuntime
           [str "0xAB"; str "0xCD"] {[ str "0xab" := VBigInt 7 ]}).
  - intros handle value _ Hvalue.
    apply lookup_singleton_Some in Hvalue as [_ <-]. vm_compute.
    split; [discriminate|reflexivity].
  - right. apply Exists_cons. right. apply Exists_cons. left.
    vm_compute. reflexivity.
Defined.

Lemma digitsValue_bytes (bytes : Uint8Array) : forall acc,
  foldl (fun a d => 16 * a + d) acc (digitsOf bytes)
  = foldl (fun a b => 256 * a + Byte.to_N b) acc bytes.
Proof.
  induction bytes as [|b bytes IH]; intros acc; [done|].
  cbn [digitsOf flat_map app foldl]. fold (digitsOf bytes). rewrite IH.
  f_equal. pose proof (N.div_mod' (Byte.to_N b) 16). lia.
Qed.

(** X20: [bytesToBigInt] reads a byte array as a big-endian number: the first
    byte is the most significant.  On the empty array it throws, since
    [BigInt] rejects the text [0x]. *)
Theorem bytesToBigInt_big_endian (bytes : Uint8Array) :
  bytesToBigInt bytes
  = match bytes with
    | [] => Throw "SyntaxError"
    | _ => Normal (Z.of_N (foldl (fun a b => 256 * a + Byte.to_N b) 0 bytes))
    end.
Proof.
  destruct bytes as [|b bytes]; [done|].
  rewrite bytesToBigInt_value by done. unfold digitsValue.
  by rewrite digitsValue_bytes.
Qed.

(** X21: [concatUint8Arrays] never throws: every array fits at its offset,
    and the result is the arrays joined in order. *)
Theorem concatUint8Arrays_spec (arrays : list Uint8Array) :
  concatUint8Arrays arrays = Normal (concat arrays)
  /\ length (concat arrays) = sum_list (map length arrays).
Proof.
  split; [apply concatUint8Arrays_eq|].
  induction arrays as [|a arrays IH]; [done|].
  cbn [concat map sum_list]. by rewrite length_app, IH.
Qed.
